(** * Mandelbrot renderer: escape-time kernel, palette, viewport and row bands

    A shallow embedding of [mandelbrot.c].  The C type [double] is IEEE-754
    binary64, modelled by Rocq's primitive [float]; the C type [int] is
    modelled by [Z] (no computation below leaves the 32-bit range);
    [uint8_t] and [Uint32] are [Z] with the reduction to their width written
    out.  Conversions that C leaves undefined return [None].  Each arithmetic
    operation on [double] is rounded to binary64 on its own, to nearest with
    ties to even (no fused multiply-add, no excess precision). *)

From Stdlib Require Import ZArith List Bool Lia Floats Reals Lra Psatz.
From stdpp Require Import base list.

Open Scope Z_scope.

(** ** Compile-time constants (the [#define]s of the source) *)

Definition WIDTH : Z := 800.
Definition HEIGHT : Z := 800.
Definition MAX_ITER : Z := 1000.
Definition NUM_THREADS : Z := 16.

(** ** Conversions between the integer types and [double] *)

(** [(double)n] for an [int] [n]: exact, every 32-bit integer is a binary64
    number. *)
Definition double_of_int (n : Z) : float :=
  if n <? 0 then (- of_uint63 (Uint63.of_Z (- n)))%float
  else of_uint63 (Uint63.of_Z n).

(** The integer part of a [double] (rounding towards zero); [None] for
    infinities and NaN. *)
Definition trunc_double (d : float) : option Z :=
  match Prim2SF d with
  | S754_zero _ => Some 0
  | S754_finite s m e =>
      let a := Z.shiftl (Z.pos m) e in Some (if s then - a else a)
  | S754_infinity _ | S754_nan => None
  end.

(** [(uint8_t)d]: the integer part of [d]; C leaves the conversion undefined
    when the integer part is not a value of [uint8_t]. *)
Definition uint8_of_double (d : float) : option Z :=
  match trunc_double d with
  | Some n => if (0 <=? n) && (n <? 256) then Some n else None
  | None => None
  end.

(** Reduction of an integer to the range of [int] (two's complement) and of
    [Uint32]. *)
Definition wrap_int (n : Z) : Z := (n + 2 ^ 31) mod 2 ^ 32 - 2 ^ 31.
Definition wrap_uint32 (n : Z) : Z := n mod 2 ^ 32.

(** ** The data of the program *)

(** [Mandelbrot]: view and zoom level (the pixel buffer is passed around
    separately). *)
Record Mandelbrot : Type := mk_Mandelbrot
  { centerX : float; centerY : float; zoom : float }.

(** [ThreadData]: the vertical slice [startY, endY) of one thread. *)
Record ThreadData : Type := mk_ThreadData { startY : Z; endY : Z }.

(** The variables of the kernel that live across the inner [for] loop. *)
Record kstate : Type := mk_kstate
  { zr : float; zi : float; iter : Z; zr2 : float; zi2 : float }.

(** ** The escape-time kernel (lines 64-85 of [renderPart]) *)

(** The bailout test [zr2 + zi2 >= 4.0]. *)
Definition bailout (a b : float) : bool := (4 <=? a + b)%float.

Section Kernel.
(** The iteration cap ([MAX_ITER] in the source) and the constant
    [c = real + i*imag] of the pixel. *)
Variable MaxIter : Z.
Variables real imag : float.

(** Lines 76-82: one update of [z], the increment of [iter], and the squares
    of the new [z]. *)
Definition advance (s : kstate) : kstate :=
  let zi1 := (zr s * zi s)%float in
  let zi' := (zi1 + (zi1 + imag))%float in
  let zr' := (zr2 s - zi2 s + real)%float in
  {| zr := zr'; zi := zi'; iter := iter s + 1;
     zr2 := (zr' * zr')%float; zi2 := (zi' * zi')%float |}.

(** Lines 75-84: [for (int i = 0; i < 2 && iter < MAX_ITER; i++)]; the
    argument [n] is the number of values of [i] still to come, [2 - i]. *)
Fixpoint inner_for (n : nat) (s : kstate) : kstate :=
  match n with
  | O => s
  | S n' =>
      if iter s <? MaxIter then
        let s' := advance s in
        if bailout (zr2 s') (zi2 s') then s' else inner_for n' s'
      else s
  end.

(** Lines 69-85: the outer [while].  [zr2] and [zi2] are assigned at the top
    of every pass before they are read, so the state carried from one pass
    to the next is [(zr, zi, iter)].  The result is the value of [iter] when
    the loop is left; [None] when the fuel runs out first. *)
Fixpoint outer_while (fuel : nat) (zr0 zi0 : float) (iter0 : Z) : option Z :=
  match fuel with
  | O => None
  | S fuel' =>
      if iter0 <? MaxIter then
        let a := (zr0 * zr0)%float in
        let b := (zi0 * zi0)%float in
        if bailout a b then Some iter0
        else
          let s := inner_for 2 (mk_kstate zr0 zi0 iter0 a b) in
          outer_while fuel' (zr s) (zi s) (iter s)
      else Some iter0
  end.

(** Lines 64-85: the iteration count of one pixel. *)
Definition escape_iter : option Z :=
  outer_while (S (Z.to_nat MaxIter)) 0%float 0%float 0.

(** *** The orbit of [0] and the straightforward loop *)

(** One application of [z := z^2 + c] in binary64, with the operations in
    the order of lines 76-78. *)
Definition mandel_step (z : float * float) : float * float :=
  let zi1 := (fst z * snd z)%float in
  ((fst z * fst z - snd z * snd z + real)%float, (zi1 + (zi1 + imag))%float).

Definition orbit (n : nat) : float * float :=
  Nat.iter n mandel_step (0%float, 0%float).

(** The squared magnitude of [z] has reached the bailout threshold. *)
Definition escaped (z : float * float) : bool :=
  bailout (fst z * fst z)%float (snd z * snd z)%float.

(** The loop of the specification's pseudocode:
    [while iter < MaxIter: if |z|^2 >= 4.0: break; z = z^2 + c; iter += 1]. *)
Fixpoint spec_while (fuel : nat) (z : float * float) (it : Z) : option Z :=
  match fuel with
  | O => None
  | S fuel' =>
      if it <? MaxIter then
        if escaped z then Some it
        else spec_while fuel' (mandel_step z) (it + 1)
      else Some it
  end.

Definition spec_escape_iter : option Z :=
  spec_while (S (Z.to_nat MaxIter)) (0%float, 0%float) 0.

(** The number of steps from [z] to the first escape, at most [rem]. *)
Fixpoint steps_to_escape (rem : nat) (z : float * float) : nat :=
  match rem with
  | O => O
  | S rem' =>
      if escaped z then O else S (steps_to_escape rem' (mandel_step z))
  end.

(** [zr2] and [zi2] hold the squares of the current [zr] and [zi]. *)
Definition squares_ok (s : kstate) : Prop :=
  zr2 s = (zr s * zr s)%float /\ zi2 s = (zi s * zi s)%float.

(** What the kernel will return from the state [s]: the iterations done so
    far plus the steps to the first escape among those still allowed. *)
Definition final_iter (s : kstate) : Z :=
  iter s
  + Z.of_nat (steps_to_escape (Z.to_nat (MaxIter - iter s)) (zr s, zi s)).

End Kernel.

(** ** The colour palette ([generateColorPalette], lines 38-46) *)

Section Palette.
Variable MaxIter : Z.

(** Line 40: [t = (double)i / MAX_ITER]. *)
Definition palette_t (i : Z) : float :=
  (double_of_int i / double_of_int MaxIter)%float.

(** Lines 41-43, the arguments of the three casts. *)
Definition red_value (t : float) : float :=
  (9 * (1 - t) * t * t * t * 255)%float.
Definition green_value (t : float) : float :=
  (15 * (1 - t) * (1 - t) * t * t * 255)%float.
Definition blue_value (t : float) : float :=
  (8.5 * (1 - t) * (1 - t) * (1 - t) * t * 255)%float.

(** Line 44: [(0xFF << 24) | (r << 16) | (g << 8) | b], computed on [int]
    and stored into a [Uint32]. *)
Definition pack_color (r g b : Z) : Z :=
  wrap_uint32
    (Z.lor (Z.lor (Z.lor (wrap_int (Z.shiftl 255 24)) (Z.shiftl r 16))
              (Z.shiftl g 8)) b).

(** The body of the loop for one [i]: the value stored in
    [colorPalette[i]]. *)
Definition palette_entry (i : Z) : option Z :=
  let t := palette_t i in
  match uint8_of_double (red_value t), uint8_of_double (green_value t),
        uint8_of_double (blue_value t) with
  | Some r, Some g, Some b => Some (pack_color r g b)
  | _, _, _ => None
  end.

(** The loop [for (int i = 0; i <= MAX_ITER; i++)] started at [i] with [n]
    passes to go, on the array [pal]. *)
Fixpoint palette_for (n : nat) (i : Z) (pal : list Z) : option (list Z) :=
  match n with
  | O => Some pal
  | S n' =>
      match palette_entry i with
      | Some c => palette_for n' (i + 1) (<[Z.to_nat i := c]> pal)
      | None => None
      end
  end.

(** [colorPalette] after [generateColorPalette()]: the static array of
    [MAX_ITER + 1] zeros, filled by the loop. *)
Definition generateColorPalette : option (list Z) :=
  palette_for (Z.to_nat (MaxIter + 1)) 0
    (replicate (Z.to_nat (MaxIter + 1)) 0).

End Palette.

(** ** The viewport transform and the colour of a pixel (lines 56-88) *)

(** Line 56: the imaginary part for row [y]. *)
Definition pixel_imag (m : Mandelbrot) (y : Z) : float :=
  ((double_of_int y - double_of_int HEIGHT / 2)
   / (0.5 * zoom m * double_of_int HEIGHT) + centerY m)%float.

(** Line 63: the real part for column [x]. *)
Definition pixel_real (m : Mandelbrot) (x : Z) : float :=
  ((double_of_int x - double_of_int WIDTH / 2)
   / (0.5 * zoom m * double_of_int WIDTH) + centerX m)%float.

(** The iteration count of pixel [(x, y)]. *)
Definition pixel_iter (m : Mandelbrot) (x y : Z) : option Z :=
  escape_iter MAX_ITER (pixel_real m x) (pixel_imag m y).

(** Line 88: [row[x] = colorPalette[iter]]. *)
Definition pixel_color (palette : list Z) (m : Mandelbrot) (x y : Z)
  : option Z :=
  match pixel_iter m x y with
  | Some it => palette !! Z.to_nat it
  | None => None
  end.

(** ** The row bands of [drawMandelbrot] (lines 100-109) *)

Section Scheduler.
(** The image height and the number of threads ([HEIGHT] and [NUM_THREADS]
    in the source). *)
Variables Height N : Z.

(** Line 100: [int sliceHeight = HEIGHT / NUM_THREADS] (C division). *)
Definition sliceHeight : Z := Z.quot Height N.

(** Lines 108-109: the slice of thread [i]. *)
Definition slice (i : Z) : ThreadData :=
  {| startY := i * sliceHeight;
     endY := if i =? N - 1 then Height else (i + 1) * sliceHeight |}.

(** The array [threadData] after the loop of line 106. *)
Definition threadData : list ThreadData := slice <$> seqZ 0 N.

(** Row [y] belongs to the slice [d]. *)
Definition in_slice (y : Z) (d : ThreadData) : Prop :=
  startY d <= y < endY d.

End Scheduler.

(** ** Zooming and panning (the event loop of [main], lines 164-188) *)

(** The literal [1.1] of the source: the binary64 number nearest to 11/10. *)
Definition c_1_1 : float := 0x1.199999999999ap+0%float.

(** Line 166: [zoom *= (event.wheel.y > 0) ? 1.1 : 1 / 1.1]. *)
Definition apply_wheel (wheel_y : float) (m : Mandelbrot) : Mandelbrot :=
  {| centerX := centerX m; centerY := centerY m;
     zoom := (zoom m * (if (0 <? wheel_y)%float then c_1_1 else 1 / c_1_1))%float |}.

Definition zoom_in : Mandelbrot -> Mandelbrot := apply_wheel 1%float.
Definition zoom_out : Mandelbrot -> Mandelbrot := apply_wheel (-1)%float.

(** Lines 183-184: the centre moves against the mouse displacement
    [(dx, dy) = (event.motion.x - prevMouseX, event.motion.y - prevMouseY)]. *)
Definition pan (dx dy : float) (m : Mandelbrot) : Mandelbrot :=
  {| centerX := (centerX m - dx / (zoom m * double_of_int WIDTH))%float;
     centerY := (centerY m - dy / (zoom m * double_of_int HEIGHT))%float;
     zoom := zoom m |}.

(** Line 144: the initial view. *)
Definition initial_view : Mandelbrot :=
  {| centerX := (-0.5)%float; centerY := 0%float; zoom := 1%float |}.

(** ** The palette formula of the specification *)

(** Rounding to the nearest integer, halves away from zero. *)
Definition spec_round (d : float) : option Z :=
  match trunc_double d with
  | Some n =>
      let frac := (d - double_of_int n)%float in
      Some (if (0.5 <=? frac)%float then n + 1
            else if (frac <=? -0.5)%float then n - 1 else n)
  | None => None
  end.

(** [r = round(9 * (1-t) * t^3 * 255)], [g = round(15 * (1-t)^2 * t^2 * 255)],
    [b = round(8.5 * (1-t)^3 * t * 255)] with [t = i / MaxIter], and
    [color[i] = 0xFF<<24 | r<<16 | g<<8 | b]. *)
Definition spec_palette_entry (MaxIter i : Z) : option Z :=
  let t := (double_of_int i / double_of_int MaxIter)%float in
  let u := (1 - t)%float in
  match spec_round (9 * u * (t * t * t) * 255)%float,
        spec_round (15 * (u * u) * (t * t) * 255)%float,
        spec_round (8.5 * (u * u * u) * t * 255)%float with
  | Some r, Some g, Some b =>
      Some (Z.lor (Z.lor (Z.lor (Z.shiftl 255 24) (Z.shiftl r 16))
                     (Z.shiftl g 8)) b)
  | _, _, _ => None
  end.

(** ** Checks evaluated on the palette of the program *)

(** The value of a channel lies in [[0, 255]]. *)
Definition channel_in_range (v : float) : bool :=
  (0 <=? v)%float && (v <=? 255)%float.

(** The three channel values of entry [i] lie in [[0, 255]] and their
    conversions to [uint8_t] keep the integer part unchanged. *)
Definition channels_fit (MaxIter i : Z) : bool :=
  let t := palette_t MaxIter i in
  forallb (fun v =>
             channel_in_range v
             && match trunc_double v, uint8_of_double v with
                | Some n, Some n' => (n =? n') && (0 <=? n) && (n <=? 255)
                | _, _ => false
                end)
          [red_value t; green_value t; blue_value t].

(** Entry [i] is the colour with alpha [0xFF] whose channels are the integer
    parts of the three channel values. *)
Definition entry_truncates (MaxIter i : Z) : bool :=
  let t := palette_t MaxIter i in
  match palette_entry MaxIter i, trunc_double (red_value t),
        trunc_double (green_value t), trunc_double (blue_value t) with
  | Some c, Some r, Some g, Some b =>
      (c =? 255 * 2 ^ 24 + r * 2 ^ 16 + g * 2 ^ 8 + b)
      && forallb (fun n => (0 <=? n) && (n <=? 255)) [r; g; b]
  | _, _, _, _ => false
  end.

(** The conversion of [v] to [uint8_t] is defined and keeps the integer part
    of [v], which lies in [[0, 255]] like [v] itself. *)
Definition fits_uint8 (v : float) : Prop :=
  channel_in_range v = true
  /\ exists n, trunc_double v = Some n /\ 0 <= n <= 255
               /\ uint8_of_double v = Some n.

(** ** The real value of a binary64 number *)

(** [2^e] as a real number. *)
Definition pow2 (e : Z) : R := powerRZ 2 e.
Arguments pow2 : simpl never.

Definition sign_R (s : bool) : R := if s then (-1)%R else 1%R.

(** The value of a finite number of the specification of IEEE-754
    arithmetic; zero for infinities and NaN. *)
Definition SF2R (x : spec_float) : R :=
  match x with
  | S754_finite s m e =>
      if s then (- (IZR (Z.pos m) * pow2 e))%R else (IZR (Z.pos m) * pow2 e)%R
  | _ => 0%R
  end.

Definition SF_finite (x : spec_float) : bool :=
  match x with
  | S754_zero _ | S754_finite _ _ _ => true
  | _ => false
  end.

(** A positive number: finite and above zero, or [+infinity]. *)
Definition SF_positive (x : spec_float) : bool :=
  match x with
  | S754_finite false _ _ | S754_infinity false => true
  | _ => false
  end.

(** The same for a [double]. *)
Definition F2R (f : float) : R := SF2R (Prim2SF f).
Definition finite (f : float) : bool := SF_finite (Prim2SF f).
Definition positive_double (f : float) : bool := SF_positive (Prim2SF f).

(** The mantissa [m], the exponent [e] and the location [l] describe the
    real number [x]: [x = (m + rho) * 2^e] with [rho] in [[0, 1)] on the
    side of one half that [l] says. *)
Definition located (m e : Z) (l : location) (x : R) : Prop :=
  exists rho : R,
    x = ((IZR m + rho) * pow2 e)%R
    /\ match l with
       | loc_Exact => rho = 0%R
       | loc_Inexact Lt => (0 < rho < 1 / 2)%R
       | loc_Inexact Eq => rho = (1 / 2)%R
       | loc_Inexact Gt => (1 / 2 < rho < 1)%R
       end.

(** The tolerances of the two viewport properties below. *)
Definition zoom_tolerance (z : float) : R :=
  (pow2 (-51) * Rabs (F2R z) + pow2 (-1074))%R.

Definition pan_tolerance (c d1 d2 w : float) : R :=
  (pow2 (-50) * (Rabs (F2R c) + Rabs (F2R d1 / F2R w) + Rabs (F2R d2 / F2R w))
   + pow2 (-1073))%R.


(** ** The views the program produces *)

(** The views of [main]: the initial view (line 144), changed by the wheel
    (line 166) and by dragging (lines 183-184) and by nothing else.  The
    wheel motion and the displacements come from the events and can be any
    numbers. *)
Inductive reachable : Mandelbrot -> Prop :=
| reachable_initial : reachable initial_view
| reachable_wheel (wheel_y : float) (m : Mandelbrot) :
    reachable m -> reachable (apply_wheel wheel_y m)
| reachable_pan (dx dy : float) (m : Mandelbrot) :
    reachable m -> reachable (pan dx dy m).

(** The smallest zoom the wheel can lead to from the initial view. *)
Definition zoom_floor : float := 0x5p-1074%float.

(** Two [double]s are the same number: equal as C's [==] has it (zeros of
    either sign are equal), or both NaN. *)
Definition same_number (a b : float) : Prop :=
  (a =? b)%float = true \/ (is_nan a = true /\ is_nan b = true).

(** ** The pixel buffer: [renderPart] as a whole (lines 49-92) *)

(** [p[i] = v] on the array [p]; C leaves a store outside the array
    undefined. *)
Definition store (i v : Z) (p : list Z) : option (list Z) :=
  if (0 <=? i) && (i <? Z.of_nat (length p))
  then Some (<[Z.to_nat i := v]> p) else None.

(** [p[i]]; C leaves a load outside the array undefined. *)
Definition load (p : list Z) (i : Z) : option Z :=
  if 0 <=? i then p !! Z.to_nat i else None.

Section Render.
(** The array [colorPalette] and the view [*m], which the threads only
    read. *)
Variable palette : list Z.
Variable m : Mandelbrot.

(** Lines 62-89: the loop over the columns of row [y], at column [x] with
    [n] passes to go; [imag] is the value computed for the row at line 56
    and the store of line 88 goes to [pixels[y * WIDTH + x]]. *)
Fixpoint columns_for (n : nat) (y : Z) (imag : float) (x : Z)
    (pixels : list Z) : option (list Z) :=
  match n with
  | O => Some pixels
  | S n' =>
      match escape_iter MAX_ITER (pixel_real m x) imag with
      | Some it =>
          match load palette it with
          | Some c =>
              match store (y * WIDTH + x) c pixels with
              | Some pixels' => columns_for n' y imag (x + 1) pixels'
              | None => None
              end
          | None => None
          end
      | None => None
      end
  end.

(** Lines 55-90: the loop over the rows, at row [y] with [n] passes to go;
    [cols] is the number of passes of the column loop. *)
Fixpoint rows_for (cols n : nat) (y : Z) (pixels : list Z)
  : option (list Z) :=
  match n with
  | O => Some pixels
  | S n' =>
      match columns_for cols y (pixel_imag m y) 0 pixels with
      | Some pixels' => rows_for cols n' (y + 1) pixels'
      | None => None
      end
  end.

(** [renderPart(data)]: the rows [startY <= y < endY], each of [WIDTH]
    columns; the result is the pixel buffer when the thread returns. *)
Definition renderPart (data : ThreadData) (pixels : list Z)
  : option (list Z) :=
  rows_for (Z.to_nat WIDTH) (Z.to_nat (endY data - startY data))
    (startY data) pixels.

(** The threads of [drawMandelbrot], each run to completion, one after the
    other in the order of the list. *)
Fixpoint run_threads (order : list ThreadData) (pixels : list Z)
  : option (list Z) :=
  match order with
  | [] => Some pixels
  | data :: rest =>
      match renderPart data pixels with
      | Some pixels' => run_threads rest pixels'
      | None => None
      end
  end.

End Render.

(** ** The update rectangles of [drawMandelbrot] (lines 113-123) *)

Record SDL_Rect : Type := mk_SDL_Rect
  { rect_x : Z; rect_y : Z; rect_w : Z; rect_h : Z }.

(** Lines 113-116: the rectangle of the thread with slice [data]. *)
Definition updateRect (data : ThreadData) : SDL_Rect :=
  {| rect_x := 0; rect_y := startY data; rect_w := WIDTH;
     rect_h := endY data - startY data |}.

(** The array [updateRects] after the loop of line 106. *)
Definition updateRects : list SDL_Rect :=
  updateRect <$> threadData HEIGHT NUM_THREADS.

(** Line 123: the index in [m->pixels] of the first pixel handed to
    [SDL_UpdateTexture] for the rectangle [r], and the number of pixels of
    its [rect_h] rows of [WIDTH * sizeof(uint32_t)] bytes. *)
Definition upload_first (r : SDL_Rect) : Z := rect_y r * WIDTH.
Definition upload_count (r : SDL_Rect) : Z := rect_h r * WIDTH.

(** ** The event loop of [main] (lines 154-197) *)

(** SDL reports the wheel motion and the mouse position as C [float]s,
    IEEE-754 binary32: the numbers of the specification of IEEE-754
    arithmetic with 24 bits of precision. *)
Definition prec32 : Z := 24.
Definition emax32 : Z := 128.

(** [(float)n] for an [int] [n], rounded to nearest. *)
Definition single_of_int (n : Z) : spec_float :=
  binary_normalize prec32 emax32 n 0 false.

(** [(int)f]: the integer part of [f]; C leaves the conversion undefined
    when the integer part is not a value of [int]. *)
Definition int_of_single (f : spec_float) : option Z :=
  match f with
  | S754_zero _ => Some 0
  | S754_finite s m e =>
      let a := Z.shiftl (Z.pos m) e in
      let n := if s then - a else a in
      if (- 2 ^ 31 <=? n) && (n <? 2 ^ 31) then Some n else None
  | S754_infinity _ | S754_nan => None
  end.

(** [(double)f]: every binary32 number is a binary64 number. *)
Definition double_of_single (f : spec_float) : float := SF2Prim f.

(** The events the loop reacts to, with the fields it reads; every other
    event is [OtherEvent]. *)
Inductive SDL_Event : Type :=
| Quit
| MouseWheel (wheel_y : spec_float)
| MouseButtonDown (button : Z) (x y : spec_float)
| MouseButtonUp
| MouseMotion (x y : spec_float)
| OtherEvent.

Definition SDL_BUTTON_LEFT : Z := 1.

(** The variables of [main] that live across the loop (lines 144 and
    154-155). *)
Record main_state : Type := mk_main_state
  { running : bool; dragging : bool; prevMouseX : Z; prevMouseY : Z;
    mandelbrot : Mandelbrot }.

(** Lines 144 and 154-155. *)
Definition initial_state : main_state :=
  {| running := true; dragging := false; prevMouseX := 0; prevMouseY := 0;
     mandelbrot := initial_view |}.

(** Lines 160-189: the [switch] on one event. *)
Definition handle_event (event : SDL_Event) (s : main_state)
  : option main_state :=
  match event with
  | Quit =>
      Some {| running := false; dragging := dragging s;
              prevMouseX := prevMouseX s; prevMouseY := prevMouseY s;
              mandelbrot := mandelbrot s |}
  | MouseWheel wheel_y =>
      Some {| running := running s; dragging := dragging s;
              prevMouseX := prevMouseX s; prevMouseY := prevMouseY s;
              mandelbrot :=
                apply_wheel (double_of_single wheel_y) (mandelbrot s) |}
  | MouseButtonDown button x y =>
      if button =? SDL_BUTTON_LEFT then
        match int_of_single x, int_of_single y with
        | Some px, Some py =>
            Some {| running := running s; dragging := true;
                    prevMouseX := px; prevMouseY := py;
                    mandelbrot := mandelbrot s |}
        | _, _ => None
        end
      else Some s
  | MouseButtonUp =>
      Some {| running := running s; dragging := false;
              prevMouseX := prevMouseX s; prevMouseY := prevMouseY s;
              mandelbrot := mandelbrot s |}
  | MouseMotion x y =>
      if dragging s then
        let dx := SFsub prec32 emax32 x (single_of_int (prevMouseX s)) in
        let dy := SFsub prec32 emax32 y (single_of_int (prevMouseY s)) in
        match int_of_single x, int_of_single y with
        | Some px, Some py =>
            Some {| running := running s; dragging := dragging s;
                    prevMouseX := px; prevMouseY := py;
                    mandelbrot :=
                      pan (double_of_single dx) (double_of_single dy)
                        (mandelbrot s) |}
        | _, _ => None
        end
      else Some s
  | OtherEvent => Some s
  end.

(** Lines 159-190: the inner [while], on the events pending in the queue. *)
Fixpoint poll_events (events : list SDL_Event) (s : main_state)
  : option main_state :=
  match events with
  | [] => Some s
  | event :: rest =>
      match handle_event event s with
      | Some s' => poll_events rest s'
      | None => None
      end
  end.

(** Lines 158-197: the outer [while], one pass for each batch of pending
    events: the events of the batch are handled, then the view is drawn.
    The result is the state when the batches are used up or the loop is
    left, with the views drawn, the latest first. *)
Fixpoint main_loop (batches : list (list SDL_Event)) (s : main_state)
    (drawn : list Mandelbrot) : option (main_state * list Mandelbrot) :=
  match batches with
  | [] => Some (s, drawn)
  | events :: rest =>
      if running s then
        match poll_events events s with
        | Some s' => main_loop rest s' (mandelbrot s' :: drawn)
        | None => None
        end
      else Some (s, drawn)
  end.

(** ** Checks on events *)

(** The mouse coordinates of the event can be converted to [int]. *)
Definition event_in_range (event : SDL_Event) : bool :=
  match event with
  | MouseButtonDown _ x y | MouseMotion x y =>
      match int_of_single x, int_of_single y with
      | Some _, Some _ => true
      | _, _ => false
      end
  | _ => true
  end.

Definition is_quit (event : SDL_Event) : bool :=
  match event with Quit => true | _ => false end.

Definition is_left_down (event : SDL_Event) : bool :=
  match event with
  | MouseButtonDown button _ _ => button =? SDL_BUTTON_LEFT
  | _ => false
  end.

Definition is_motion (event : SDL_Event) : bool :=
  match event with MouseMotion _ _ => true | _ => false end.

(** Two states of [main] that differ at most in [running]. *)
Definition same_but_running (s t : main_state) : Prop :=
  dragging s = dragging t /\ prevMouseX s = prevMouseX t
  /\ prevMouseY s = prevMouseY t /\ mandelbrot s = mandelbrot t.

(** The view is one the program produces, with the properties that
    follow: its zoom is at least [zoom_floor] and its centre pixel is mapped
    to its centre. *)
Definition view_ok (v : Mandelbrot) : Prop :=
  reachable v
  /\ (zoom_floor <=? zoom v)%float = true
  /\ same_number (pixel_real v (WIDTH / 2)) (centerX v)
  /\ same_number (pixel_imag v (HEIGHT / 2)) (centerY v).

(** The wheel events of a list, as the factors they apply to the zoom. *)
Definition wheel_factor (wheel_y : spec_float) : float :=
  if (0 <? double_of_single wheel_y)%float then c_1_1 else (1 / c_1_1)%float.

Fixpoint wheel_factors (events : list SDL_Event) : list float :=
  match events with
  | [] => []
  | MouseWheel wheel_y :: rest => wheel_factor wheel_y :: wheel_factors rest
  | _ :: rest => wheel_factors rest
  end.

(** ** Unpacking a colour *)

(** The four bytes of a pixel in the format [SDL_PIXELFORMAT_ARGB8888] of
    the texture (line 135). *)
Definition alpha_of (c : Z) : Z := Z.land (Z.shiftr c 24) 255.
Definition red_of (c : Z) : Z := Z.land (Z.shiftr c 16) 255.
Definition green_of (c : Z) : Z := Z.land (Z.shiftr c 8) 255.
Definition blue_of (c : Z) : Z := Z.land c 255.

(** ** Numbers up to the sign of zero *)

(** A number of the specification of IEEE-754 arithmetic with the sign of
    a zero forgotten. *)
Definition unsigned_zero (X : spec_float) : spec_float :=
  match X with
  | S754_zero _ => S754_zero false
  | _ => X
  end.

(** Two [double]s are the same number (as [same_number] has it), stated on
    their representations. *)
Definition sim (a b : float) : Prop :=
  unsigned_zero (Prim2SF a) = unsigned_zero (Prim2SF b).


(** * Properties *)

(** ** The escape-time kernel *)

Section KernelFacts.
Variable MaxIter : Z.
Variables real imag : float.

Local Abbreviation step := (mandel_step real imag).
Local Abbreviation steps := (steps_to_escape real imag).
Local Abbreviation final_iter := (final_iter MaxIter real imag).

Lemma advance_step (s : kstate) :
  squares_ok s ->
  (zr (advance real imag s), zi (advance real imag s)) = step (zr s, zi s)
  /\ iter (advance real imag s) = iter s + 1
  /\ squares_ok (advance real imag s).
Proof.
  intros [Hr Hi]. unfold advance, mandel_step, squares_ok; simpl.
  rewrite Hr, Hi. auto.
Qed.

Lemma escaped_squares (s : kstate) :
  squares_ok s -> escaped (zr s, zi s) = bailout (zr2 s) (zi2 s).
Proof. intros [Hr Hi]. unfold escaped; simpl. now rewrite Hr, Hi. Qed.

Lemma final_iter_advance (s : kstate) :
  squares_ok s -> escaped (zr s, zi s) = false -> iter s < MaxIter ->
  final_iter (advance real imag s) = final_iter s.
Proof.
  intros Hs He Hlt. destruct (advance_step s Hs) as (Hz & Hit & _).
  unfold final_iter. rewrite Hit, Hz.
  replace (Z.to_nat (MaxIter - iter s))
    with (S (Z.to_nat (MaxIter - (iter s + 1)))) by lia.
  simpl. rewrite He. lia.
Qed.

Lemma final_iter_stop (s : kstate) :
  MaxIter <= iter s \/ escaped (zr s, zi s) = true -> final_iter s = iter s.
Proof.
  unfold final_iter. intros [Hge | He].
  - replace (Z.to_nat (MaxIter - iter s)) with O by lia. simpl. lia.
  - destruct (Z.to_nat (MaxIter - iter s)); simpl; [|rewrite He]; lia.
Qed.

(** The inner [for] loop keeps the invariant, never moves [iter] backwards
    and does not change what the kernel will return. *)
Lemma inner_for_spec (n : nat) (s : kstate) :
  squares_ok s -> escaped (zr s, zi s) = false ->
  let s' := inner_for MaxIter real imag n s in
  squares_ok s' /\ final_iter s' = final_iter s /\ iter s <= iter s'
  /\ (iter s < MaxIter -> (0 < n)%nat -> iter s < iter s').
Proof.
  revert s. induction n as [|n IH]; intros s Hs He; cbn [inner_for].
  - repeat split; try apply Hs; lia.
  - destruct (Z.ltb_spec (iter s) MaxIter) as [Hlt | Hge].
    + destruct (advance_step s Hs) as (Hz & Hit & Hs').
      pose proof (final_iter_advance s Hs He Hlt) as Hf.
      destruct (bailout _ _) eqn:Hb.
      * repeat split; try apply Hs'; lia.
      * rewrite <- (escaped_squares _ Hs') in Hb.
        destruct (IH _ Hs' Hb) as (H1 & H2 & H3 & _). cbv zeta.
        repeat split; try apply H1; lia.
    + repeat split; try apply Hs; lia.
Qed.

(** With more fuel than iterations left, the outer loop returns
    [final_iter]. *)
Lemma outer_while_spec (fuel : nat) :
  forall (zr0 zi0 : float) (it : Z),
    (Z.to_nat (MaxIter - it) < fuel)%nat ->
    outer_while MaxIter real imag fuel zr0 zi0 it
    = Some (it + Z.of_nat (steps (Z.to_nat (MaxIter - it)) (zr0, zi0))).
Proof.
  induction fuel as [|fuel IH]; intros zr0 zi0 it Hfuel; [lia|].
  cbn [outer_while].
  set (s0 := mk_kstate zr0 zi0 it (zr0 * zr0)%float (zi0 * zi0)%float).
  assert (Hs0 : squares_ok s0) by (split; reflexivity).
  change (Some (it + _)) with (Some (final_iter s0)).
  destruct (Z.ltb_spec it MaxIter) as [Hlt | Hge].
  - destruct (bailout _ _) eqn:Hb.
    + rewrite final_iter_stop; [reflexivity|]. right. exact Hb.
    + destruct (inner_for_spec 2 s0 Hs0 Hb) as (_ & Hf & _ & Hprog).
      specialize (Hprog Hlt ltac:(lia)). cbv zeta in *.
      change (iter s0) with it in Hprog.
      rewrite IH by lia.
      rewrite <- Hf. reflexivity.
  - rewrite final_iter_stop; [reflexivity|]. left. simpl. lia.
Qed.

(** The same for the straightforward loop. *)
Lemma spec_while_spec (fuel : nat) :
  forall (z : float * float) (it : Z),
    (Z.to_nat (MaxIter - it) < fuel)%nat ->
    spec_while MaxIter real imag fuel z it
    = Some (it + Z.of_nat (steps (Z.to_nat (MaxIter - it)) z)).
Proof.
  induction fuel as [|fuel IH]; intros z it Hfuel; [lia|].
  simpl. destruct (Z.ltb_spec it MaxIter) as [Hlt | Hge].
  - replace (Z.to_nat (MaxIter - it))
      with (S (Z.to_nat (MaxIter - (it + 1)))) by lia.
    simpl. destruct (escaped z) eqn:He.
    + f_equal. lia.
    + rewrite IH by lia. f_equal. lia.
  - replace (Z.to_nat (MaxIter - it)) with O by lia. simpl. f_equal. lia.
Qed.

Lemma escape_iter_steps :
  escape_iter MaxIter real imag
  = Some (Z.of_nat (steps (Z.to_nat MaxIter) (0%float, 0%float))).
Proof.
  unfold escape_iter. rewrite outer_while_spec by lia.
  now rewrite Z.sub_0_r.
Qed.

(** [steps_to_escape] finds the first escaped point of the orbit of [z]. *)
Lemma steps_to_escape_le (rem : nat) (z : float * float) :
  (steps rem z <= rem)%nat.
Proof.
  revert z. induction rem as [|rem IH]; intros z; simpl; [lia|].
  destruct (escaped z); [lia|]. specialize (IH (step z)). lia.
Qed.

Lemma steps_to_escape_before (rem : nat) :
  forall (z : float * float) (k : nat),
    (k < steps rem z)%nat -> escaped (Nat.iter k step z) = false.
Proof.
  induction rem as [|rem IH]; intros z k Hk; simpl in Hk; [lia|].
  destruct (escaped z) eqn:He; [lia|].
  destruct k as [|k]; [exact He|].
  rewrite Nat.iter_succ_r. apply IH. lia.
Qed.

Lemma steps_to_escape_at (rem : nat) :
  forall z : float * float,
    (steps rem z < rem)%nat -> escaped (Nat.iter (steps rem z) step z) = true.
Proof.
  induction rem as [|rem IH]; intros z Hlt; simpl in *; [lia|].
  destruct (escaped z) eqn:He; [exact He|].
  rewrite Nat.iter_succ_r. apply IH. lia.
Qed.

End KernelFacts.

(** The kernel always returns, with a count between [0] and the cap. *)
Lemma escape_iter_bounded (MaxIter : Z) (real imag : float) :
  0 <= MaxIter ->
  exists n, escape_iter MaxIter real imag = Some n /\ 0 <= n <= MaxIter.
Proof.
  intros H. eexists. split; [apply escape_iter_steps|].
  pose proof (steps_to_escape_le real imag (Z.to_nat MaxIter)
                (0%float, 0%float)). lia.
Qed.

(** No point of the orbit before the returned count has escaped. *)
Lemma escape_iter_orbit_before (MaxIter : Z) (real imag : float) (n k : Z) :
  escape_iter MaxIter real imag = Some n -> 0 <= k < n ->
  escaped (orbit real imag (Z.to_nat k)) = false.
Proof.
  rewrite escape_iter_steps. intros [= <-] Hk. unfold orbit.
  apply (steps_to_escape_before real imag (Z.to_nat MaxIter)). lia.
Qed.

(** A count below the cap is the index of an escaped point. *)
Lemma escape_iter_orbit_at (MaxIter : Z) (real imag : float) (n : Z) :
  escape_iter MaxIter real imag = Some n -> n < MaxIter ->
  escaped (orbit real imag (Z.to_nat n)) = true.
Proof.
  rewrite escape_iter_steps. intros [= <-] Hlt. rewrite Nat2Z.id.
  unfold orbit. apply steps_to_escape_at. lia.
Qed.

(** C1: the kernel returns the index of the first point of the orbit of [0]
    under [z := z^2 + c] whose squared magnitude passes the test [>= 4.0],
    or [MaxIter] when none of the points [z_0 .. z_(MaxIter-1)] does. *)
Theorem escape_iter_first_escape (MaxIter : Z) (real imag : float) :
  0 <= MaxIter ->
  exists n : Z,
    escape_iter MaxIter real imag = Some n
    /\ 0 <= n <= MaxIter
    /\ (forall k, 0 <= k < n ->
          escaped (orbit real imag (Z.to_nat k)) = false)
    /\ (n < MaxIter -> escaped (orbit real imag (Z.to_nat n)) = true).
Proof.
  intros Hmax.
  destruct (escape_iter_bounded MaxIter real imag Hmax) as (n & Hn & Hb).
  exists n. split; [exact Hn|]. split; [exact Hb|]. split.
  - intros k Hk. eapply escape_iter_orbit_before; eauto.
  - intros Hlt. eapply escape_iter_orbit_at; eauto.
Qed.

Lemma escape_iter_first_escape_witness :
  exists n : Z,
    escape_iter 1000 (-1.5)%float (-1)%float = Some n
    /\ 0 <= n <= 1000
    /\ (forall k, 0 <= k < n ->
          escaped (orbit (-1.5)%float (-1)%float (Z.to_nat k)) = false)
    /\ (n < 1000 ->
          escaped (orbit (-1.5)%float (-1)%float (Z.to_nat n)) = true).
Proof. apply (escape_iter_first_escape 1000 (-1.5)%float (-1)%float). lia. Defined.

(** C2: for every cap and every constant [c], the unrolled loop of the
    source and the straightforward loop of the pseudocode return the same
    iteration count. *)
Theorem unrolled_loop_refines_spec_loop (MaxIter : Z) (real imag : float) :
  escape_iter MaxIter real imag = spec_escape_iter MaxIter real imag.
Proof.
  rewrite escape_iter_steps. unfold spec_escape_iter.
  rewrite spec_while_spec by lia. now rewrite Z.sub_0_r.
Qed.

(** ** The row bands *)

Section SchedulerFacts.
Variables Height N : Z.
Hypothesis Height_pos : 0 < Height.
Hypothesis N_pos : 0 < N.

Local Abbreviation sH := (sliceHeight Height N).

Lemma sliceHeight_bounds : 0 <= sH /\ N * sH <= Height < N * sH + N.
Proof.
  unfold sliceHeight. rewrite Z.quot_div_nonneg by lia.
  pose proof (Z.div_mod Height N ltac:(lia)) as Hdm.
  pose proof (Z.mod_pos_bound Height N N_pos) as Hmod.
  pose proof (Z.div_pos Height N ltac:(lia) N_pos) as Hdiv.
  nia.
Qed.

Lemma threadData_length : length (threadData Height N) = Z.to_nat N.
Proof. unfold threadData. now rewrite length_fmap, length_seqZ. Qed.

Lemma threadData_lookup (i : nat) (d : ThreadData) :
  threadData Height N !! i = Some d
  <-> Z.of_nat i < N /\ d = slice Height N (Z.of_nat i).
Proof.
  unfold threadData. rewrite list_lookup_fmap. split.
  - intros H. destruct (seqZ 0 N !! i) as [k|] eqn:Hk; [|discriminate].
    apply lookup_seqZ in Hk. simpl in H. inversion H; subst.
    destruct Hk as [-> Hk]. split; [lia|]. f_equal.
  - intros [Hi ->].
    assert (Hk : seqZ 0 N !! i = Some (Z.of_nat i))
      by (apply lookup_seqZ; split; lia).
    now rewrite Hk.
Qed.

(** A slice other than the last ends where the next one starts, and the
    last one starts inside the image. *)
Lemma slice_start_end (i : Z) :
  0 <= i < N ->
  startY (slice Height N i) = i * sH
  /\ (i < N - 1 -> endY (slice Height N i) = (i + 1) * sH)
  /\ (i = N - 1 -> endY (slice Height N i) = Height)
  /\ startY (slice Height N i) <= endY (slice Height N i) <= Height.
Proof.
  intros Hi. pose proof sliceHeight_bounds as Hb. unfold slice; simpl.
  destruct (Z.eqb_spec i (N - 1)) as [-> | Hne].
  - repeat split; try lia; nia.
  - repeat split; try lia; nia.
Qed.

Lemma slices_ordered (i j : Z) :
  0 <= i < j -> j < N ->
  endY (slice Height N i) <= startY (slice Height N j).
Proof.
  intros Hij Hj. pose proof sliceHeight_bounds as Hb.
  destruct (slice_start_end i ltac:(lia)) as (_ & He & _ & _).
  destruct (slice_start_end j ltac:(lia)) as (Hs & _).
  rewrite He, Hs by lia. nia.
Qed.

Lemma row_has_slice (y : Z) :
  0 <= y < Height ->
  exists i : Z, 0 <= i < N /\ in_slice y (slice Height N i).
Proof.
  intros Hy. pose proof sliceHeight_bounds as Hb.
  destruct (Z_lt_le_dec y ((N - 1) * sH)) as [Hlt | Hge].
  - (* [y] lies below the last slice, so [sliceHeight] is positive *)
    assert (Hs : 0 < sH) by nia.
    pose proof (Z.div_mod y sH ltac:(lia)) as Hdm.
    pose proof (Z.mod_pos_bound y sH Hs) as Hmod.
    assert (Hq : 0 <= y / sH) by (apply Z.div_pos; lia).
    assert (Hq' : y / sH < N - 1) by nia.
    exists (y / sH). split; [lia|].
    destruct (slice_start_end (y / sH) ltac:(lia)) as (Hst & He & _ & _).
    unfold in_slice. rewrite Hst, He by lia. nia.
  - exists (N - 1). split; [lia|].
    destruct (slice_start_end (N - 1) ltac:(lia)) as (Hst & _ & He & _).
    unfold in_slice. rewrite Hst, He by lia. lia.
Qed.

End SchedulerFacts.

(** C3: for all [Height > 0] and [N > 0] the loop produces [N] slices; a row
    lies in some slice exactly when it lies in [[0, Height)], and two
    different slices share no row. *)
Theorem threadData_partition (Height N : Z) :
  0 < Height -> 0 < N ->
  length (threadData Height N) = Z.to_nat N
  /\ (forall y : Z,
        0 <= y < Height
        <-> exists d, d ∈ threadData Height N /\ in_slice y d)
  /\ (forall (i j : nat) (d1 d2 : ThreadData) (y : Z),
        threadData Height N !! i = Some d1 ->
        threadData Height N !! j = Some d2 ->
        i <> j -> ~ (in_slice y d1 /\ in_slice y d2)).
Proof.
  intros HH HN. split; [now apply threadData_length|]. split.
  - intros y. split.
    + intros Hy. destruct (row_has_slice Height N HH HN y Hy) as (i & Hi & Hin).
      exists (slice Height N i). split; [|exact Hin].
      apply list_elem_of_lookup. exists (Z.to_nat i).
      apply threadData_lookup; auto. split; [lia|]. f_equal. lia.
    + intros (d & Hd & Hin). apply list_elem_of_lookup in Hd as [i Hi].
      apply threadData_lookup in Hi as [Hi ->]; auto.
      destruct (slice_start_end Height N HH HN (Z.of_nat i) ltac:(lia))
        as (Hst & _ & _ & Hle).
      pose proof (sliceHeight_bounds Height N HH HN) as Hb.
      unfold in_slice in Hin. rewrite Hst in *. nia.
  - intros i j d1 d2 y H1 H2 Hne [Hy1 Hy2].
    apply threadData_lookup in H1 as [Hi ->]; auto.
    apply threadData_lookup in H2 as [Hj ->]; auto.
    unfold in_slice in *.
    destruct (Nat.lt_total i j) as [Hlt | [Heq | Hgt]]; [|contradiction|].
    + pose proof (slices_ordered Height N HH HN (Z.of_nat i) (Z.of_nat j)
                    ltac:(lia) Hj). lia.
    + pose proof (slices_ordered Height N HH HN (Z.of_nat j) (Z.of_nat i)
                    ltac:(lia) Hi). lia.
Qed.

Lemma threadData_partition_witness :
  length (threadData HEIGHT NUM_THREADS) = Z.to_nat NUM_THREADS
  /\ (forall y : Z,
        0 <= y < HEIGHT
        <-> exists d, d ∈ threadData HEIGHT NUM_THREADS /\ in_slice y d)
  /\ (forall (i j : nat) (d1 d2 : ThreadData) (y : Z),
        threadData HEIGHT NUM_THREADS !! i = Some d1 ->
        threadData HEIGHT NUM_THREADS !! j = Some d2 ->
        i <> j -> ~ (in_slice y d1 /\ in_slice y d2)).
Proof.
  apply (threadData_partition HEIGHT NUM_THREADS); reflexivity.
Defined.

(** ** The palette *)

Lemma forallb_seqZ (f : Z -> bool) (n : Z) :
  forallb f (seqZ 0 n) = true -> forall i, 0 <= i < n -> f i = true.
Proof.
  intros H i Hi. rewrite forallb_forall in H. apply H.
  apply list_elem_of_In, elem_of_seqZ. lia.
Qed.

Section PaletteFacts.
Variable MaxIter : Z.

Local Abbreviation entry := (palette_entry MaxIter).

(** The loop writes [palette_entry j] at every index [j] it visits and
    leaves the other cells alone. *)
Lemma palette_for_lookup (n : nat) :
  forall (i : Z) (pal pal' : list Z),
    0 <= i -> (Z.to_nat i + n <= length pal)%nat ->
    palette_for MaxIter n i pal = Some pal' ->
    length pal' = length pal
    /\ forall j : nat,
        pal' !! j = if decide (Z.to_nat i <= j < Z.to_nat i + n)%nat
                    then entry (Z.of_nat j) else pal !! j.
Proof.
  induction n as [|n IH]; intros i pal pal' Hi Hlen H; simpl in H.
  - inversion H; subst. split; [reflexivity|].
    intros j. destruct (decide _); [lia | reflexivity].
  - destruct (entry i) as [c|] eqn:Hc; [|discriminate].
    apply IH in H as [Hl Hlook]; try lia;
      [|rewrite length_insert; lia].
    rewrite length_insert in Hl. split; [exact Hl|].
    intros j. rewrite Hlook.
    replace (Z.to_nat (i + 1)) with (S (Z.to_nat i)) by lia.
    destruct (decide (S (Z.to_nat i) <= j < S (Z.to_nat i) + n)%nat).
    + destruct (decide _); [reflexivity | lia].
    + destruct (decide (j = Z.to_nat i)) as [-> | Hne].
      * rewrite list_lookup_insert_eq by lia.
        destruct (decide _); [|lia]. rewrite Z2Nat.id by lia. now rewrite Hc.
      * rewrite list_lookup_insert_ne by lia.
        destruct (decide _); [lia | reflexivity].
Qed.

(** The loop completes when every conversion it performs is defined. *)
Lemma palette_for_defined (n : nat) :
  forall (i : Z) (pal : list Z),
    (forall j, i <= j < i + Z.of_nat n -> is_Some (entry j)) ->
    is_Some (palette_for MaxIter n i pal).
Proof.
  induction n as [|n IH]; intros i pal H; simpl; [eauto|].
  destruct (H i ltac:(lia)) as [c ->]. apply IH. intros j Hj. apply H. lia.
Qed.

(** After [generateColorPalette] the array has [MaxIter + 1] entries and
    entry [i] is [palette_entry i]. *)
Lemma generateColorPalette_lookup (pal : list Z) :
  0 <= MaxIter ->
  generateColorPalette MaxIter = Some pal ->
  length pal = Z.to_nat (MaxIter + 1)
  /\ forall i, 0 <= i <= MaxIter -> pal !! Z.to_nat i = entry i.
Proof.
  intros Hmax H. unfold generateColorPalette in H.
  apply palette_for_lookup in H as [Hl Hlook];
    [|lia|rewrite length_replicate; simpl; lia].
  rewrite length_replicate in Hl. split; [exact Hl|].
  intros i Hi. rewrite Hlook. destruct (decide _); [|lia].
  now rewrite Z2Nat.id by lia.
Qed.

Lemma generateColorPalette_defined :
  (forall i, 0 <= i <= MaxIter -> is_Some (entry i)) ->
  is_Some (generateColorPalette MaxIter).
Proof.
  intros H. apply palette_for_defined. intros j Hj. apply H. lia.
Qed.

End PaletteFacts.

(** Every conversion of the generator is defined for the cap of the
    program, so the palette exists. *)
Lemma entry_truncates_all :
  forall i, 0 <= i <= MAX_ITER -> entry_truncates MAX_ITER i = true.
Proof.
  intros i Hi. apply (forallb_seqZ _ (MAX_ITER + 1)); [|lia].
  vm_compute. reflexivity.
Qed.

Lemma colorPalette_exists :
  exists pal, generateColorPalette MAX_ITER = Some pal.
Proof.
  apply generateColorPalette_defined. intros i Hi.
  pose proof (entry_truncates_all i Hi) as H. unfold entry_truncates in H.
  destruct (palette_entry MAX_ITER i); [eauto | discriminate].
Qed.


(** Reading the generated palette at the iteration count of a pixel stays
    inside the array. *)
Lemma pixel_color_defined (pal : list Z) (m : Mandelbrot) (x y : Z) :
  generateColorPalette MAX_ITER = Some pal ->
  exists (n c : Z),
    pixel_iter m x y = Some n
    /\ 0 <= n <= MAX_ITER
    /\ (Z.to_nat n < length pal)%nat
    /\ pal !! Z.to_nat n = Some c
    /\ pixel_color pal m x y = Some c.
Proof.
  intros Hpal.
  destruct (generateColorPalette_lookup MAX_ITER pal ltac:(discriminate) Hpal)
    as [Hlen _].
  destruct (escape_iter_bounded MAX_ITER (pixel_real m x) (pixel_imag m y)
              ltac:(discriminate)) as (n & Hn & Hb).
  assert (Hlt : (Z.to_nat n < length pal)%nat) by (rewrite Hlen; lia).
  destruct (lookup_lt_is_Some_2 pal _ Hlt) as [c Hc].
  exists n, c. unfold pixel_color, pixel_iter. rewrite Hn. auto.
Qed.

(** C4: the iteration count of every pixel under every view lies in
    [[0, MAX_ITER]], and [colorPalette[iter]] reads one of the
    [MAX_ITER + 1] entries of the palette. *)
Theorem pixel_iter_within_palette :
  exists pal : list Z,
    generateColorPalette MAX_ITER = Some pal
    /\ length pal = Z.to_nat (MAX_ITER + 1)
    /\ forall (m : Mandelbrot) (x y : Z),
        exists (n c : Z),
          pixel_iter m x y = Some n
          /\ 0 <= n <= MAX_ITER
          /\ (Z.to_nat n < length pal)%nat
          /\ pal !! Z.to_nat n = Some c
          /\ pixel_color pal m x y = Some c.
Proof.
  destruct colorPalette_exists as [pal Hpal]. exists pal.
  split; [exact Hpal|]. split.
  - apply (generateColorPalette_lookup MAX_ITER pal); [discriminate|exact Hpal].
  - intros m x y. apply pixel_color_defined. exact Hpal.
Qed.

(** C5 as stated fails: entry 100 of the palette has green channel 30, the
    integer part of 30.98..., where the formula with [round] gives 31. *)
Lemma palette_entry_100_not_rounded :
  exists pal : list Z,
    generateColorPalette MAX_ITER = Some pal
    /\ pal !! 100%nat = Some 0xFF021E9E
    /\ spec_palette_entry MAX_ITER 100 = Some 0xFF021F9E
    /\ pal !! 100%nat <> spec_palette_entry MAX_ITER 100.
Proof.
  destruct colorPalette_exists as [pal Hpal]. exists pal.
  destruct (generateColorPalette_lookup MAX_ITER pal ltac:(discriminate) Hpal)
    as [_ Hlook].
  specialize (Hlook 100 ltac:(split; discriminate)).
  change (Z.to_nat 100) with 100%nat in Hlook. rewrite Hlook.
  split; [exact Hpal|]. repeat split; try (vm_compute; reflexivity).
  vm_compute. discriminate.
Qed.

(** C5, amended: for every [i] in [[0, MAX_ITER]], entry [i] of the palette
    is [0xFF<<24 | r<<16 | g<<8 | b] where [r], [g], [b] are the integer
    parts (not the roundings) of the three channel values at
    [t = i / MAX_ITER]. *)
Theorem palette_entry_truncated :
  exists pal : list Z,
    generateColorPalette MAX_ITER = Some pal
    /\ forall i, 0 <= i <= MAX_ITER ->
         exists r g b : Z,
           trunc_double (red_value (palette_t MAX_ITER i)) = Some r
           /\ trunc_double (green_value (palette_t MAX_ITER i)) = Some g
           /\ trunc_double (blue_value (palette_t MAX_ITER i)) = Some b
           /\ 0 <= r <= 255 /\ 0 <= g <= 255 /\ 0 <= b <= 255
           /\ pal !! Z.to_nat i
              = Some (255 * 2 ^ 24 + r * 2 ^ 16 + g * 2 ^ 8 + b).
Proof.
  destruct colorPalette_exists as [pal Hpal]. exists pal.
  destruct (generateColorPalette_lookup MAX_ITER pal ltac:(discriminate) Hpal)
    as [_ Hlook].
  split; [exact Hpal|]. intros i Hi. rewrite (Hlook i Hi).
  pose proof (entry_truncates_all i Hi) as H. unfold entry_truncates in H.
  destruct (palette_entry MAX_ITER i) as [c|]; [|discriminate].
  destruct (trunc_double (red_value _)) as [r|]; [|discriminate].
  destruct (trunc_double (green_value _)) as [g|]; [|discriminate].
  destruct (trunc_double (blue_value _)) as [b|]; [|discriminate].
  apply andb_true_iff in H as [Hc Hr]. apply Z.eqb_eq in Hc.
  cbn [forallb] in Hr. exists r, g, b. rewrite Hc.
  repeat split; try reflexivity; lia.
Qed.

(** C10: for every [i] in [[0, MAX_ITER]] the three channel values lie in
    [[0, 255]] and their conversions to [uint8_t] are defined and lose
    nothing but the fraction. *)
Theorem palette_channels_fit (i : Z) :
  0 <= i <= MAX_ITER ->
  fits_uint8 (red_value (palette_t MAX_ITER i))
  /\ fits_uint8 (green_value (palette_t MAX_ITER i))
  /\ fits_uint8 (blue_value (palette_t MAX_ITER i)).
Proof.
  intros Hi.
  assert (H : channels_fit MAX_ITER i = true).
  { apply (forallb_seqZ _ (MAX_ITER + 1)); [|lia]. vm_compute. reflexivity. }
  unfold channels_fit in H. cbn [forallb] in H.
  assert (Hone : forall v,
             channel_in_range v
             && match trunc_double v, uint8_of_double v with
                | Some n, Some n' => (n =? n') && (0 <=? n) && (n <=? 255)
                | _, _ => false
                end = true -> fits_uint8 v).
  { intros v Hv. apply andb_true_iff in Hv as [Hr Hv]. split; [exact Hr|].
    destruct (trunc_double v) as [n|]; [|discriminate].
    destruct (uint8_of_double v) as [n'|]; [|discriminate].
    exists n. assert (n = n') by lia. subst. split; [reflexivity|].
    split; [lia | reflexivity]. }
  repeat (apply andb_true_iff in H as [? H]). auto.
Qed.

Lemma palette_channels_fit_witness :
  fits_uint8 (red_value (palette_t MAX_ITER 750))
  /\ fits_uint8 (green_value (palette_t MAX_ITER 750))
  /\ fits_uint8 (blue_value (palette_t MAX_ITER 750)).
Proof. apply (palette_channels_fit 750). split; discriminate. Defined.

(** ** The end-to-end scenario: the initial view *)

(** C6 as stated fails: under the initial view pixel [(0, 0)] has real part
    [-1.5], which is a whole unit away from [-2.5]. *)
Lemma pixel_0_0_real_is_not_minus_2_5 :
  pixel_real initial_view 0 = (-1.5)%float
  /\ (abs (pixel_real initial_view 0 - (-2.5)) <? 1)%float = false.
Proof. split; vm_compute; reflexivity. Qed.

(** C6, amended: under the initial view, pixel [(400, 400)] maps to
    [(-0.5, 0.0)], no point of its orbit escapes within [MAX_ITER]
    iterations, its iteration count is [1000] and its colour is
    [colorPalette[1000]]; pixel [(0, 0)] maps to [(-1.5, -1.0)] and has
    iteration count [2]. *)
Theorem initial_view_scenario :
  pixel_real initial_view 400 = (-0.5)%float
  /\ pixel_imag initial_view 400 = 0%float
  /\ pixel_iter initial_view 400 400 = Some 1000
  /\ (forall k, 0 <= k < 1000 ->
        escaped (orbit (-0.5)%float 0%float (Z.to_nat k)) = false)
  /\ (exists pal c,
        generateColorPalette MAX_ITER = Some pal
        /\ pal !! 1000%nat = Some c
        /\ pixel_color pal initial_view 400 400 = Some c)
  /\ pixel_real initial_view 0 = (-1.5)%float
  /\ pixel_imag initial_view 0 = (-1)%float
  /\ pixel_iter initial_view 0 0 = Some 2.
Proof.
  assert (Hit : pixel_iter initial_view 400 400 = Some 1000)
    by (vm_compute; reflexivity).
  split; [vm_compute; reflexivity|]. split; [vm_compute; reflexivity|].
  split; [exact Hit|]. split.
  - intros k Hk.
    apply (escape_iter_orbit_before MAX_ITER (-0.5)%float 0%float 1000);
      [vm_compute; reflexivity | exact Hk].
  - split.
    + destruct colorPalette_exists as [pal Hpal].
      destruct (pixel_color_defined pal initial_view 400 400 Hpal)
        as (n & c & Hn & _ & _ & Hc & Hcol).
      assert (n = 1000) as -> by congruence.
      exists pal, c. auto.
    + repeat split; vm_compute; reflexivity.
Qed.

(** ** Binary64 arithmetic: rounding and its error *)

(** powers of two *)
Lemma pow2_pos (e : Z) : (0 < pow2 e)%R.
Proof. apply powerRZ_lt. lra. Qed.

Lemma pow2_add (a b : Z) : pow2 (a + b) = (pow2 a * pow2 b)%R.
Proof. apply powerRZ_add. lra. Qed.

Lemma pow2_0 : pow2 0 = 1%R.
Proof. reflexivity. Qed.

Lemma pow2_1 : pow2 1 = 2%R.
Proof. unfold pow2. simpl. lra. Qed.

Lemma pow2_2 : pow2 2 = 4%R.
Proof. unfold pow2. simpl. lra. Qed.

Lemma pow2_succ (e : Z) : pow2 (e + 1) = (2 * pow2 e)%R.
Proof. rewrite pow2_add, pow2_1. lra. Qed.

Lemma pow2_pred (e : Z) : pow2 (e - 1) = (pow2 e / 2)%R.
Proof.
  replace e with ((e - 1) + 1) at 2 by lia. rewrite pow2_succ. lra.
Qed.

Lemma pow2_opp (e : Z) : pow2 (- e) = (/ pow2 e)%R.
Proof. apply powerRZ_neg'. Qed.

Lemma pow2_IZR (n : Z) : 0 <= n -> pow2 n = IZR (2 ^ n).
Proof.
  intros Hn. unfold pow2. rewrite <- (Z2Nat.id n Hn) at 1.
  rewrite <- pow_powerRZ, pow_IZR. now rewrite Z2Nat.id.
Qed.

Lemma pow2_le (a b : Z) : a <= b -> (pow2 a <= pow2 b)%R.
Proof.
  intros H. replace b with (a + (b - a)) by lia. rewrite pow2_add.
  rewrite (pow2_IZR (b - a)) by lia.
  assert (1 <= 2 ^ (b - a)) by (apply (Z.pow_le_mono_r 2 0); lia).
  apply IZR_le in H0. pose proof (pow2_pos a). nra.
Qed.

Lemma pow2_lt (a b : Z) : a < b -> (pow2 a < pow2 b)%R.
Proof.
  intros H. replace b with (a + (b - a)) by lia. rewrite pow2_add.
  rewrite (pow2_IZR (b - a)) by lia.
  assert (2 <= 2 ^ (b - a)) by (apply (Z.pow_le_mono_r 2 1); lia).
  apply IZR_le in H0. pose proof (pow2_pos a). nra.
Qed.

(** digits *)
Lemma digits2_pos_size (p : positive) : digits2_pos p = Pos.size p.
Proof. induction p; simpl; congruence. Qed.

Lemma Zdigits2_bounds (m : Z) :
  0 < m -> 2 ^ (Zdigits2 m - 1) <= m < 2 ^ Zdigits2 m.
Proof.
  destruct m as [|p|p]; try lia. intros _. simpl Zdigits2.
  rewrite digits2_pos_size.
  pose proof (Pos.size_gt p) as Hgt. pose proof (Pos.size_le p) as Hle.
  assert (H2 : Z.pos (2 ^ Pos.size p) = 2 ^ Z.pos (Pos.size p))
    by (rewrite Pos2Z.inj_pow; reflexivity).
  split.
  - assert (2 ^ Z.pos (Pos.size p) <= 2 * Z.pos p) by lia.
    replace (Z.pos (Pos.size p)) with (Z.pos (Pos.size p) - 1 + 1) in H by lia.
    rewrite Z.pow_add_r in H by lia. lia.
  - lia.
Qed.

Lemma Zdigits2_nonneg (m : Z) : 0 <= Zdigits2 m.
Proof. destruct m; simpl; lia. Qed.

Lemma Zdigits2_pos (m : Z) : 0 < m -> 0 < Zdigits2 m.
Proof. destruct m; simpl; lia. Qed.

Lemma Zdigits2_ge (m k : Z) : 0 < m -> 2 ^ (k - 1) <= m -> k <= Zdigits2 m.
Proof.
  intros Hm Hk. pose proof (Zdigits2_bounds m Hm) as [_ Hlt].
  pose proof (Zdigits2_pos m Hm).
  destruct (Z_lt_le_dec (Zdigits2 m) k) as [Hc|]; [|lia].
  assert (2 ^ Zdigits2 m <= 2 ^ (k - 1)) by (apply Z.pow_le_mono_r; lia). lia.
Qed.

Lemma Zdigits2_le (m k : Z) :
  0 <= m -> 0 <= k -> m < 2 ^ k -> Zdigits2 m <= k.
Proof.
  intros Hm0 Hk Hlt. destruct (Z_lt_le_dec 0 m) as [Hm|Hm].
  - pose proof (Zdigits2_bounds m Hm) as [Hle _].
    destruct (Z_lt_le_dec k (Zdigits2 m)) as [Hc|]; [|lia].
    assert (2 ^ k <= 2 ^ (Zdigits2 m - 1)) by (apply Z.pow_le_mono_r; lia). lia.
  - assert (m = 0) as -> by lia. simpl. lia.
Qed.

Lemma loc_of_shr_record_of_loc (m : Z) (l : location) :
  loc_of_shr_record (shr_record_of_loc m l) = l
  /\ shr_m (shr_record_of_loc m l) = m.
Proof. destruct l as [|[]]; split; reflexivity. Qed.

Lemma shr_1_located (mrs : shr_record) (e : Z) (x : R) :
  0 <= shr_m mrs ->
  located (shr_m mrs) e (loc_of_shr_record mrs) x ->
  located (shr_m (shr_1 mrs)) (e + 1) (loc_of_shr_record (shr_1 mrs)) x
  /\ shr_m (shr_1 mrs) = shr_m mrs / 2.
Proof.
  destruct mrs as [m r s]. cbn [shr_m]. intros Hm (rho & Hx & Hrho).
  assert (Hdiv : shr_m (shr_1 (Build_shr_record m r s)) = m / 2).
  { rewrite <- Z.div2_div. destruct m as [|[p|p|]|p]; try lia; reflexivity. }
  split; [|exact Hdiv]. rewrite Hdiv.
  assert (Hloc : loc_of_shr_record (shr_1 (Build_shr_record m r s))
                 = match Z.odd m, r || s with
                   | false, false => loc_Exact
                   | false, true => loc_Inexact Lt
                   | true, false => loc_Inexact Eq
                   | true, true => loc_Inexact Gt
                   end).
  { destruct m as [|[p|p|]|p]; try lia; destruct r, s; reflexivity. }
  rewrite Hloc. clear Hloc Hdiv.
  assert (Hrho' : (0 <= rho < 1)%R /\ (r || s = false <-> rho = 0%R)).
  { destruct r, s; cbn in Hrho |- *; split; try lra;
      split; intros; try discriminate; try lra; auto. }
  destruct Hrho' as [Hr01 Hr0].
  set (b := if Z.odd m then 1%R else 0%R).
  assert (Hm2 : IZR m = (2 * IZR (m / 2) + b)%R).
  { unfold b. rewrite (Zdiv2_odd_eqn m) at 1. rewrite Z.div2_div.
    rewrite plus_IZR, mult_IZR. destruct (Z.odd m); simpl; lra. }
  exists ((b + rho) / 2)%R. split.
  - rewrite Hx, pow2_succ, Hm2. field.
  - unfold b. destruct (Z.odd m), (r || s) eqn:Hrs.
    + assert (rho <> 0%R) by (intros H0; apply Hr0 in H0; discriminate). lra.
    + assert (rho = 0%R) by (apply Hr0; reflexivity). lra.
    + assert (rho <> 0%R) by (intros H0; apply Hr0 in H0; discriminate). lra.
    + assert (rho = 0%R) by (apply Hr0; reflexivity). lra.
Qed.

Lemma iter_shr_1_located (p : positive) :
  forall (mrs : shr_record) (e : Z) (x : R),
    0 <= shr_m mrs ->
    located (shr_m mrs) e (loc_of_shr_record mrs) x ->
    located (shr_m (SpecFloat.iter_pos shr_1 p mrs)) (e + Z.pos p)
      (loc_of_shr_record (SpecFloat.iter_pos shr_1 p mrs)) x
    /\ shr_m (SpecFloat.iter_pos shr_1 p mrs) = shr_m mrs / 2 ^ Z.pos p.
Proof.
  induction p as [p IH | p IH |]; intros mrs e x Hm Hloc; cbn [SpecFloat.iter_pos].
  - destruct (shr_1_located mrs e x Hm Hloc) as [H1 E1].
    assert (Hm1 : 0 <= shr_m (shr_1 mrs)) by (rewrite E1; apply Z.div_pos; lia).
    destruct (IH _ _ _ Hm1 H1) as [H2 E2].
    assert (Hm2 : 0 <= shr_m (SpecFloat.iter_pos shr_1 p (shr_1 mrs)))
      by (rewrite E2; apply Z.div_pos; lia).
    destruct (IH _ _ _ Hm2 H2) as [H3 E3].
    split.
    + replace (e + Z.pos p~1) with (e + 1 + Z.pos p + Z.pos p) by lia. exact H3.
    + rewrite E3, E2, E1. rewrite !Z.div_div by lia. f_equal.
      rewrite Pos2Z.inj_xI.
      rewrite Z.pow_add_r, Z.pow_mul_r, Z.pow_2_r by lia.
      rewrite Z.pow_1_r. rewrite <- Z.pow_mul_l.
      replace (2 * 2) with (2 ^ 2) by reflexivity.
      rewrite <- Z.pow_mul_r by lia. rewrite Z.mul_comm.
      rewrite Z.pow_mul_r by lia. rewrite Z.pow_2_r. lia.
  - destruct (IH _ _ _ Hm Hloc) as [H2 E2].
    assert (Hm2 : 0 <= shr_m (SpecFloat.iter_pos shr_1 p mrs))
      by (rewrite E2; apply Z.div_pos; lia).
    destruct (IH _ _ _ Hm2 H2) as [H3 E3].
    split.
    + replace (e + Z.pos p~0) with (e + Z.pos p + Z.pos p) by lia. exact H3.
    + rewrite E3, E2. rewrite !Z.div_div by lia. f_equal.
      rewrite Pos2Z.inj_xO. rewrite <- Z.pow_add_r by lia. f_equal. lia.
  - destruct (shr_1_located mrs e x Hm Hloc) as [H1 E1]. split; [exact H1|].
    rewrite E1. reflexivity.
Qed.


Lemma located_exact (m e : Z) : located m e loc_Exact (IZR m * pow2 e).
Proof. exists 0%R. split; [ring | reflexivity]. Qed.

Lemma located_exact_inv (m e : Z) (l : location) :
  located m e l (IZR m * pow2 e) -> l = loc_Exact.
Proof.
  intros (rho & Hx & Hrho). pose proof (pow2_pos e).
  assert (rho = 0%R) by nra. subst rho.
  destruct l as [|[]]; try reflexivity; lra.
Qed.

Lemma located_lower (m e : Z) (l : location) (x : R) :
  located m e l x -> (IZR m * pow2 e <= x < (IZR m + 1) * pow2 e)%R.
Proof.
  intros (rho & -> & H). pose proof (pow2_pos e).
  assert (0 <= rho < 1)%R by (destruct l as [|[]]; lra). nra.
Qed.

Lemma shr_located (m e n : Z) (l : location) (x : R) :
  0 <= m -> located m e l x ->
  let r := shr (shr_record_of_loc m l) e n in
  located (shr_m (fst r)) (snd r) (loc_of_shr_record (fst r)) x
  /\ shr_m (fst r) = m / 2 ^ Z.max 0 n
  /\ snd r = e + Z.max 0 n.
Proof.
  intros Hm Hloc. destruct (loc_of_shr_record_of_loc m l) as [El Em].
  destruct n as [|p|p]; cbn [shr fst snd].
  - rewrite El, Em. change (Z.max 0 0) with 0. rewrite Z.pow_0_r, Z.div_1_r.
    repeat split; [exact Hloc | lia].
  - destruct (iter_shr_1_located p (shr_record_of_loc m l) e x) as [H1 H2].
    + now rewrite Em.
    + now rewrite El, Em.
    + rewrite Em in H2. replace (Z.max 0 (Z.pos p)) with (Z.pos p) by lia.
      auto.
  - rewrite El, Em. replace (Z.max 0 (Z.neg p)) with 0 by lia.
    rewrite Z.pow_0_r, Z.div_1_r. repeat split; [exact Hloc | lia].
Qed.

Lemma round_nearest_even_located (m e : Z) (l : location) (x : R) :
  located m e l x ->
  let m' := round_nearest_even m l in
  m <= m' <= m + 1
  /\ (Rabs (IZR m' * pow2 e - x) <= pow2 e / 2)%R
  /\ (l = loc_Exact -> (IZR m' * pow2 e)%R = x).
Proof.
  intros (rho & -> & Hrho). pose proof (pow2_pos e) as Hp.
  assert (Hm1 : IZR (m + 1) = (IZR m + 1)%R) by (rewrite plus_IZR; reflexivity).
  destruct l as [|[]]; cbn [round_nearest_even].
  - subst rho. split; [lia|]. split; [|intros _; ring].
    replace (IZR m * pow2 e - (IZR m + 0) * pow2 e)%R with 0%R by ring.
    rewrite Rabs_R0. lra.
  - subst rho. destruct (Z.even m).
    + split; [lia|]. split; [|discriminate].
      replace (IZR m * pow2 e - (IZR m + 1 / 2) * pow2 e)%R
        with (- (pow2 e / 2))%R by field.
      rewrite Rabs_Ropp, Rabs_pos_eq; lra.
    + split; [lia|]. split; [|discriminate]. rewrite Hm1.
      replace ((IZR m + 1) * pow2 e - (IZR m + 1 / 2) * pow2 e)%R
        with (pow2 e / 2)%R by field.
      rewrite Rabs_pos_eq; lra.
  - split; [lia|]. split; [|discriminate].
    apply Rabs_le. nra.
  - split; [lia|]. split; [|discriminate]. rewrite Hm1.
    apply Rabs_le. nra.
Qed.

Section Round.
Variables prec emax : Z.
Hypothesis Hprec : 1 < prec.
Hypothesis Hemax : prec < emax.

Local Abbreviation emin := (SpecFloat.emin prec emax).
Local Abbreviation fexp := (SpecFloat.fexp prec emax).

Lemma fexp_ge_emin (e : Z) : emin <= fexp e.
Proof. unfold SpecFloat.fexp. lia. Qed.

Lemma Zdigits2_pow2 (k : Z) : 0 <= k -> Zdigits2 (2 ^ k) = k + 1.
Proof.
  intros Hk. assert (0 < 2 ^ k) by (apply Z.pow_pos_nonneg; lia).
  apply Z.le_antisymm.
  - apply Zdigits2_le; try lia. rewrite Z.pow_add_r by lia. lia.
  - apply Zdigits2_ge; try lia. replace (k + 1 - 1) with k by lia. lia.
Qed.

(** The result of rounding [(mx, ex, lx)], which locates [x], as a mantissa
    and an exponent. *)
Lemma binary_round_aux_spec (sx : bool) (mx ex : Z) (lx : location) (x : R) :
  0 <= mx -> located mx ex lx x ->
  ex <= fexp (Zdigits2 mx + ex) ->
  let e1 := fexp (Zdigits2 mx + ex) in
  exists m2 e2 : Z,
    0 <= m2 < 2 ^ prec /\ e1 <= e2 <= e1 + 1
    /\ (Rabs (IZR m2 * pow2 e2 - x) <= pow2 e1 / 2)%R
    /\ (lx = loc_Exact -> ex = e1 -> (IZR m2 * pow2 e2)%R = x)
    /\ (emin < e1 -> 2 ^ (prec - 1) <= m2 /\ (pow2 (e1 + prec - 1) <= x)%R)
    /\ binary_round_aux prec emax sx mx ex lx
       = match m2 with
         | Z0 => S754_zero sx
         | Z.pos m => if e2 <=? emax - prec then S754_finite sx m e2
                      else S754_infinity sx
         | Z.neg _ => S754_nan
         end.
Proof.
  intros Hmx Hloc Hex e1.
  assert (He1 : emin <= e1) by apply fexp_ge_emin.
  set (d := Zdigits2 mx) in *.
  assert (Hd0 : 0 <= d) by apply Zdigits2_nonneg.
  assert (Hfe : e1 = Z.max (d + ex - prec) emin) by reflexivity.
  set (n := e1 - ex).
  (* first shift *)
  unfold binary_round_aux, shr_fexp. fold d. fold e1. fold n.
  pose proof (shr_located mx ex n lx x Hmx Hloc) as H1. cbv zeta in H1.
  destruct (shr (shr_record_of_loc mx lx) ex n) as [mrs1 e1'].
  cbn [fst snd] in H1. destruct H1 as (Hloc1 & Em1 & Ee1).
  replace (Z.max 0 n) with n in * by lia.
  assert (He1eq : e1' = e1) by lia. rewrite He1eq in *. clear He1eq Ee1 e1'.
  set (m1 := shr_m mrs1) in *.
  assert (Hpn : 0 < 2 ^ n) by (apply Z.pow_pos_nonneg; lia).
  assert (Hm1 : 0 <= m1 < 2 ^ prec).
  { rewrite Em1. split; [apply Z.div_pos; lia|].
    apply Z.div_lt_upper_bound; [lia|].
    rewrite <- Z.pow_add_r by lia.
    destruct (Z.eq_dec mx 0) as [-> | Hne].
    - apply Z.pow_pos_nonneg; lia.
    - pose proof (Zdigits2_bounds mx ltac:(lia)) as [_ Hlt]. fold d in Hlt.
      assert (2 ^ d <= 2 ^ (n + prec)) by (apply Z.pow_le_mono_r; lia). lia. }
  assert (Hnormal : emin < e1 -> 2 ^ (prec - 1) <= m1
                                /\ (pow2 (e1 + prec - 1) <= x)%R).
  { intros Hn. assert (Hdn : d = n + prec) by lia.
    assert (Hmx0 : 0 < mx).
    { destruct (Z.eq_dec mx 0) as [E|]; [|lia]. subst mx.
      unfold d in Hdn. simpl in Hdn. lia. }
    pose proof (Zdigits2_bounds mx Hmx0) as [Hge _]. fold d in Hge.
    split.
    - rewrite Em1. apply Z.div_le_lower_bound; [lia|].
      rewrite <- Z.pow_add_r by lia.
      replace (n + (prec - 1)) with (d - 1) by lia. exact Hge.
    - apply located_lower in Hloc. destruct Hloc as [Hlo _].
      eapply Rle_trans; [|exact Hlo].
      replace (e1 + prec - 1) with ((d - 1) + ex) by lia.
      rewrite pow2_add. rewrite (pow2_IZR (d - 1)) by lia.
      apply Rmult_le_compat_r; [apply Rlt_le, pow2_pos|].
      now apply IZR_le. }
  (* rounding *)
  destruct (round_nearest_even_located m1 e1 _ x Hloc1) as (Hr1 & Hr2 & Hr3).
  set (m' := round_nearest_even m1 (loc_of_shr_record mrs1)) in *.
  assert (Hexact : lx = loc_Exact -> ex = e1 -> (IZR m' * pow2 e1)%R = x).
  { intros -> Heq. apply Hr3.
    assert (Hn0 : n = 0) by (unfold n; lia).
    rewrite Hn0, Z.pow_0_r, Z.div_1_r in Em1.
    destruct Hloc as (rho & Hx & Hrho). cbn in Hrho. subst rho.
    apply (located_exact_inv m1 e1).
    assert (Hxe : x = (IZR m1 * pow2 e1)%R).
    { rewrite Hx, Em1. rewrite <- Heq. ring. }
    rewrite <- Hxe. exact Hloc1. }
  (* second shift *)
  pose proof (shr_located m' e1 (fexp (Zdigits2 m' + e1) - e1) loc_Exact
                (IZR m' * pow2 e1) ltac:(lia) (located_exact m' e1)) as H2.
  cbv zeta in H2.
  destruct (shr (shr_record_of_loc m' loc_Exact) e1
              (fexp (Zdigits2 m' + e1) - e1)) as [mrs2 e2].
  cbn [fst snd] in H2. destruct H2 as (_ & Em2 & Ee2).
  assert (Hcase : (shr_m mrs2 = m' /\ e2 = e1 /\ m' < 2 ^ prec)
                  \/ (shr_m mrs2 = 2 ^ (prec - 1) /\ e2 = e1 + 1
                      /\ m' = 2 ^ prec)).
  { destruct (Z_lt_le_dec m' (2 ^ prec)) as [Hlt | Hge].
    - left. assert (Zdigits2 m' <= prec) by (apply Zdigits2_le; lia).
      assert (fexp (Zdigits2 m' + e1) <= e1) by (unfold SpecFloat.fexp; lia).
      replace (Z.max 0 (fexp (Zdigits2 m' + e1) - e1)) with 0 in * by lia.
      rewrite Z.pow_0_r, Z.div_1_r in Em2. lia.
    - right. assert (Hm' : m' = 2 ^ prec) by lia.
      assert (Hd' : Zdigits2 m' = prec + 1)
        by (rewrite Hm'; apply Zdigits2_pow2; lia).
      assert (fexp (Zdigits2 m' + e1) = e1 + 1)
        by (unfold SpecFloat.fexp; lia).
      replace (Z.max 0 (fexp (Zdigits2 m' + e1) - e1)) with 1 in * by lia.
      rewrite Hm' in Em2. rewrite Z.pow_1_r in Em2.
      replace prec with (prec - 1 + 1) in Em2 at 1 by lia.
      rewrite Z.pow_add_r, Z.pow_1_r, Z.div_mul in Em2 by lia. lia. }
  assert (Hval : (IZR (shr_m mrs2) * pow2 e2 = IZR m' * pow2 e1)%R).
  { destruct Hcase as [(-> & -> & _) | (-> & -> & ->)]; [reflexivity|].
    rewrite pow2_succ. rewrite <- (pow2_IZR (prec - 1)), <- (pow2_IZR prec) by lia.
    replace prec with (prec - 1 + 1) at 2 by lia. rewrite pow2_succ. ring. }
  assert (Hp1 : 0 < 2 ^ (prec - 1)) by (apply Z.pow_pos_nonneg; lia).
  assert (Hpp : 2 ^ (prec - 1) < 2 ^ prec) by (apply Z.pow_lt_mono_r; lia).
  exists (shr_m mrs2), e2. rewrite Hval.
  split; [destruct Hcase as [(-> & _ & ?) | (-> & _)]; lia|].
  split; [destruct Hcase as [(_ & -> & _) | (_ & -> & _)]; lia|].
  split; [exact Hr2|]. split; [exact Hexact|].
  split; [|reflexivity].
  intros Hn. destruct (Hnormal Hn) as [Hm1n Hxn]. split; [|exact Hxn].
  destruct Hcase as [(-> & _) | (-> & _)]; lia.
Qed.


Lemma emin_facts : emin < 0 /\ emin + 1 <= emax - prec.
Proof. unfold SpecFloat.emin. lia. Qed.

(** The standard model of rounding: relative error [2^-prec] or, for
    results below the normal range, absolute error [2^(emin-1)]; an exact
    input that is a multiple of [2^emin] suffers no absolute error. *)
Lemma binary_round_aux_model (sx : bool) (mx ex : Z) (lx : location) (x : R) :
  0 <= mx -> located mx ex lx x ->
  ex <= fexp (Zdigits2 mx + ex) ->
  let r := binary_round_aux prec emax sx mx ex lx in
  exists v : R,
    (0 <= v)%R
    /\ (Rabs (v - x) <= pow2 (- prec) * x + pow2 (emin - 1))%R
    /\ (lx = loc_Exact -> emin <= ex -> (Rabs (v - x) <= pow2 (- prec) * x)%R)
    /\ ((r = S754_infinity sx /\ (pow2 emax <= v)%R)
        \/ (SF_finite r = true /\ SF2R r = (sign_R sx * v)%R)).
Proof.
  intros Hmx Hloc Hex r.
  destruct (binary_round_aux_spec sx mx ex lx x Hmx Hloc Hex)
    as (m2 & e2 & Hm2 & He2 & Herr & Hexact & Hnormal & Hr).
  fold r in Hr. set (e1 := fexp (Zdigits2 mx + ex)) in *.
  pose proof emin_facts as [Hemin0 Hemin1].
  assert (He1 : emin <= e1) by apply fexp_ge_emin.
  assert (Hx0 : (0 <= x)%R).
  { apply located_lower in Hloc. destruct Hloc as [Hlo _].
    pose proof (pow2_pos ex). apply IZR_le in Hmx.
    eapply Rle_trans; [|exact Hlo]. apply Rmult_le_pos; lra. }
  assert (Hu : (0 < pow2 (- prec))%R) by apply pow2_pos.
  assert (Heta : (0 < pow2 (emin - 1))%R) by apply pow2_pos.
  assert (Hrel : emin < e1 -> (pow2 e1 / 2 <= pow2 (- prec) * x)%R).
  { intros Hn. destruct (Hnormal Hn) as [_ Hxn].
    rewrite <- pow2_pred.
    replace (e1 - 1) with (- prec + (e1 + prec - 1)) by lia.
    rewrite pow2_add. apply Rmult_le_compat_l; lra. }
  exists (IZR m2 * pow2 e2)%R. split.
  { apply Rmult_le_pos; [apply IZR_le; lia | apply Rlt_le, pow2_pos]. }
  split.
  { destruct (Z_lt_le_dec emin e1) as [Hn | Hs].
    - specialize (Hrel Hn). lra.
    - assert (e1 = emin) as E by lia. rewrite E in Herr.
      rewrite <- pow2_pred in Herr.
      assert (0 <= pow2 (- prec) * x)%R by (apply Rmult_le_pos; lra). lra. }
  split.
  { intros Hlx Hge. destruct (Z_lt_le_dec emin e1) as [Hn | Hs].
    - specialize (Hrel Hn). lra.
    - assert (ex = e1) as E by lia. rewrite (Hexact Hlx E).
      replace (x - x)%R with 0%R by ring. rewrite Rabs_R0.
      apply Rmult_le_pos; lra. }
  destruct m2 as [|m|m]; [| |lia].
  - right. rewrite Hr. split; [reflexivity|]. simpl. ring.
  - destruct (Z.leb_spec e2 (emax - prec)) as [Hle | Hgt].
    + right. rewrite Hr. split; [reflexivity|].
      unfold SF2R, sign_R. destruct sx; ring.
    + left. split; [exact Hr|].
      destruct (Hnormal ltac:(lia)) as [Hmn _].
      replace emax with ((prec - 1) + (emax - prec + 1)) by lia.
      rewrite pow2_add, (pow2_IZR (prec - 1)) by lia.
      apply Rmult_le_compat; try (apply Rlt_le, pow2_pos).
      * apply IZR_le. apply Z.lt_le_incl, Z.pow_pos_nonneg; lia.
      * now apply IZR_le.
      * apply pow2_le. lia.
Qed.

End Round.

Lemma sign_R_xorb (a b : bool) : sign_R (xorb a b) = (sign_R a * sign_R b)%R.
Proof. destruct a, b; unfold sign_R; simpl; lra. Qed.

Lemma sign_R_sq (s : bool) : (sign_R s * sign_R s)%R = 1%R.
Proof. destruct s; unfold sign_R; lra. Qed.

Lemma Rabs_sign_R (s : bool) (t : R) : Rabs (sign_R s * t) = Rabs t.
Proof.
  destruct s; unfold sign_R.
  - replace (-1 * t)%R with (- t)%R by ring. apply Rabs_Ropp.
  - now rewrite Rmult_1_l.
Qed.

Lemma SF2R_finite (s : bool) (m : positive) (e : Z) :
  SF2R (S754_finite s m e) = (sign_R s * (IZR (Z.pos m) * pow2 e))%R.
Proof. unfold SF2R, sign_R. destruct s; ring. Qed.

Lemma Zdigits2_mul_ge (a b : Z) :
  0 < a -> 0 < b -> Zdigits2 a + Zdigits2 b - 1 <= Zdigits2 (a * b).
Proof.
  intros Ha Hb. pose proof (Zdigits2_bounds a Ha) as [Hal _].
  pose proof (Zdigits2_bounds b Hb) as [Hbl _].
  pose proof (Zdigits2_pos a Ha). pose proof (Zdigits2_pos b Hb).
  apply Zdigits2_ge; [lia|].
  replace (Zdigits2 a + Zdigits2 b - 1 - 1)
    with ((Zdigits2 a - 1) + (Zdigits2 b - 1)) by lia.
  rewrite Z.pow_add_r by lia.
  apply Z.mul_le_mono_nonneg; try lia;
    apply Z.lt_le_incl, Z.pow_pos_nonneg; lia.
Qed.

Section Ops.
Variables prec emax : Z.
Hypothesis Hprec : 1 < prec.
Hypothesis Hemax : prec < emax.

Local Abbreviation emin := (SpecFloat.emin prec emax).
Local Abbreviation fexp := (SpecFloat.fexp prec emax).
Local Abbreviation valid := (SpecFloat.valid_binary prec emax).

Lemma bounded_canonical (m : positive) (e : Z) :
  SpecFloat.bounded prec emax m e = true ->
  emin <= e <= emax - prec
  /\ 1 <= Zdigits2 (Z.pos m) <= prec
  /\ (Zdigits2 (Z.pos m) = prec \/ e = emin).
Proof.
  unfold SpecFloat.bounded, canonical_mantissa. intros H.
  apply andb_true_iff in H as [Hc Hb]. apply Z.eqb_eq in Hc.
  apply Z.leb_le in Hb. change (Z.pos (digits2_pos m)) with (Zdigits2 (Z.pos m)) in Hc.
  pose proof (Zdigits2_pos (Z.pos m) ltac:(lia)).
  unfold SpecFloat.fexp in Hc. unfold SpecFloat.emin in *. lia.
Qed.

(** A finite number is smaller than [2^emax]. *)
Lemma valid_finite_lt (X : spec_float) :
  valid X = true -> (Rabs (SF2R X) < pow2 emax)%R.
Proof.
  destruct X as [s|s| |s m e]; simpl;
    try (intros _; rewrite Rabs_R0; apply pow2_pos).
  intros H. apply bounded_canonical in H as (He & Hd & _).
  change (if s then (- (IZR (Z.pos m) * pow2 e))%R else (IZR (Z.pos m) * pow2 e)%R)
    with (SF2R (S754_finite s m e)).
  rewrite SF2R_finite, Rabs_sign_R.
  pose proof (Zdigits2_bounds (Z.pos m) ltac:(lia)) as [_ Hlt].
  assert (Hm : Z.pos m < 2 ^ prec).
  { eapply Z.lt_le_trans; [exact Hlt|]. apply Z.pow_le_mono_r; lia. }
  pose proof (pow2_pos e) as Hpe.
  rewrite Rabs_pos_eq by (apply Rmult_le_pos; [apply IZR_le; lia | lra]).
  apply Rlt_le_trans with (IZR (2 ^ prec) * pow2 e)%R.
  - apply Rmult_lt_compat_r; [exact Hpe | now apply IZR_lt].
  - rewrite <- pow2_IZR by lia. rewrite <- pow2_add. apply pow2_le. lia.
Qed.

Lemma SFmul_model (X Y : spec_float) :
  valid X = true -> valid Y = true ->
  SF_finite X = true -> SF_finite Y = true ->
  let p := (SF2R X * SF2R Y)%R in
  let r := SFmul prec emax X Y in
  exists v : R,
    (Rabs (v - p) <= pow2 (- prec) * Rabs p + pow2 (emin - 1))%R
    /\ ((exists s, r = S754_infinity s /\ (pow2 emax <= sign_R s * v)%R)
        \/ (SF_finite r = true /\ SF2R r = v)).
Proof.
  intros HX HY FX FY p r.
  assert (Hz : p = 0%R -> SF_finite r = true -> SF2R r = 0%R ->
               exists v : R,
                 (Rabs (v - p) <= pow2 (- prec) * Rabs p + pow2 (emin - 1))%R
                 /\ ((exists s, r = S754_infinity s
                                 /\ (pow2 emax <= sign_R s * v)%R)
                     \/ (SF_finite r = true /\ SF2R r = v))).
  { intros Hp Hf Hr. exists 0%R. rewrite Hp. split; [|right; auto].
    replace (0 - 0)%R with 0%R by ring. rewrite Rabs_R0.
    pose proof (pow2_pos (emin - 1)). lra. }
  destruct X as [sx|sx| |sx mx ex], Y as [sy|sy| |sy my ey];
    try discriminate;
    try (apply Hz; [unfold p; simpl; ring | reflexivity | reflexivity]).
  clear Hz. cbn [SpecFloat.valid_binary] in HX, HY.
  apply bounded_canonical in HX as (HeX & HdX & HcX).
  apply bounded_canonical in HY as (HeY & HdY & HcY).
  pose proof (emin_facts prec emax Hprec Hemax) as [Hemin0 _].
  set (x := (IZR (Z.pos (mx * my)) * pow2 (ex + ey))%R).
  assert (Hp : p = (sign_R (xorb sx sy) * x)%R).
  { unfold p, x. rewrite !SF2R_finite, sign_R_xorb, Pos2Z.inj_mul, mult_IZR, pow2_add.
    ring. }
  assert (Hx0 : (0 <= x)%R).
  { unfold x. apply Rmult_le_pos; [apply IZR_le; lia | apply Rlt_le, pow2_pos]. }
  assert (Hex : ex + ey <= fexp (Zdigits2 (Z.pos (mx * my)) + (ex + ey))).
  { pose proof (Zdigits2_mul_ge (Z.pos mx) (Z.pos my) ltac:(lia) ltac:(lia)).
    rewrite Pos2Z.inj_mul. unfold SpecFloat.fexp. lia. }
  destruct (binary_round_aux_model prec emax Hprec Hemax (xorb sx sy)
              (Z.pos (mx * my)) (ex + ey) loc_Exact x ltac:(lia)
              (located_exact _ _) Hex) as (v & Hv0 & Hv & _ & Hres).
  change (binary_round_aux prec emax (xorb sx sy) (Z.pos (mx * my)) (ex + ey)
            loc_Exact) with r in Hres.
  exists (sign_R (xorb sx sy) * v)%R. split.
  - rewrite Hp, <- Rmult_minus_distr_l, !Rabs_sign_R.
    rewrite (Rabs_pos_eq x Hx0). exact Hv.
  - destruct Hres as [[Hr Hinf] | [Hf Hr]].
    + left. exists (xorb sx sy). split; [exact Hr|].
      rewrite <- Rmult_assoc, sign_R_sq, Rmult_1_l. exact Hinf.
    + right. auto.
Qed.

End Ops.

Lemma iter_xO_pow2 (m d : positive) :
  Z.pos (Pos.iter xO m d) = Z.pos m * 2 ^ Z.pos d.
Proof.
  induction d as [|d IH] using Pos.peano_ind.
  - simpl. lia.
  - rewrite Pos.iter_succ, Pos2Z.inj_xO, IH, Pos2Z.inj_succ.
    rewrite Z.pow_succ_r by lia. lia.
Qed.

Lemma shl_align_spec (mx : positive) (ex ex' : Z) :
  let r := shl_align mx ex ex' in
  snd r = Z.min ex ex'
  /\ Z.pos (fst r) = Z.pos mx * 2 ^ (ex - snd r).
Proof.
  unfold shl_align. destruct (ex' - ex) as [|d|d] eqn:E; cbn [fst snd].
  - split; [lia|]. replace (ex - ex) with 0 by lia. lia.
  - split; [lia|]. replace (ex - ex) with 0 by lia. lia.
  - split; [lia|]. rewrite iter_xO_pow2. f_equal. f_equal. lia.
Qed.

Lemma Zdigits2_shift (m k : Z) :
  0 < m -> 0 <= k -> Zdigits2 (m * 2 ^ k) = Zdigits2 m + k.
Proof.
  intros Hm Hk. pose proof (Zdigits2_bounds m Hm) as [Hlo Hhi].
  pose proof (Zdigits2_pos m Hm) as Hd.
  assert (Hp : 0 < 2 ^ k) by (apply Z.pow_pos_nonneg; lia).
  apply Z.le_antisymm.
  - apply Zdigits2_le; try lia. rewrite Z.pow_add_r by lia. nia.
  - apply Zdigits2_ge; [nia|].
    replace (Zdigits2 m + k - 1) with (Zdigits2 m - 1 + k) by lia.
    rewrite Z.pow_add_r by lia. nia.
Qed.

Lemma IZR_shift (m k e : Z) :
  0 <= k -> (IZR (m * 2 ^ k) * pow2 (e - k) = IZR m * pow2 e)%R.
Proof.
  intros Hk. rewrite mult_IZR, <- pow2_IZR by lia.
  replace e with (k + (e - k)) at 2 by lia. rewrite pow2_add. ring.
Qed.

Section AddDiv.
Variables prec emax : Z.
Hypothesis Hprec : 1 < prec.
Hypothesis Hemax : prec < emax.

Local Abbreviation emin := (SpecFloat.emin prec emax).
Local Abbreviation fexp := (SpecFloat.fexp prec emax).
Local Abbreviation valid := (SpecFloat.valid_binary prec emax).

(** Rounding an integer mantissa with an exponent of at least [emin]: the
    error is relative. *)
Lemma binary_round_model (sx : bool) (mx : positive) (ex : Z) :
  emin <= ex ->
  let x := (IZR (Z.pos mx) * pow2 ex)%R in
  let r := binary_round prec emax sx mx ex in
  exists v : R,
    (0 <= v)%R
    /\ (Rabs (v - x) <= pow2 (- prec) * x)%R
    /\ ((r = S754_infinity sx /\ (pow2 emax <= v)%R)
        \/ (SF_finite r = true /\ SF2R r = (sign_R sx * v)%R)).
Proof.
  intros Hex x r. unfold binary_round in r.
  change (Z.pos (digits2_pos mx)) with (Zdigits2 (Z.pos mx)) in r.
  set (e' := fexp (Zdigits2 (Z.pos mx) + ex)) in *.
  pose proof (shl_align_spec mx ex e') as [Hez Hmz]. cbv zeta in *.
  destruct (shl_align mx ex e') as [mz ez]. cbn [fst snd] in *.
  assert (He' : emin <= e') by apply fexp_ge_emin.
  assert (Hk : 0 <= ex - ez) by lia.
  assert (Hx : x = (IZR (Z.pos mz) * pow2 ez)%R).
  { unfold x. rewrite Hmz. replace ez with (ex - (ex - ez)) at 2 by lia.
    now rewrite IZR_shift. }
  assert (Hd : Zdigits2 (Z.pos mz) + ez = Zdigits2 (Z.pos mx) + ex).
  { rewrite Hmz, Zdigits2_shift by lia. lia. }
  assert (Hfe : ez <= fexp (Zdigits2 (Z.pos mz) + ez)).
  { rewrite Hd. fold e'. lia. }
  destruct (binary_round_aux_model prec emax Hprec Hemax sx (Z.pos mz) ez
              loc_Exact x ltac:(lia)) as (v & Hv0 & _ & Hv & Hres).
  - rewrite Hx. apply located_exact.
  - exact Hfe.
  - exists v. split; [exact Hv0|]. split; [apply Hv; [reflexivity | lia]|].
    exact Hres.
Qed.

Lemma SF2R_opp (X : spec_float) : SF2R (SFopp X) = (- SF2R X)%R.
Proof. destruct X as [s|s| |[|] m e]; simpl; lra. Qed.

(** The value of an integer mantissa with its sign. *)
Lemma binary_normalize_model (m e : Z) :
  emin <= e ->
  let x := (IZR m * pow2 e)%R in
  let r := binary_normalize prec emax m e false in
  exists v : R,
    (Rabs (v - x) <= pow2 (- prec) * Rabs x)%R
    /\ ((exists s, r = S754_infinity s /\ (pow2 emax <= sign_R s * v)%R)
        \/ (SF_finite r = true /\ SF2R r = v)).
Proof.
  intros He x r. pose proof (pow2_pos e) as Hpe.
  destruct m as [|p|p]; cbn [binary_normalize] in r.
  - exists 0%R. unfold x. rewrite Rmult_0_l, Rminus_0_r, Rabs_R0, Rmult_0_r.
    split; [lra|]. right. split; reflexivity.
  - destruct (binary_round_model false p e He) as (v & Hv0 & Hv & Hres).
    fold r in Hres. exists v.
    assert (Hx0 : (0 <= x)%R)
      by (apply Rmult_le_pos; [apply IZR_le; lia | lra]).
    rewrite (Rabs_pos_eq x Hx0). split; [exact Hv|].
    destruct Hres as [[Hr Hinf] | [Hf Hr]].
    + left. exists false. unfold sign_R. split; [exact Hr | lra].
    + right. split; [exact Hf|]. rewrite Hr. unfold sign_R. lra.
  - destruct (binary_round_model true p e He) as (v & Hv0 & Hv & Hres).
    fold r in Hres. exists (- v)%R.
    assert (Hx : x = (- (IZR (Z.pos p) * pow2 e))%R).
    { unfold x. change (Z.neg p) with (- Z.pos p). rewrite opp_IZR. ring. }
    assert (Hx0 : (0 <= IZR (Z.pos p) * pow2 e)%R)
      by (apply Rmult_le_pos; [apply IZR_le; lia | lra]).
    rewrite Hx, Rabs_Ropp, (Rabs_pos_eq _ Hx0). split.
    + replace (- v - - (IZR (Z.pos p) * pow2 e))%R
        with (- (v - IZR (Z.pos p) * pow2 e))%R by ring.
      rewrite Rabs_Ropp. exact Hv.
    + destruct Hres as [[Hr Hinf] | [Hf Hr]].
      * left. exists true. unfold sign_R. split; [exact Hr | lra].
      * right. split; [exact Hf|]. rewrite Hr. unfold sign_R. lra.
Qed.

Lemma cond_Zopp_IZR (s : bool) (m : Z) :
  IZR (cond_Zopp s m) = (sign_R s * IZR m)%R.
Proof. destruct s; unfold cond_Zopp, sign_R; [rewrite opp_IZR|]; lra. Qed.

Lemma SFadd_model (X Y : spec_float) :
  valid X = true -> valid Y = true ->
  SF_finite X = true -> SF_finite Y = true ->
  let p := (SF2R X + SF2R Y)%R in
  let r := SFadd prec emax X Y in
  exists v : R,
    (Rabs (v - p) <= pow2 (- prec) * Rabs p)%R
    /\ ((exists s, r = S754_infinity s /\ (pow2 emax <= sign_R s * v)%R)
        \/ (SF_finite r = true /\ SF2R r = v)).
Proof.
  intros HX HY FX FY p r.
  assert (Hexact : SF_finite r = true -> SF2R r = p ->
                   exists v : R,
                     (Rabs (v - p) <= pow2 (- prec) * Rabs p)%R
                     /\ ((exists s, r = S754_infinity s
                                    /\ (pow2 emax <= sign_R s * v)%R)
                         \/ (SF_finite r = true /\ SF2R r = v))).
  { intros Hf Hr. exists p. split; [|right; auto].
    replace (p - p)%R with 0%R by ring. rewrite Rabs_R0.
    apply Rmult_le_pos; [apply Rlt_le, pow2_pos | apply Rabs_pos]. }
  destruct X as [sx|sx| |sx mx ex], Y as [sy|sy| |sy my ey];
    try discriminate.
  - apply Hexact; unfold r, p; destruct sx, sy; simpl; try reflexivity; lra.
  - apply Hexact; unfold r, p; [reflexivity|]. cbn [SFadd].
    change (SF2R (S754_zero sx)) with 0%R. lra.
  - apply Hexact; unfold r, p; [reflexivity|]. cbn [SFadd].
    change (SF2R (S754_zero sy)) with 0%R. lra.
  - clear Hexact. cbn [SpecFloat.valid_binary] in HX, HY.
    apply bounded_canonical in HX as (HeX & _).
    apply bounded_canonical in HY as (HeY & _).
    unfold r. cbn [SFadd]. set (ez := Z.min ex ey).
    pose proof (shl_align_spec mx ex ez) as [Hxe Hxm].
    pose proof (shl_align_spec my ey ez) as [Hye Hym]. cbv zeta in *.
    destruct (shl_align mx ex ez) as [mx' ex'].
    destruct (shl_align my ey ez) as [my' ey']. cbn [fst snd] in *.
    assert (Hxz : ex' = ez) by lia. assert (Hyz : ey' = ez) by lia.
    clear Hxe Hye. subst ex' ey'.
    set (s := cond_Zopp sx (Z.pos mx') + cond_Zopp sy (Z.pos my')).
    assert (Hp : p = (IZR s * pow2 ez)%R).
    { assert (Hx : (IZR (Z.pos mx') * pow2 ez = IZR (Z.pos mx) * pow2 ex)%R).
      { rewrite Hxm. replace ez with (ex - (ex - ez)) at 2 by lia.
        apply IZR_shift. lia. }
      assert (Hy : (IZR (Z.pos my') * pow2 ez = IZR (Z.pos my) * pow2 ey)%R).
      { rewrite Hym. replace ez with (ey - (ey - ez)) at 2 by lia.
        apply IZR_shift. lia. }
      unfold p, s. rewrite plus_IZR, !cond_Zopp_IZR, !SF2R_finite.
      rewrite <- Hx, <- Hy. ring. }
    rewrite Hp. apply binary_normalize_model. lia.
Qed.

Lemma SFsub_as_add (X Y : spec_float) :
  SF_finite X = true -> SF_finite Y = true ->
  SFsub prec emax X Y = SFadd prec emax X (SFopp Y).
Proof.
  destruct X as [[|]|sx| |sx mx ex], Y as [[|]|sy| |sy my ey];
    try discriminate; intros _ _; try reflexivity.
  cbn [SFsub SFadd SFopp]. f_equal.
  destruct sy; cbn [negb cond_Zopp]; lia.
Qed.

Lemma SFsub_model (X Y : spec_float) :
  valid X = true -> valid Y = true ->
  SF_finite X = true -> SF_finite Y = true ->
  let p := (SF2R X - SF2R Y)%R in
  let r := SFsub prec emax X Y in
  exists v : R,
    (Rabs (v - p) <= pow2 (- prec) * Rabs p)%R
    /\ ((exists s, r = S754_infinity s /\ (pow2 emax <= sign_R s * v)%R)
        \/ (SF_finite r = true /\ SF2R r = v)).
Proof.
  intros HX HY FX FY p r. unfold r. rewrite SFsub_as_add by assumption.
  unfold p. replace (SF2R X - SF2R Y)%R with (SF2R X + SF2R (SFopp Y))%R
    by (rewrite SF2R_opp; ring).
  apply SFadd_model; auto; destruct Y; auto.
Qed.

End AddDiv.

Lemma new_location_located (nb k q e : Z) :
  0 < nb -> 0 <= k < nb ->
  located q e (new_location nb k) ((IZR q + IZR k / IZR nb) * pow2 e).
Proof.
  intros Hnb Hk. exists (IZR k / IZR nb)%R. split; [reflexivity|].
  assert (HN : (0 < IZR nb)%R) by (apply IZR_lt; lia).
  set (rho := (IZR k / IZR nb)%R).
  assert (Hrho : (rho * IZR nb = IZR k)%R) by (unfold rho; field; lra).
  assert (Hk1 : (0 <= IZR k < IZR nb)%R)
    by (split; [apply IZR_le | apply IZR_lt]; lia).
  assert (Hlt1 : (rho < 1)%R) by (destruct (Rlt_le_dec rho 1); [auto | nra]).
  assert (Hhalf : forall c : comparison,
             Z.compare (2 * k) nb = c -> k <> 0 ->
             match c with
             | Lt => (0 < rho < 1 / 2)%R
             | Eq => rho = (1 / 2)%R
             | Gt => (1 / 2 < rho < 1)%R
             end).
  { intros c Hc Hk0.
    assert (Hkpos : (0 < IZR k)%R) by (apply IZR_lt; lia).
    assert (Hgt0 : (0 < rho)%R) by (destruct (Rlt_le_dec 0 rho); [auto | nra]).
    subst c. destruct (Z.compare_spec (2 * k) nb) as [Heq | Hlt | Hgt].
    - apply (f_equal IZR) in Heq. rewrite mult_IZR in Heq.
      apply Rmult_eq_reg_r with (IZR nb); [|lra]. rewrite Hrho. lra.
    - apply IZR_lt in Hlt. rewrite mult_IZR in Hlt.
      split; [exact Hgt0|]. destruct (Rlt_le_dec rho (1 / 2)); [auto | nra].
    - apply IZR_lt in Hgt. rewrite mult_IZR in Hgt.
      split; [|exact Hlt1]. destruct (Rlt_le_dec (1 / 2) rho); [auto | nra]. }
  unfold new_location. destruct (Z.even nb) eqn:Hev;
    unfold new_location_even, new_location_odd;
    destruct (Z.eqb_spec k 0) as [Hk0 | Hk0];
    try (unfold rho, Rdiv; rewrite Hk0, Rmult_0_l; reflexivity).
  - exact (Hhalf _ eq_refl Hk0).
  - assert (Hodd : 2 * k <> nb).
    { intros <-. rewrite Z.even_mul in Hev. discriminate. }
    destruct (Z.compare_spec (2 * k + 1) nb) as [Heq | Hlt | Hgt].
    + apply (Hhalf Lt); [apply Z.compare_lt_iff; lia | exact Hk0].
    + apply (Hhalf Lt); [apply Z.compare_lt_iff; lia | exact Hk0].
    + apply (Hhalf Gt); [apply Z.compare_gt_iff; lia | exact Hk0].
Qed.

Section Div.
Variables prec emax : Z.
Hypothesis Hprec : 1 < prec.
Hypothesis Hemax : prec < emax.

Local Abbreviation emin := (SpecFloat.emin prec emax).
Local Abbreviation fexp := (SpecFloat.fexp prec emax).
Local Abbreviation valid := (SpecFloat.valid_binary prec emax).

(** The quotient, its exponent and its location as computed by
    [SFdiv_core_binary] locate the exact quotient, with enough digits. *)
Lemma SFdiv_core_binary_spec (m1 m2 : positive) (e1 e2 : Z) :
  let '(q, e', l) := SFdiv_core_binary prec emax (Z.pos m1) e1 (Z.pos m2) e2 in
  0 <= q
  /\ located q e' l
       (IZR (Z.pos m1) * pow2 e1 / (IZR (Z.pos m2) * pow2 e2))
  /\ e' <= fexp (Zdigits2 q + e').
Proof.
  unfold SFdiv_core_binary.
  set (d1 := Zdigits2 (Z.pos m1)). set (d2 := Zdigits2 (Z.pos m2)).
  set (e' := Z.min (fexp (d1 + e1 - (d2 + e2))) (e1 - e2)).
  set (s := e1 - e2 - e').
  assert (Hs : 0 <= s) by (unfold s, e'; lia).
  set (m' := match s with
             | 0 => Z.pos m1
             | Z.pos _ => Z.shiftl (Z.pos m1) s
             | Z.neg _ => 0
             end).
  assert (Hm' : m' = Z.pos m1 * 2 ^ s).
  { unfold m'. destruct s as [|p|p] eqn:E; try lia.
    apply Z.shiftl_mul_pow2. lia. }
  clearbody m'.
  pose proof (Z_div_mod m' (Z.pos m2) ltac:(lia)) as Hdm.
  destruct (Z.div_eucl m' (Z.pos m2)) as [q r]. destruct Hdm as [Hq Hr].
  assert (Hp : 0 < 2 ^ s) by (apply Z.pow_pos_nonneg; lia).
  assert (Hq0 : 0 <= q) by nia.
  split; [exact Hq0|]. split.
  - assert (HN : (0 < IZR (Z.pos m2))%R) by (apply IZR_lt; lia).
    pose proof (pow2_pos e1). pose proof (pow2_pos e2). pose proof (pow2_pos e').
    replace (IZR (Z.pos m1) * pow2 e1 / (IZR (Z.pos m2) * pow2 e2))%R
      with ((IZR q + IZR r / IZR (Z.pos m2)) * pow2 e')%R.
    + apply new_location_located; lia.
    + assert (Hv : (IZR m' * pow2 e' = IZR (Z.pos m1) * pow2 (e1 - e2))%R).
      { rewrite Hm'. replace e' with (e1 - e2 - s) by (unfold s; lia).
        apply IZR_shift. exact Hs. }
      replace (e1 - e2) with (e1 + - e2) in Hv by lia.
      rewrite pow2_add, pow2_opp in Hv.
      apply (f_equal IZR) in Hq. rewrite plus_IZR, mult_IZR in Hq.
      rewrite Hq in Hv. field_simplify_eq; [|lra].
      apply (f_equal (fun t => (t * pow2 e2)%R)) in Hv.
      field_simplify in Hv; [|lra]. lra.
  - destruct (Z_le_gt_dec e' emin) as [Hle | Hgt].
    + pose proof (fexp_ge_emin prec emax (Zdigits2 q + e')). lia.
    + (* the quotient has at least [prec] digits *)
      assert (Hs' : d2 - d1 + prec <= s)
        by (unfold s, e', SpecFloat.fexp in *; lia).
      pose proof (Zdigits2_bounds (Z.pos m1) ltac:(lia)) as [Hlo1 _].
      pose proof (Zdigits2_bounds (Z.pos m2) ltac:(lia)) as [_ Hhi2].
      fold d1 in Hlo1. fold d2 in Hhi2.
      assert (Hd1 : 0 < d1) by (apply Zdigits2_pos; lia).
      assert (Hd2 : 0 < d2) by (apply Zdigits2_pos; lia).
      assert (Hbig : 2 ^ (prec - 1) * Z.pos m2 <= m').
      { rewrite Hm'.
        apply Z.le_trans with (2 ^ (d1 - 1) * 2 ^ s); [|nia].
        rewrite <- Z.pow_add_r by lia.
        apply Z.le_trans with (2 ^ (prec - 1) * 2 ^ d2).
        - apply Z.mul_le_mono_nonneg_l; [|lia].
          apply Z.lt_le_incl, Z.pow_pos_nonneg; lia.
        - rewrite <- Z.pow_add_r by lia. apply Z.pow_le_mono_r; lia. }
      assert (Hqbig : 2 ^ (prec - 1) <= q).
      { assert (0 < 2 ^ (prec - 1)) by (apply Z.pow_pos_nonneg; lia).
        destruct (Z_lt_le_dec q (2 ^ (prec - 1))) as [Hc|]; [|lia]. nia. }
      assert (prec <= Zdigits2 q).
      { apply Zdigits2_ge; [|exact Hqbig].
        assert (0 < 2 ^ (prec - 1)) by (apply Z.pow_pos_nonneg; lia). lia. }
      unfold SpecFloat.fexp. lia.
Qed.

Lemma SFdiv_model (X : spec_float) (sy : bool) (my : positive) (ey : Z) :
  valid X = true -> SF_finite X = true ->
  let Y := S754_finite sy my ey in
  let p := (SF2R X / SF2R Y)%R in
  let r := SFdiv prec emax X Y in
  exists v : R,
    (Rabs (v - p) <= pow2 (- prec) * Rabs p + pow2 (emin - 1))%R
    /\ ((exists s, r = S754_infinity s /\ (pow2 emax <= sign_R s * v)%R)
        \/ (SF_finite r = true /\ SF2R r = v)).
Proof.
  intros HX FX Y p r.
  assert (HY0 : (0 < IZR (Z.pos my) * pow2 ey)%R).
  { apply Rmult_lt_0_compat; [apply IZR_lt; lia | apply pow2_pos]. }
  destruct X as [sx|sx| |sx mx ex]; try discriminate.
  - exists 0%R. unfold p. change (SF2R (S754_zero sx)) with 0%R.
    unfold Rdiv. rewrite Rmult_0_l, Rminus_0_r, Rabs_R0, Rmult_0_r.
    pose proof (pow2_pos (emin - 1)). split; [lra|].
    right. split; reflexivity.
  - unfold r, Y. cbn [SFdiv].
    pose proof (SFdiv_core_binary_spec mx my ex ey) as Hcore.
    destruct (SFdiv_core_binary prec emax (Z.pos mx) ex (Z.pos my) ey)
      as [[q e'] l]. destruct Hcore as (Hq & Hloc & Hfe).
    set (x := (IZR (Z.pos mx) * pow2 ex / (IZR (Z.pos my) * pow2 ey))%R) in *.
    assert (Hx0 : (0 <= x)%R).
    { unfold x. apply Rmult_le_pos.
      - apply Rmult_le_pos; [apply IZR_le; lia | apply Rlt_le, pow2_pos].
      - apply Rlt_le, Rinv_0_lt_compat. exact HY0. }
    assert (Hp : p = (sign_R (xorb sx sy) * x)%R).
    { unfold p, x, Y. rewrite !SF2R_finite, sign_R_xorb.
      pose proof (pow2_pos ey) as Hpe.
      assert (Hmy : (0 < IZR (Z.pos my))%R) by (apply IZR_lt; lia).
      destruct sx, sy; unfold sign_R; field; split; lra. }
    destruct (binary_round_aux_model prec emax Hprec Hemax (xorb sx sy)
                q e' l x Hq Hloc Hfe) as (v & Hv0 & Hv & _ & Hres).
    exists (sign_R (xorb sx sy) * v)%R. split.
    + rewrite Hp, <- Rmult_minus_distr_l, !Rabs_sign_R.
      rewrite (Rabs_pos_eq x Hx0). exact Hv.
    + destruct Hres as [[Hr Hinf] | [Hf Hr]].
      * left. exists (xorb sx sy). split; [exact Hr|].
        rewrite <- Rmult_assoc, sign_R_sq, Rmult_1_l. exact Hinf.
      * right. auto.
Qed.

End Div.


Lemma binary64_prec : 1 < prec.
Proof. reflexivity. Qed.
Lemma binary64_emax : prec < emax.
Proof. reflexivity. Qed.

Lemma pow2_neg_IZR (p : positive) :
  pow2 (Z.neg p) = (/ IZR (2 ^ Z.pos p))%R.
Proof.
  change (Z.neg p) with (- Z.pos p). rewrite pow2_opp, pow2_IZR by lia.
  reflexivity.
Qed.

(** The unit roundoff of binary64. *)
Lemma pow2_m53 : pow2 (-53) = (/ 9007199254740992)%R.
Proof. exact (pow2_neg_IZR 53). Qed.

Lemma finite_lt_pow2_emax (x : float) : (Rabs (F2R x) < pow2 1024)%R.
Proof.
  apply (valid_finite_lt prec emax binary64_prec).
  apply Prim2SF_valid.
Qed.

Lemma mul_model (x y : float) :
  finite x = true -> finite y = true ->
  exists v : R,
    (Rabs (v - F2R x * F2R y)
     <= pow2 (-53) * Rabs (F2R x * F2R y) + pow2 (-1075))%R
    /\ ((exists s, Prim2SF (x * y) = S754_infinity s
                   /\ (pow2 1024 <= sign_R s * v)%R)
        \/ (finite (x * y) = true /\ F2R (x * y) = v)).
Proof.
  intros Hx Hy. unfold finite, F2R. rewrite FloatAxioms.mul_spec.
  apply (SFmul_model prec emax binary64_prec binary64_emax);
    auto using Prim2SF_valid.
Qed.

(** The error of a multiplication that does not overflow. *)
Lemma mul_error (x y : float) :
  finite x = true -> finite y = true -> finite (x * y) = true ->
  (Rabs (F2R (x * y) - F2R x * F2R y)
   <= pow2 (-53) * Rabs (F2R x * F2R y) + pow2 (-1075))%R.
Proof.
  intros Hx Hy Hxy. destruct (mul_model x y Hx Hy) as (v & Hv & Hres).
  destruct Hres as [(s & Hinf & _) | [_ ->]]; [|exact Hv].
  unfold finite in Hxy. rewrite Hinf in Hxy. discriminate.
Qed.

(** A product well below [2^1024] does not overflow. *)
Lemma mul_finite (x y : float) :
  finite x = true -> finite y = true ->
  ((1 + pow2 (-53)) * Rabs (F2R x * F2R y) + pow2 (-1075) < pow2 1024)%R ->
  finite (x * y) = true.
Proof.
  intros Hx Hy Hlt. destruct (mul_model x y Hx Hy) as (v & Hv & Hres).
  destruct Hres as [(s & _ & Hinf) | [Hf _]]; [|exact Hf].
  exfalso.
  assert (Hle : (sign_R s * v <= Rabs v)%R).
  { rewrite <- (Rabs_sign_R s v). apply Rle_abs. }
  assert (Rabs v <= Rabs (F2R x * F2R y) + Rabs (v - F2R x * F2R y))%R.
  { replace v with (F2R x * F2R y + (v - F2R x * F2R y))%R at 1 by ring.
    apply Rabs_triang. }
  lra.
Qed.

(** A finite product has finite factors. *)
Lemma mul_finite_inv (x y : float) :
  finite (x * y) = true -> finite x = true /\ finite y = true.
Proof.
  unfold finite. rewrite FloatAxioms.mul_spec.
  destruct (Prim2SF x) as [| | |], (Prim2SF y) as [| | |];
    cbn; intros H; try discriminate; auto.
Qed.

(** The two factors of line 166. *)
Lemma Prim2SF_c_1_1 :
  Prim2SF c_1_1 = S754_finite false 4953959590107546 (-52).
Proof. vm_compute. reflexivity. Qed.

Lemma Prim2SF_inv_c_1_1 :
  Prim2SF (1 / c_1_1) = S754_finite false 8188362958855447 (-53).
Proof. vm_compute. reflexivity. Qed.

Lemma F2R_c_1_1 : F2R c_1_1 = (4953959590107546 / 4503599627370496)%R.
Proof.
  unfold F2R. rewrite Prim2SF_c_1_1. unfold SF2R.
  rewrite (pow2_neg_IZR 52). reflexivity.
Qed.

Lemma F2R_inv_c_1_1 :
  F2R (1 / c_1_1) = (8188362958855447 / 9007199254740992)%R.
Proof.
  unfold F2R. rewrite Prim2SF_inv_c_1_1. unfold SF2R.
  rewrite (pow2_neg_IZR 53). reflexivity.
Qed.



Section Positive.
Variables prec emax : Z.
Hypothesis Hprec : 1 < prec.
Hypothesis Hemax : prec < emax.

Local Abbreviation emin := (SpecFloat.emin prec emax).
Local Abbreviation valid := (SpecFloat.valid_binary prec emax).

(** A positive finite number is at least [2^emin]. *)
Lemma valid_positive_ge (m : positive) (e : Z) :
  valid (S754_finite false m e) = true ->
  (pow2 emin <= IZR (Z.pos m) * pow2 e)%R.
Proof.
  intros H. apply bounded_canonical in H as (He & _).
  apply Rle_trans with (1 * pow2 e)%R.
  - rewrite Rmult_1_l. apply pow2_le. lia.
  - apply Rmult_le_compat_r; [apply Rlt_le, pow2_pos|]. apply IZR_le. lia.
Qed.

(** The product of two positive numbers is positive unless it underflows
    to zero. *)
Lemma SFmul_positive (X Y : spec_float) :
  valid X = true -> valid Y = true ->
  SF_positive X = true -> SF_positive Y = true ->
  (SF_finite X = true -> SF_finite Y = true ->
   (pow2 (emin - 1) < SF2R X * SF2R Y)%R) ->
  SF_positive (SFmul prec emax X Y) = true.
Proof.
  intros HX HY PX PY Hbig.
  destruct X as [sx|[|]| |[|] mx ex], Y as [sy|[|]| |[|] my ey];
    try discriminate; try reflexivity.
  specialize (Hbig eq_refl eq_refl). cbn [SpecFloat.valid_binary] in HX, HY.
  apply bounded_canonical in HX as (HeX & HdX & HcX).
  apply bounded_canonical in HY as (HeY & HdY & HcY).
  pose proof (emin_facts prec emax Hprec Hemax) as [Hemin0 _].
  assert (Hex : ex + ey
                <= fexp prec emax (Zdigits2 (Z.pos (mx * my)) + (ex + ey))).
  { pose proof (Zdigits2_mul_ge (Z.pos mx) (Z.pos my) ltac:(lia) ltac:(lia)).
    rewrite Pos2Z.inj_mul. unfold SpecFloat.fexp. lia. }
  destruct (binary_round_aux_spec prec emax Hprec false (Z.pos (mx * my))
              (ex + ey) loc_Exact _ ltac:(lia) (located_exact _ _) Hex)
    as (m2 & e2 & Hm2 & He2 & Herr & _ & Hnormal & Hr).
  cbn [SFmul xorb]. rewrite Hr.
  destruct m2 as [|m|m]; [|destruct (e2 <=? emax - prec); reflexivity|lia].
  exfalso. set (e1 := fexp prec emax _) in *.
  assert (He1 : e1 = emin).
  { pose proof (fexp_ge_emin prec emax (Zdigits2 (Z.pos (mx * my)) + (ex + ey))).
    fold e1 in H. destruct (Z.eq_dec e1 emin) as [|Hne]; [assumption|].
    destruct (Hnormal ltac:(lia)) as [Hc _].
    assert (0 < 2 ^ (prec - 1)) by (apply Z.pow_pos_nonneg; lia). lia. }
  rewrite He1, <- pow2_pred in Herr.
  rewrite !SF2R_finite in Hbig. unfold sign_R in Hbig.
  rewrite Pos2Z.inj_mul, mult_IZR, pow2_add in Herr.
  rewrite Rmult_0_l, Rminus_0_l, Rabs_Ropp in Herr.
  match type of Herr with (Rabs ?t <= _)%R => pose proof (Rle_abs t) end.
  lra.
Qed.

End Positive.

Lemma Prim2SF_zero : Prim2SF 0 = S754_zero false.
Proof. vm_compute. reflexivity. Qed.

Lemma mul_positive (x y : float) :
  positive_double x = true -> positive_double y = true ->
  (finite x = true -> finite y = true -> (pow2 (-1075) < F2R x * F2R y)%R) ->
  positive_double (x * y) = true.
Proof.
  intros Hx Hy H. unfold positive_double. rewrite FloatAxioms.mul_spec.
  apply (SFmul_positive prec emax binary64_prec binary64_emax);
    auto using Prim2SF_valid.
Qed.

Lemma positive_double_ge (x : float) :
  positive_double x = true -> finite x = true -> (pow2 (-1074) <= F2R x)%R.
Proof.
  unfold positive_double, finite, F2R. pose proof (Prim2SF_valid x) as Hv.
  destruct (Prim2SF x) as [|[|]| |[|] m e]; try discriminate. intros _ _.
  apply (valid_positive_ge prec emax) in Hv. exact Hv.
Qed.

(** Every number from [2^-1073] up is positive, with a value of at least
    [2^-1073] when it is finite. *)
Lemma leb_min_normal_scale (z : float) :
  (0x1p-1073 <=? z)%float = true ->
  positive_double z = true
  /\ (finite z = true -> (pow2 (-1073) <= F2R z)%R).
Proof.
  rewrite FloatAxioms.leb_spec. unfold positive_double, finite, F2R.
  replace (Prim2SF 0x1p-1073) with (S754_finite false 2 (-1074))
    by (vm_compute; reflexivity).
  intros H.
  destruct (Prim2SF z) as [s|[|]| |[|] m e]; try discriminate H;
    try (split; [reflexivity | discriminate]).
  unfold SFleb, SFcompare in H. split; [reflexivity|]. intros _.
  unfold SF2R. pose proof (pow2_pos e) as Hpe.
  destruct (Z.compare_spec (-1074) e) as [Heq | Hlt | Hgt];
    try discriminate H.
  - rewrite <- Heq in *. assert (Hm : (2 <= m)%positive).
    { unfold Pos.le. change (Pos.compare 2 m) with (Pos.compare_cont Eq 2 m).
      destruct (Pos.compare_cont Eq 2 m); discriminate. }
    replace (-1073) with (-1074 + 1) by lia. rewrite pow2_succ.
    apply Rmult_le_compat_r; [lra|]. apply IZR_le. lia.
  - apply Rle_trans with (1 * pow2 e)%R.
    + rewrite Rmult_1_l. apply pow2_le. lia.
    + apply Rmult_le_compat_r; [lra|]. apply IZR_le. lia.
Qed.

(** Zero divided by a positive number is [+0]. *)
Lemma div_zero_positive (d : float) :
  positive_double d = true -> (0 / d)%float = 0%float.
Proof.
  unfold positive_double. intros H. apply Prim2SF_inj.
  rewrite FloatAxioms.div_spec, Prim2SF_zero.
  destruct (Prim2SF d) as [|[|]| |[|] m e]; try discriminate; reflexivity.
Qed.

Lemma SFeqb_refl (X : spec_float) : X <> S754_nan -> SFeqb X X = true.
Proof.
  destruct X as [s|[|]| |[|] m e]; intros H; try reflexivity;
    try contradiction; unfold SFeqb, SFcompare;
    rewrite Z.compare_refl, Pos.compare_cont_refl; reflexivity.
Qed.

(** Adding [+0] to a number other than NaN gives a number equal to it. *)
Lemma add_zero_l (c : float) :
  is_nan c = false -> (0 + c =? c)%float = true.
Proof.
  unfold is_nan. intros H. apply negb_false_iff in H.
  rewrite FloatAxioms.eqb_spec in H.
  rewrite FloatAxioms.eqb_spec, FloatAxioms.add_spec, Prim2SF_zero.
  destruct (Prim2SF c) as [[|]|[|]| |[|] m e];
    try discriminate H; try reflexivity; exact H.
Qed.


Lemma Rabs_le_elim (t b : R) : (Rabs t <= b)%R -> (- b <= t <= b)%R.
Proof. unfold Rabs. destruct (Rcase_abs t); lra. Qed.

Lemma Rabs_bounds (t : R) : (- Rabs t <= t <= Rabs t)%R.
Proof. unfold Rabs. destruct (Rcase_abs t); lra. Qed.

Lemma finite_nonzero (y : float) :
  finite y = true -> F2R y <> 0%R ->
  exists s m e, Prim2SF y = S754_finite s m e.
Proof.
  unfold finite, F2R. destruct (Prim2SF y) as [s|s| |s m e];
    try discriminate; intros _ H; [exfalso; apply H; reflexivity|]. eauto.
Qed.

Lemma add_error (x y : float) :
  finite x = true -> finite y = true -> finite (x + y) = true ->
  (Rabs (F2R (x + y) - (F2R x + F2R y))
   <= pow2 (-53) * Rabs (F2R x + F2R y))%R.
Proof.
  intros Hx Hy Hxy. unfold finite, F2R in *.
  rewrite FloatAxioms.add_spec in *.
  destruct (SFadd_model prec emax binary64_prec binary64_emax
              (Prim2SF x) (Prim2SF y) (Prim2SF_valid x) (Prim2SF_valid y)
              Hx Hy) as (v & Hv & Hres).
  destruct Hres as [(s & Hinf & _) | [_ Hr]].
  - unfold SF64add in Hxy. rewrite Hinf in Hxy. discriminate.
  - unfold SF64add. rewrite Hr. exact Hv.
Qed.

Lemma sub_error (x y : float) :
  finite x = true -> finite y = true -> finite (x - y) = true ->
  (Rabs (F2R (x - y) - (F2R x - F2R y))
   <= pow2 (-53) * Rabs (F2R x - F2R y))%R.
Proof.
  intros Hx Hy Hxy. unfold finite, F2R in *.
  rewrite FloatAxioms.sub_spec in *.
  destruct (SFsub_model prec emax binary64_prec binary64_emax
              (Prim2SF x) (Prim2SF y) (Prim2SF_valid x) (Prim2SF_valid y)
              Hx Hy) as (v & Hv & Hres).
  destruct Hres as [(s & Hinf & _) | [_ Hr]].
  - unfold SF64sub in Hxy. rewrite Hinf in Hxy. discriminate.
  - unfold SF64sub. rewrite Hr. exact Hv.
Qed.

Lemma div_error (x y : float) :
  finite x = true -> finite y = true -> F2R y <> 0%R ->
  finite (x / y) = true ->
  (Rabs (F2R (x / y) - F2R x / F2R y)
   <= pow2 (-53) * Rabs (F2R x / F2R y) + pow2 (-1075))%R.
Proof.
  intros Hx Hy Hy0 Hxy.
  destruct (finite_nonzero y Hy Hy0) as (sy & my & ey & Ey).
  unfold finite, F2R in *. rewrite FloatAxioms.div_spec in *. rewrite Ey in *.
  destruct (SFdiv_model prec emax binary64_prec binary64_emax
              (Prim2SF x) sy my ey (Prim2SF_valid x) Hx)
    as (v & Hv & Hres).
  destruct Hres as [(s & Hinf & _) | [_ Hr]].
  - unfold SF64div in Hxy. rewrite Hinf in Hxy. discriminate.
  - unfold SF64div. rewrite Hr. exact Hv.
Qed.

Lemma add_finite_inv (x y : float) :
  finite (x + y) = true -> finite x = true /\ finite y = true.
Proof.
  unfold finite. rewrite FloatAxioms.add_spec.
  destruct (Prim2SF x) as [|[|]| |], (Prim2SF y) as [|[|]| |];
    cbn [SF64add SFadd SF_finite]; intros H; try discriminate H; auto.
Qed.

Lemma sub_finite_inv (x y : float) :
  finite (x - y) = true -> finite x = true /\ finite y = true.
Proof.
  unfold finite. rewrite FloatAxioms.sub_spec.
  destruct (Prim2SF x) as [|[|]| |], (Prim2SF y) as [|[|]| |];
    cbn [SF64sub SFsub SF_finite]; intros H; try discriminate H; auto.
Qed.

Lemma div_finite_inv (x y : float) :
  finite (x / y) = true -> finite y = true ->
  finite x = true /\ F2R y <> 0%R.
Proof.
  unfold finite, F2R. rewrite FloatAxioms.div_spec.
  destruct (Prim2SF x) as [|[|]| |], (Prim2SF y) as [|[|]| |sy my ey];
    cbn [SF64div SFdiv SF_finite]; intros H Hy;
    try discriminate H; try discriminate Hy; split; try reflexivity;
    rewrite SF2R_finite; pose proof (pow2_pos ey);
    assert (0 < IZR (Z.pos my))%R by (apply IZR_lt; lia);
    destruct sy; unfold sign_R; nra.
Qed.

Lemma pow2_m50 : pow2 (-50) = (/ 1125899906842624)%R.
Proof. exact (pow2_neg_IZR 50). Qed.

Lemma pow2_m1073 : pow2 (-1073) = (4 * pow2 (-1075))%R.
Proof.
  replace (-1073) with (-1075 + 2) by lia. rewrite pow2_add, pow2_2. ring.
Qed.

(** Scaling an error by a divisor. *)
Lemma Rabs_div_le (e x w u : R) :
  w <> 0%R -> (0 <= u)%R ->
  (Rabs e <= u * Rabs x)%R -> (Rabs (e / w) <= u * Rabs (x / w))%R.
Proof.
  intros Hw Hu H. unfold Rdiv. rewrite !Rabs_mult, <- Rmult_assoc.
  apply Rmult_le_compat_r; [apply Rabs_pos | exact H].
Qed.

(** One coordinate of the centre: two moves against one move by the sum. *)
Lemma pan_axis_linear (c d1 d2 w : float) :
  finite w = true ->
  finite (c - d1 / w - d2 / w) = true ->
  finite (c - (d1 + d2) / w) = true ->
  (Rabs (F2R (c - d1 / w - d2 / w) - F2R (c - (d1 + d2) / w))
   <= pan_tolerance c d1 d2 w)%R.
Proof.
  intros Hw H2 H1. unfold pan_tolerance.
  destruct (sub_finite_inv _ _ H2) as [Hs1 Hq2].
  destruct (sub_finite_inv _ _ Hs1) as [Hc Hq1].
  destruct (div_finite_inv _ _ Hq1 Hw) as [Hd1 Hw0].
  destruct (div_finite_inv _ _ Hq2 Hw) as [Hd2 _].
  destruct (sub_finite_inv _ _ H1) as [_ Hq12].
  destruct (div_finite_inv _ _ Hq12 Hw) as [Hd12 _].
  pose proof (div_error d1 w Hd1 Hw Hw0 Hq1) as E1.
  pose proof (div_error d2 w Hd2 Hw Hw0 Hq2) as E2.
  pose proof (sub_error c (d1 / w) Hc Hq1 Hs1) as E3.
  pose proof (sub_error (c - d1 / w) (d2 / w) Hs1 Hq2 H2) as E4.
  pose proof (add_error d1 d2 Hd1 Hd2 Hd12) as E5.
  pose proof (div_error (d1 + d2) w Hd12 Hw Hw0 Hq12) as E6.
  pose proof (sub_error c ((d1 + d2) / w) Hc Hq12 H1) as E7.
  assert (Hu : (0 <= pow2 (-53))%R) by apply Rlt_le, pow2_pos.
  apply (Rabs_div_le _ _ (F2R w) _ Hw0 Hu) in E5.
  replace ((F2R (d1 + d2) - (F2R d1 + F2R d2)) / F2R w)%R
    with (F2R (d1 + d2) / F2R w - (F2R d1 / F2R w + F2R d2 / F2R w))%R in E5
    by (field; exact Hw0).
  replace ((F2R d1 + F2R d2) / F2R w)%R
    with (F2R d1 / F2R w + F2R d2 / F2R w)%R in E5 by (field; exact Hw0).
  rewrite pow2_m50, pow2_m1073. rewrite pow2_m53 in *.
  assert (Heta : (0 < pow2 (-1075))%R) by apply pow2_pos.
  set (eta := pow2 (-1075)) in *.
  set (C := F2R c) in *. set (Q1 := (F2R d1 / F2R w)%R) in *.
  set (Q2 := (F2R d2 / F2R w)%R) in *.
  set (q1 := F2R (d1 / w)) in *. set (q2 := F2R (d2 / w)) in *.
  set (s1 := F2R (c - d1 / w)) in *.
  set (r2 := F2R (c - d1 / w - d2 / w)) in *.
  set (Q12 := (F2R (d1 + d2) / F2R w)%R) in *.
  set (q12 := F2R ((d1 + d2) / w)) in *.
  set (r1 := F2R (c - (d1 + d2) / w)) in *.
  pose proof (Rabs_bounds C) as BC. pose proof (Rabs_bounds Q1) as BQ1.
  pose proof (Rabs_bounds Q2) as BQ2.
  set (a := Rabs C) in *. set (b1 := Rabs Q1) in *. set (b2 := Rabs Q2) in *.
  clearbody eta C Q1 Q2 q1 q2 s1 r2 Q12 q12 r1 a b1 b2.
  assert (Hu' : (0 <= / 9007199254740992)%R) by lra.
  clear - E1 E2 E3 E4 E5 E6 E7 Heta BC BQ1 BQ2 Hu'.
  apply Rabs_le_elim in E1, E2.
  assert (B3 : (Rabs (C - q1) <= a + b1 + (/ 9007199254740992 * b1 + eta))%R)
    by (apply Rabs_le; lra).
  assert (E3' := Rle_trans _ _ _ E3
                   (Rmult_le_compat_l _ _ _ Hu' B3)).
  apply Rabs_le_elim in E3'. clear E3.
  assert (B4 : (Rabs (s1 - q2)
                <= 1001 / 1000 * (a + b1 + b2) + 3 * eta)%R)
    by (apply Rabs_le; lra).
  assert (E4' := Rle_trans _ _ _ E4
                   (Rmult_le_compat_l _ _ _ Hu' B4)).
  apply Rabs_le_elim in E4'. clear E4.
  assert (B5 : (Rabs (Q1 + Q2) <= b1 + b2)%R) by (apply Rabs_le; lra).
  assert (E5' := Rle_trans _ _ _ E5
                   (Rmult_le_compat_l _ _ _ Hu' B5)).
  apply Rabs_le_elim in E5'. clear E5.
  assert (B6 : (Rabs Q12 <= 1001 / 1000 * (b1 + b2))%R)
    by (apply Rabs_le; lra).
  assert (E6' : (Rabs (q12 - Q12)
                 <= / 9007199254740992 * (1001 / 1000 * (b1 + b2)) + eta)%R)
    by (pose proof (Rmult_le_compat_l _ _ _ Hu' B6); lra).
  apply Rabs_le_elim in E6'. clear E6.
  assert (B7 : (Rabs (C - q12) <= a + 101 / 100 * (b1 + b2) + 2 * eta)%R)
    by (apply Rabs_le; lra).
  assert (E7' := Rle_trans _ _ _ E7
                   (Rmult_le_compat_l _ _ _ Hu' B7)).
  apply Rabs_le_elim in E7'. clear E7.
  apply Rabs_le. lra.
Qed.

(** ** The bailout test *)

(** Swapping the operands of a comparison reverses its result. *)
Lemma SFcompare_swap (X Y : spec_float) :
  SFcompare Y X = option_map CompOpp (SFcompare X Y).
Proof.
  destruct X as [sx|[|]| |[|] mx ex], Y as [sy|[|]| |[|] my ey];
    try reflexivity; cbn [SFcompare option_map];
    rewrite (Z.compare_antisym ex ey);
    destruct (ex ?= ey) eqn:E; cbn [CompOpp]; try reflexivity;
    rewrite (Pos.compare_cont_antisym mx my Eq); cbn [CompOpp];
    try rewrite CompOpp_involutive; reflexivity.
Qed.

(** The bailout test fails exactly when the squared magnitude is below the
    threshold or is NaN. *)
Lemma bailout_false_iff (a b : float) :
  bailout a b = false
  <-> (a + b <? 4)%float = true \/ is_nan (a + b) = true.
Proof.
  unfold bailout, is_nan.
  rewrite FloatAxioms.leb_spec, FloatAxioms.ltb_spec, FloatAxioms.eqb_spec.
  unfold SFleb, SFltb. rewrite (SFcompare_swap _ (Prim2SF (a + b))).
  replace (Prim2SF 4) with (S754_finite false 4503599627370496 (-50))
    by (vm_compute; reflexivity).
  destruct (Prim2SF (a + b)) as [s|[|]| |[|] m e] eqn:E;
    try rewrite SFeqb_refl by discriminate;
    cbn [SFcompare option_map negb SFeqb CompOpp].
  all: try (destruct (-50 ?= e);
            [destruct (Pos.compare_cont Eq 4503599627370496 m)| |]).
  all: cbn [CompOpp].
  all: split; [intros H; try discriminate H; auto
              | intros [H|H]; try discriminate H; reflexivity].
Qed.

(** ** The viewport *)

Lemma pixel_real_center (m : Mandelbrot) :
  pixel_real m (WIDTH / 2)
  = (0 / (0.5 * zoom m * 800) + centerX m)%float.
Proof. reflexivity. Qed.

Lemma pixel_imag_center (m : Mandelbrot) :
  pixel_imag m (HEIGHT / 2)
  = (0 / (0.5 * zoom m * 800) + centerY m)%float.
Proof. reflexivity. Qed.

(** The denominator of the transform is positive for every zoom from
    [2^-1073] up. *)
Lemma scale_positive (z : float) :
  (0x1p-1073 <=? z)%float = true ->
  positive_double (0.5 * z * 800) = true.
Proof.
  intros Hz. destruct (leb_min_normal_scale z Hz) as [Hp Hge].
  assert (Hhalf : positive_double (0.5 * z) = true).
  { apply mul_positive; [vm_compute; reflexivity | exact Hp |].
    intros _ Hf. specialize (Hge Hf).
    replace (F2R 0.5) with (/ 2)%R.
    - replace (-1073) with (-1075 + 2) in Hge by lia.
      rewrite pow2_add, (pow2_IZR 2) in Hge by lia. simpl in Hge.
      pose proof (pow2_pos (-1075)). lra.
    - unfold F2R. replace (Prim2SF 0.5)
        with (S754_finite false 4503599627370496 (-53))
        by (vm_compute; reflexivity).
      unfold SF2R. rewrite (pow2_neg_IZR 53).
      change (2 ^ 53) with 9007199254740992. lra. }
  apply mul_positive; [exact Hhalf | vm_compute; reflexivity |].
  intros Hf _. pose proof (positive_double_ge _ Hhalf Hf) as Hge'.
  replace (F2R 800) with 800%R.
  - replace (-1074) with (-1075 + 1) in Hge' by lia. rewrite pow2_succ in Hge'.
    pose proof (pow2_pos (-1075)). lra.
  - unfold F2R. replace (Prim2SF 800)
      with (S754_finite false 7036874417766400 (-43))
      by (vm_compute; reflexivity).
    unfold SF2R. rewrite (pow2_neg_IZR 43).
    change (2 ^ 43) with 8796093022208. lra.
Qed.

(** Adding [+0] to a number gives the same number. *)
Lemma add_zero_l_same (c : float) : same_number (0 + c)%float c.
Proof.
  destruct (is_nan c) eqn:E; [right | left; now apply add_zero_l].
  split; [|exact E]. unfold is_nan in *.
  apply negb_true_iff in E. apply negb_true_iff.
  rewrite FloatAxioms.eqb_spec in *.
  rewrite FloatAxioms.add_spec, Prim2SF_zero.
  destruct (Prim2SF c) as [[|]|[|]| |s m e]; try discriminate E;
    try reflexivity.
  rewrite SFeqb_refl in E by discriminate. discriminate E.
Qed.

(** The finite positive numbers are the positive multiples of [2^-1074]. *)
Lemma positive_double_grid (x : float) :
  positive_double x = true -> finite x = true ->
  exists n : Z, 1 <= n /\ F2R x = (IZR n * pow2 (-1074))%R.
Proof.
  unfold positive_double, finite, F2R. pose proof (Prim2SF_valid x) as Hv.
  destruct (Prim2SF x) as [|[|]| |[|] m e]; try discriminate. intros _ _.
  apply bounded_canonical in Hv as (He & _).
  change (SpecFloat.emin prec emax) with (-1074) in He.
  exists (Z.pos m * 2 ^ (e + 1074)). split.
  - assert (0 < 2 ^ (e + 1074)) by (apply Z.pow_pos_nonneg; lia). nia.
  - unfold SF2R. rewrite mult_IZR, <- pow2_IZR by lia.
    rewrite Rmult_assoc, <- pow2_add. f_equal. f_equal. lia.
Qed.

(** Comparison with a subnormal constant [k * 2^-1074]. *)
Lemma leb_subnormal (c x : float) (k : positive) :
  Prim2SF c = S754_finite false k (-1074) -> Z.pos k < 2 ^ 52 ->
  (c <=? x)%float = true
  <-> positive_double x = true
      /\ (finite x = true -> (IZR (Z.pos k) * pow2 (-1074) <= F2R x)%R).
Proof.
  intros Hc Hk. rewrite FloatAxioms.leb_spec, Hc.
  unfold positive_double, finite, F2R. pose proof (Prim2SF_valid x) as Hv.
  pose proof (pow2_pos (-1074)) as Hulp.
  destruct (Prim2SF x) as [s|[|]| |[|] m e].
  - split; [discriminate | intros [H _]; discriminate H].
  - split; [discriminate | intros [H _]; discriminate H].
  - split; [intros _; split; [reflexivity | discriminate] | reflexivity].
  - split; [discriminate | intros [H _]; discriminate H].
  - split; [discriminate | intros [H _]; discriminate H].
  - apply bounded_canonical in Hv as (He & Hd & Hcan).
    change (SpecFloat.emin prec emax) with (-1074) in *.
    change prec with 53 in *.
    unfold SFleb, SFcompare, SF_positive, SF_finite, SF2R.
    destruct (Z.compare_spec (-1074) e) as [Heq | Hlt | Hgt]; [| |lia].
    + rewrite <- Heq.
      change (Pos.compare_cont Eq k m) with (Pos.compare k m).
      destruct (Pos.compare_spec k m) as [Hkm | Hkm | Hkm].
      * split; [|reflexivity]. intros _. split; [reflexivity|]. intros _.
        rewrite Hkm. lra.
      * split; [|reflexivity]. intros _. split; [reflexivity|]. intros _.
        apply Rmult_le_compat_r; [lra|]. apply IZR_le. lia.
      * split; [discriminate|]. intros [_ H]. specialize (H eq_refl).
        apply Rmult_le_reg_r in H; [|exact Hulp]. apply le_IZR in H. lia.
    + split; [|reflexivity]. intros _. split; [reflexivity|]. intros _.
      assert (Hdig : Zdigits2 (Z.pos m) = 53) by lia.
      pose proof (Zdigits2_bounds (Z.pos m) ltac:(lia)) as [Hlo _].
      rewrite Hdig in Hlo. change (2 ^ (53 - 1)) with (2 ^ 52) in Hlo.
      apply Rle_trans with (IZR (Z.pos m) * pow2 (-1074))%R.
      * apply Rmult_le_compat_r; [lra|]. apply IZR_le. lia.
      * apply Rmult_le_compat_l; [apply IZR_le; lia|]. apply pow2_le. lia.
Qed.

Lemma Prim2SF_zoom_floor : Prim2SF zoom_floor = S754_finite false 5 (-1074).
Proof. vm_compute. reflexivity. Qed.

Lemma Prim2SF_min_scale : Prim2SF 0x1p-1073 = S754_finite false 2 (-1074).
Proof. vm_compute. reflexivity. Qed.

(** From [zoom_floor] up, the denominator of the transform is positive. *)
Lemma zoom_floor_scale (z : float) :
  (zoom_floor <=? z)%float = true -> (0x1p-1073 <=? z)%float = true.
Proof.
  intros H.
  apply (leb_subnormal _ _ 5 Prim2SF_zoom_floor ltac:(reflexivity)) in H
    as [Hp Hge].
  apply (leb_subnormal _ _ 2 Prim2SF_min_scale ltac:(reflexivity)).
  split; [exact Hp|]. intros Hf. specialize (Hge Hf).
  pose proof (pow2_pos (-1074)). lra.
Qed.

(** Neither factor of the wheel takes the zoom below [zoom_floor]: a zoom
    of [5 * 2^-1074] times [1 / 1.1] rounds back to [5 * 2^-1074]. *)
Lemma zoom_floor_mul (z f : float) :
  (zoom_floor <=? z)%float = true ->
  f = c_1_1 \/ f = (1 / c_1_1)%float ->
  (zoom_floor <=? z * f)%float = true.
Proof.
  intros Hz Hf.
  apply (leb_subnormal _ _ 5 Prim2SF_zoom_floor ltac:(reflexivity)) in Hz
    as [Hp Hge].
  pose proof (pow2_pos (-1074)) as Hulp.
  assert (Hulp' : pow2 (-1074) = (2 * pow2 (-1075))%R).
  { replace (-1074) with (-1075 + 1) by lia. apply pow2_succ. }
  assert (Hfacts : positive_double f = true /\ finite f = true
                   /\ (909 / 1000 <= F2R f <= 11 / 10 + 1 / 1000)%R).
  { destruct Hf as [-> | ->].
    - split; [vm_compute; reflexivity|]. split; [vm_compute; reflexivity|].
      rewrite F2R_c_1_1. lra.
    - split; [vm_compute; reflexivity|]. split; [vm_compute; reflexivity|].
      rewrite F2R_inv_c_1_1. lra. }
  destruct Hfacts as (Hfp & Hff & Hfr).
  assert (Hprod : finite z = true ->
                  (4545 / 1000 * pow2 (-1074) <= F2R z * F2R f)%R).
  { intros Hzf. specialize (Hge Hzf).
    apply Rle_trans with (5 * pow2 (-1074) * (909 / 1000))%R; [lra|].
    apply Rmult_le_compat; lra. }
  assert (Hpos : positive_double (z * f) = true).
  { apply mul_positive; [exact Hp | exact Hfp |]. intros Hzf _.
    specialize (Hprod Hzf). lra. }
  apply (leb_subnormal _ _ 5 Prim2SF_zoom_floor ltac:(reflexivity)).
  split; [exact Hpos|]. intros Hfin.
  destruct (mul_finite_inv _ _ Hfin) as [Hzf _].
  specialize (Hprod Hzf).
  pose proof (mul_error z f Hzf Hff Hfin) as Herr.
  rewrite pow2_m53 in Herr.
  assert (Hp0 : (0 <= F2R z * F2R f)%R) by lra.
  rewrite (Rabs_pos_eq _ Hp0) in Herr.
  apply Rabs_le_elim in Herr.
  destruct (positive_double_grid _ Hpos Hfin) as (n & Hn & Hgrid).
  rewrite Hgrid in *.
  assert (Hn4 : (4 * pow2 (-1074) < IZR n * pow2 (-1074))%R) by lra.
  apply Rmult_lt_reg_r in Hn4; [|exact Hulp]. apply lt_IZR in Hn4.
  apply Rmult_le_compat_r; [lra|]. apply IZR_le. lia.
Qed.

(** The zoom of a view of the program is at least [zoom_floor]; it is never
    zero, negative or NaN. *)
Lemma reachable_zoom_floor (m : Mandelbrot) :
  reachable m -> (zoom_floor <=? zoom m)%float = true.
Proof.
  induction 1 as [|wheel_y m _ IH|dx dy m _ IH].
  - vm_compute. reflexivity.
  - unfold apply_wheel; cbn [zoom]. apply zoom_floor_mul; [exact IH|].
    destruct (0 <? wheel_y)%float; auto.
  - exact IH.
Qed.

(** For a zoom of at least [2^-1073], the centre pixel is mapped to the
    centre. *)
Lemma center_pixel_same (m : Mandelbrot) :
  (0x1p-1073 <=? zoom m)%float = true ->
  same_number (pixel_real m (WIDTH / 2)) (centerX m)
  /\ same_number (pixel_imag m (HEIGHT / 2)) (centerY m).
Proof.
  intros Hz. rewrite pixel_real_center, pixel_imag_center.
  rewrite (div_zero_positive _ (scale_positive _ Hz)).
  split; apply add_zero_l_same.
Qed.
(** C7: for every pixel and every view the constant fed to the kernel is
    [(x - WIDTH/2) / (0.5 * zoom * WIDTH) + centerX] and
    [(y - HEIGHT/2) / (0.5 * zoom * HEIGHT) + centerY]; the centre pixel is
    mapped to the centre for every view with a zoom of at least [2^-1073],
    and so for every view the program produces: their zoom is never below
    [5 * 2^-1074]. *)
Theorem center_pixel_maps_to_center :
  (forall (m : Mandelbrot) (x y : Z),
      pixel_iter m x y
      = escape_iter MAX_ITER
          ((double_of_int x - 400) / (0.5 * zoom m * 800) + centerX m)%float
          ((double_of_int y - 400) / (0.5 * zoom m * 800) + centerY m)%float)
  /\ (forall m : Mandelbrot,
        (0x1p-1073 <=? zoom m)%float = true ->
        same_number (pixel_real m (WIDTH / 2)) (centerX m)
        /\ same_number (pixel_imag m (HEIGHT / 2)) (centerY m))
  /\ (forall m : Mandelbrot,
        reachable m ->
        (zoom_floor <=? zoom m)%float = true
        /\ same_number (pixel_real m (WIDTH / 2)) (centerX m)
        /\ same_number (pixel_imag m (HEIGHT / 2)) (centerY m)).
Proof.
  split; [reflexivity|]. split; [exact center_pixel_same|].
  intros m Hm. pose proof (reachable_zoom_floor m Hm) as Hz.
  split; [exact Hz|]. apply center_pixel_same, zoom_floor_scale, Hz.
Qed.

(** The bound on the zoom cannot be lowered: at [2^-1074], the one positive
    zoom below [2^-1073], [0.5 * zoom] is zero and the centre pixel is
    mapped to NaN.  No view of the program has this zoom. *)
Lemma center_pixel_nan_at_smallest_zoom :
  let m := {| centerX := (-0.5)%float; centerY := 0%float;
              zoom := 0x1p-1074%float |} in
  (0 <? zoom m)%float = true
  /\ is_nan (pixel_real m (WIDTH / 2)) = true
  /\ (pixel_real m (WIDTH / 2) =? centerX m)%float = false.
Proof. vm_compute. auto. Qed.

Lemma center_pixel_maps_to_center_witness :
  (zoom_floor <=? zoom (pan 3 4 (zoom_out initial_view)))%float = true
  /\ same_number (pixel_real (pan 3 4 (zoom_out initial_view)) (WIDTH / 2))
       (centerX (pan 3 4 (zoom_out initial_view)))
  /\ same_number (pixel_imag (pan 3 4 (zoom_out initial_view)) (HEIGHT / 2))
       (centerY (pan 3 4 (zoom_out initial_view))).
Proof.
  destruct center_pixel_maps_to_center as (_ & _ & H). apply H.
  apply reachable_pan. apply (reachable_wheel (-1)). apply reachable_initial.
Defined.

Lemma zoom_zoom_in (m : Mandelbrot) :
  zoom (zoom_in m) = (zoom m * c_1_1)%float.
Proof. reflexivity. Qed.

Lemma zoom_zoom_out (m : Mandelbrot) :
  zoom (zoom_out m) = (zoom m * (1 / c_1_1))%float.
Proof. reflexivity. Qed.

(** C8, amended: whenever zooming in does not overflow, zooming in and then
    out gives a finite zoom within [2^-51 * |z| + 2^-1074] of the zoom [z]
    it started from, and leaves the centre alone. *)
Theorem zoom_in_out_restores (m : Mandelbrot) :
  finite (zoom (zoom_in m)) = true ->
  finite (zoom (zoom_out (zoom_in m))) = true
  /\ (Rabs (F2R (zoom (zoom_out (zoom_in m))) - F2R (zoom m))
      <= zoom_tolerance (zoom m))%R
  /\ centerX (zoom_out (zoom_in m)) = centerX m
  /\ centerY (zoom_out (zoom_in m)) = centerY m.
Proof.
  intros Hfin.
  cut (finite (zoom (zoom_out (zoom_in m))) = true
       /\ (Rabs (F2R (zoom (zoom_out (zoom_in m))) - F2R (zoom m))
           <= zoom_tolerance (zoom m))%R);
    [intros [H1 H2]; repeat split; assumption|].
  revert Hfin. unfold zoom_tolerance.
  rewrite zoom_zoom_out, zoom_zoom_in. set (z := zoom m).
  set (a := (z * c_1_1)%float). intros Ha.
  destruct (mul_finite_inv z c_1_1 Ha) as [Hz Hc1].
  assert (Hc2 : finite (1 / c_1_1) = true) by (vm_compute; reflexivity).
  pose proof (mul_error z c_1_1 Hz Hc1 Ha) as E1. fold a in E1.
  pose proof (finite_lt_pow2_emax a) as HA.
  assert (Heta : (0 < pow2 (-1075) < 1)%R).
  { split; [apply pow2_pos|]. rewrite <- pow2_0. apply pow2_lt. lia. }
  assert (HP : (16 <= pow2 1024)%R).
  { replace 16%R with (pow2 4) by (rewrite (pow2_IZR 4) by lia; simpl; lra).
    apply pow2_le. lia. }
  assert (H51 : pow2 (-51) = (4 * pow2 (-53))%R).
  { replace (-51) with (-53 + 2) by lia. rewrite pow2_add.
    rewrite (pow2_IZR 2) by lia. simpl. lra. }
  assert (H1074 : pow2 (-1074) = (2 * pow2 (-1075))%R).
  { replace (-1074) with (-1075 + 1) by lia. rewrite pow2_succ. lra. }
  rewrite H51, H1074. clear H51 H1074.
  rewrite Rabs_mult, F2R_c_1_1 in E1.
  rewrite (Rabs_pos_eq (4953959590107546 / 4503599627370496)) in E1 by lra.
  assert (Hb : finite (a * (1 / c_1_1)) = true).
  { apply mul_finite; auto. rewrite Rabs_mult, F2R_inv_c_1_1.
    rewrite (Rabs_pos_eq (8188362958855447 / 9007199254740992)) by lra.
    rewrite pow2_m53. pose proof (Rabs_pos (F2R a)). lra. }
  split; [exact Hb|].
  pose proof (mul_error a (1 / c_1_1) Ha Hc2 Hb) as E2.
  rewrite Rabs_mult, F2R_inv_c_1_1 in E2.
  rewrite (Rabs_pos_eq (8188362958855447 / 9007199254740992)) in E2 by lra.
  rewrite pow2_m53 in *.
  set (Z := F2R z) in *. set (A := F2R a) in *.
  set (B := F2R (a * (1 / c_1_1))) in *. set (eta := pow2 (-1075)) in *.
  clearbody Z A B eta. clear -E1 E2 Heta.
  unfold Rabs in *.
  repeat match goal with
         | |- context [Rcase_abs ?t] => destruct (Rcase_abs t)
         | H : context [Rcase_abs ?t] |- _ => destruct (Rcase_abs t)
         end; lra.
Qed.

Lemma zoom_in_out_restores_witness :
  finite (zoom (zoom_out (zoom_in initial_view))) = true
  /\ (Rabs (F2R (zoom (zoom_out (zoom_in initial_view)))
            - F2R (zoom initial_view))
      <= zoom_tolerance (zoom initial_view))%R
  /\ centerX (zoom_out (zoom_in initial_view)) = centerX initial_view
  /\ centerY (zoom_out (zoom_in initial_view)) = centerY initial_view.
Proof. apply (zoom_in_out_restores initial_view). vm_compute. reflexivity. Defined.

(** C8 as stated fails: from the largest finite zoom, zooming in overflows
    to [+infinity] and zooming out leaves it there. *)
Lemma zoom_in_out_overflows :
  let m := {| centerX := (-0.5)%float; centerY := 0%float;
              zoom := 0x1.fffffffffffffp+1023%float |} in
  (0 <? zoom m)%float = true
  /\ finite (zoom m) = true
  /\ zoom (zoom_out (zoom_in m)) = infinity.
Proof. vm_compute. auto. Qed.

(** C9 as stated fails: at the smallest positive zoom a move by one pixel
    sends the centre to an infinity, and the move back makes it NaN, while
    the single move by the sum of the two leaves the centre where it was. *)
Lemma pan_back_and_forth_gives_nan :
  let m := {| centerX := (-0.5)%float; centerY := 0%float;
              zoom := 0x1p-1074%float |} in
  (0 <? zoom m)%float = true
  /\ is_nan (centerX (pan (-1) 0 (pan 1 0 m))) = true
  /\ centerX (pan (1 + -1) (0 + 0) m) = centerX m.
Proof. vm_compute. auto. Qed.

(** C9, amended: when the scale [zoom * WIDTH] (resp. [zoom * HEIGHT]) and
    the resulting coordinates are finite, the centre after [pan dx1 dy1]
    followed by [pan dx2 dy2] differs from the centre after
    [pan (dx1 + dx2) (dy1 + dy2)] by at most [2^-50] times the sum of the
    magnitudes of the old coordinate and of the two displacements, plus
    [2^-1073]; the zoom is the same. *)
Theorem pan_linear_within_tolerance
    (m : Mandelbrot) (dx1 dy1 dx2 dy2 : float) :
  finite (zoom m * double_of_int WIDTH) = true ->
  finite (zoom m * double_of_int HEIGHT) = true ->
  finite (centerX (pan dx2 dy2 (pan dx1 dy1 m))) = true ->
  finite (centerY (pan dx2 dy2 (pan dx1 dy1 m))) = true ->
  finite (centerX (pan (dx1 + dx2) (dy1 + dy2) m)) = true ->
  finite (centerY (pan (dx1 + dx2) (dy1 + dy2) m)) = true ->
  zoom (pan dx2 dy2 (pan dx1 dy1 m)) = zoom (pan (dx1 + dx2) (dy1 + dy2) m)
  /\ (Rabs (F2R (centerX (pan dx2 dy2 (pan dx1 dy1 m)))
            - F2R (centerX (pan (dx1 + dx2) (dy1 + dy2) m)))
      <= pan_tolerance (centerX m) dx1 dx2 (zoom m * double_of_int WIDTH))%R
  /\ (Rabs (F2R (centerY (pan dx2 dy2 (pan dx1 dy1 m)))
            - F2R (centerY (pan (dx1 + dx2) (dy1 + dy2) m)))
      <= pan_tolerance (centerY m) dy1 dy2 (zoom m * double_of_int HEIGHT))%R.
Proof.
  intros HwX HwY HX2 HY2 HX1 HY1. split; [reflexivity|]. split.
  - exact (pan_axis_linear (centerX m) dx1 dx2 _ HwX HX2 HX1).
  - exact (pan_axis_linear (centerY m) dy1 dy2 _ HwY HY2 HY1).
Qed.

Lemma pan_linear_within_tolerance_witness :
  zoom (pan 5 (-2) (pan 3 4 initial_view))
  = zoom (pan (3 + 5) (4 + -2) initial_view)
  /\ (Rabs (F2R (centerX (pan 5 (-2) (pan 3 4 initial_view)))
            - F2R (centerX (pan (3 + 5) (4 + -2) initial_view)))
      <= pan_tolerance (centerX initial_view) 3 5
           (zoom initial_view * double_of_int WIDTH))%R
  /\ (Rabs (F2R (centerY (pan 5 (-2) (pan 3 4 initial_view)))
            - F2R (centerY (pan (3 + 5) (4 + -2) initial_view)))
      <= pan_tolerance (centerY initial_view) 4 (-2)
           (zoom initial_view * double_of_int HEIGHT))%R.
Proof.
  apply (pan_linear_within_tolerance initial_view 3 4 5 (-2));
    vm_compute; reflexivity.
Defined.

(** * Further properties of the code *)

(** ** More on the escape-time kernel *)

(** With a smaller allowance the search for the first escape is cut short
    and otherwise unchanged. *)
Lemma steps_to_escape_min (real imag : float) (a b : nat) :
  forall z : float * float,
    (a <= b)%nat ->
    steps_to_escape real imag a z
    = Nat.min a (steps_to_escape real imag b z).
Proof.
  revert b. induction a as [|a IH]; intros b z Hab; [reflexivity|].
  destruct b as [|b]; [lia|]. cbn [steps_to_escape].
  destruct (escaped z); [reflexivity|].
  rewrite (IH b) by lia. reflexivity.
Qed.

(** X1: lowering the cap clips the count and changes nothing else. *)
Theorem escape_iter_cap_clips (M M' : Z) (real imag : float) :
  0 <= M <= M' ->
  exists n' : Z,
    escape_iter M' real imag = Some n'
    /\ escape_iter M real imag = Some (Z.min M n').
Proof.
  intros HM. rewrite !escape_iter_steps. eexists. split; [reflexivity|].
  f_equal. rewrite (steps_to_escape_min real imag (Z.to_nat M) (Z.to_nat M'))
    by lia.
  lia.
Qed.

Lemma escape_iter_cap_clips_witness :
  exists n' : Z,
    escape_iter 1000 (-1.5)%float (-1)%float = Some n'
    /\ escape_iter 1 (-1.5)%float (-1)%float = Some (Z.min 1 n').
Proof. apply (escape_iter_cap_clips 1 1000). lia. Defined.

(** The origin, where every orbit starts, is inside the bailout circle. *)
Lemma origin_not_escaped : escaped (0%float, 0%float) = false.
Proof. vm_compute. reflexivity. Qed.


(** *** NaN *)

Lemma is_nan_Prim2SF (x : float) :
  is_nan x = true <-> Prim2SF x = S754_nan.
Proof.
  unfold is_nan. rewrite negb_true_iff, FloatAxioms.eqb_spec. split.
  - intros H. destruct (Prim2SF x) as [s|s| |s m e]; try reflexivity;
      rewrite SFeqb_refl in H by discriminate; discriminate H.
  - intros ->. reflexivity.
Qed.

Lemma is_nan_mul (x y : float) :
  is_nan x = true \/ is_nan y = true -> is_nan (x * y) = true.
Proof.
  rewrite !is_nan_Prim2SF, FloatAxioms.mul_spec. intros [-> | ->].
  - reflexivity.
  - destruct (Prim2SF x) as [s|s| |s m e]; reflexivity.
Qed.

Lemma is_nan_add (x y : float) :
  is_nan x = true \/ is_nan y = true -> is_nan (x + y) = true.
Proof.
  rewrite !is_nan_Prim2SF, FloatAxioms.add_spec. intros [-> | ->].
  - reflexivity.
  - destruct (Prim2SF x) as [s|s| |s m e]; reflexivity.
Qed.

Lemma is_nan_sub (x y : float) :
  is_nan x = true \/ is_nan y = true -> is_nan (x - y) = true.
Proof.
  rewrite !is_nan_Prim2SF, FloatAxioms.sub_spec. intros [-> | ->].
  - reflexivity.
  - destruct (Prim2SF x) as [s|s| |s m e]; reflexivity.
Qed.

Lemma bailout_nan (a b : float) :
  is_nan a = true \/ is_nan b = true -> bailout a b = false.
Proof.
  intros H. apply bailout_false_iff. right. now apply is_nan_add.
Qed.

(** A point with a NaN coordinate has not escaped, and its successor has a
    NaN coordinate again. *)
Lemma nan_point_stays (real imag : float) (z : float * float) :
  is_nan (fst z) = true \/ is_nan (snd z) = true ->
  escaped z = false
  /\ is_nan (fst (mandel_step real imag z)) = true.
Proof.
  intros H. split.
  - unfold escaped. apply bailout_nan.
    destruct H as [H | H]; [left | right]; apply is_nan_mul; auto.
  - unfold mandel_step; cbn [fst snd]. apply is_nan_add. left.
    apply is_nan_sub. destruct H as [H | H]; [left | right];
      apply is_nan_mul; auto.
Qed.

Lemma steps_to_escape_nan (real imag : float) (rem : nat) :
  forall z : float * float,
    is_nan (fst z) = true \/ is_nan (snd z) = true ->
    steps_to_escape real imag rem z = rem.
Proof.
  induction rem as [|rem IH]; intros z H; [reflexivity|].
  cbn [steps_to_escape].
  destruct (nan_point_stays real imag z H) as [-> Hn].
  rewrite IH; auto.
Qed.

(** X3: a pixel whose constant has a NaN coordinate never passes the bailout
    test: its count is the cap. *)
Theorem escape_iter_nan (MaxIter : Z) (real imag : float) :
  0 <= MaxIter ->
  is_nan real = true \/ is_nan imag = true ->
  escape_iter MaxIter real imag = Some MaxIter.
Proof.
  intros HM H. rewrite escape_iter_steps. f_equal.
  destruct (Z.to_nat MaxIter) as [|n] eqn:E; [cbn; lia|].
  cbn [steps_to_escape]. rewrite origin_not_escaped.
  rewrite steps_to_escape_nan; [lia|].
  unfold mandel_step; cbn [fst snd].
  destruct H as [H | H]; [left | right].
  - apply is_nan_add. right. exact H.
  - apply is_nan_add. right. apply is_nan_add. right. exact H.
Qed.

Lemma escape_iter_nan_witness :
  escape_iter 1000 nan 0%float = Some 1000.
Proof.
  apply (escape_iter_nan 1000 nan 0%float); [lia | left; reflexivity].
Defined.

(** *** The first point of the orbit *)

(** Adding [+0] changes nothing but the sign of [-0]. *)
Lemma add_zero_l_cases (c : float) :
  (0 + c)%float = c \/ (Prim2SF c = S754_zero true /\ (0 + c)%float = 0%float).
Proof.
  destruct (Prim2SF c) as [[|]|s| |s m e] eqn:E.
  - right. split; [reflexivity|]. apply Prim2SF_inj.
    rewrite FloatAxioms.add_spec, E. reflexivity.
  - left. apply Prim2SF_inj. rewrite FloatAxioms.add_spec, E. reflexivity.
  - left. apply Prim2SF_inj. rewrite FloatAxioms.add_spec, E. reflexivity.
  - left. apply Prim2SF_inj. rewrite FloatAxioms.add_spec, E. reflexivity.
  - left. apply Prim2SF_inj. rewrite FloatAxioms.add_spec, E. reflexivity.
Qed.

Lemma add_zero_l_square (c : float) :
  ((0 + c) * (0 + c))%float = (c * c)%float.
Proof.
  destruct (add_zero_l_cases c) as [-> | [E ->]]; [reflexivity|].
  apply Prim2SF_inj. rewrite !FloatAxioms.mul_spec, E. reflexivity.
Qed.

Lemma add_zero_l_twice (c : float) : (0 + (0 + c))%float = (0 + c)%float.
Proof.
  destruct (add_zero_l_cases c) as [H | [E H]]; rewrite !H; reflexivity.
Qed.

(** The first step from the origin lands on [c], up to the sign of a
    zero. *)
Lemma mandel_step_origin (real imag : float) :
  mandel_step real imag (0%float, 0%float)
  = ((0 + real)%float, (0 + imag)%float).
Proof.
  unfold mandel_step; cbn [fst snd].
  change (0 * 0 - 0 * 0)%float with 0%float.
  change (0 * 0)%float with 0%float.
  now rewrite add_zero_l_twice.
Qed.

(** X4: with a cap of at least [2], the count is [1] exactly when [c] itself
    passes the bailout test. *)
Theorem escape_iter_one_iff (MaxIter : Z) (real imag : float) :
  2 <= MaxIter ->
  (escape_iter MaxIter real imag = Some 1
   <-> bailout (real * real) (imag * imag) = true).
Proof.
  intros HM. rewrite escape_iter_steps.
  destruct (Z.to_nat MaxIter) as [|[|n]] eqn:E; try lia.
  cbn [steps_to_escape]. rewrite origin_not_escaped, mandel_step_origin.
  unfold escaped; cbn [fst snd]. rewrite !add_zero_l_square.
  destruct (bailout _ _); split; intros H; try reflexivity;
    try discriminate H.
  injection H as H. lia.
Qed.

Lemma escape_iter_one_iff_witness :
  escape_iter 1000 2 0 = Some 1 <-> bailout (2 * 2) (0 * 0) = true.
Proof. apply (escape_iter_one_iff 1000 2 0). lia. Defined.

(** ** The mirror symmetry of the kernel *)

Local Abbreviation uz := unsigned_zero.







Lemma SFopp_uz (X X' : spec_float) : uz X = uz X' -> uz (SFopp X) = uz (SFopp X').
Proof.
  intros HX.
  destruct X as [sx|sx| |sx mx ex], X' as [sx'|sx'| |sx' mx' ex'];
    try discriminate HX; cbn [unsigned_zero] in HX;
    try (inversion HX; clear HX); subst;
    reflexivity.
Qed.








Lemma sim_opp (a a' : float) : sim a a' -> sim (- a) (- a').
Proof.
  unfold sim. rewrite !FloatAxioms.opp_spec. apply SFopp_uz.
Qed.










(** ** The pixel buffer *)

Lemma store_Some (i v : Z) (p p' : list Z) :
  store i v p = Some p' ->
  0 <= i < Z.of_nat (length p) /\ p' = <[Z.to_nat i := v]> p.
Proof.
  unfold store.
  destruct (Z.leb_spec 0 i), (Z.ltb_spec i (Z.of_nat (length p)));
    cbn [andb]; intros Hs; try discriminate Hs.
  injection Hs as <-. split; [lia | reflexivity].
Qed.

Lemma store_defined (i v : Z) (p : list Z) :
  0 <= i < Z.of_nat (length p) -> store i v p = Some (<[Z.to_nat i := v]> p).
Proof.
  intros H. unfold store.
  destruct (Z.leb_spec 0 i), (Z.ltb_spec i (Z.of_nat (length p)));
    cbn [andb]; try lia; reflexivity.
Qed.

Section RenderFacts.
Variable palette : list Z.
Variable m : Mandelbrot.

(** One pass of the column loop stores the colour of the pixel. *)
Lemma columns_for_S (n : nat) (x y : Z) (pixels : list Z) :
  columns_for palette m (S n) y (pixel_imag m y) x pixels
  = match pixel_color palette m x y with
    | Some c =>
        match store (y * WIDTH + x) c pixels with
        | Some pixels' =>
            columns_for palette m n y (pixel_imag m y) (x + 1) pixels'
        | None => None
        end
    | None => None
    end.
Proof.
  cbn [columns_for]. unfold pixel_color, pixel_iter.
  rewrite escape_iter_steps. unfold load.
  destruct (Z.leb_spec 0 (Z.of_nat (steps_to_escape (pixel_real m x)
                                      (pixel_imag m y) (Z.to_nat MAX_ITER)
                                      (0%float, 0%float))));
    [reflexivity | lia].
Qed.

(** The column loop stores the colour of pixel [(x', y)] at index
    [y * WIDTH + x'] for every column [x'] it visits and leaves the other
    cells alone. *)
Lemma columns_for_spec (n : nat) (y : Z) :
  forall (x : Z) (pixels pixels' : list Z),
    columns_for palette m n y (pixel_imag m y) x pixels = Some pixels' ->
    length pixels' = length pixels
    /\ ((0 < n)%nat ->
        0 <= y * WIDTH + x
        /\ y * WIDTH + x + Z.of_nat n <= Z.of_nat (length pixels))
    /\ (forall x', x <= x' < x + Z.of_nat n ->
          pixels' !! Z.to_nat (y * WIDTH + x') = pixel_color palette m x' y)
    /\ (forall j : nat,
          ~ (y * WIDTH + x <= Z.of_nat j < y * WIDTH + x + Z.of_nat n) ->
          pixels' !! j = pixels !! j).
Proof.
  induction n as [|n IH]; intros x pixels pixels' H.
  - cbn [columns_for] in H. injection H as <-.
    split; [reflexivity|]. split; [lia|].
    split; [intros x' Hx'; lia | intros j _; reflexivity].
  - rewrite columns_for_S in H.
    destruct (pixel_color palette m x y) as [c|] eqn:Hc; [|discriminate H].
    destruct (store (y * WIDTH + x) c pixels) as [p1|] eqn:Hst;
      [|discriminate H].
    apply store_Some in Hst as [Hi Hp1]. rewrite Hp1 in H. clear Hp1 p1.
    apply IH in H as (Hlen & Hb & Hin & Hout).
    rewrite length_insert in Hlen, Hb.
    split; [exact Hlen|]. split; [|split].
    + intros _. destruct n as [|n]; [lia|].
      specialize (Hb ltac:(lia)). lia.
    + intros x' Hx'. destruct (Z.eq_dec x' x) as [Heq | Hne].
      * rewrite Heq, Hout by lia.
        rewrite list_lookup_insert_eq by lia. symmetry. exact Hc.
      * apply Hin. lia.
    + intros j Hj. rewrite Hout by lia.
      apply list_lookup_insert_ne. lia.
Qed.

(** The column loop completes when the cells it stores to lie inside the
    buffer and the palette has an entry for every count. *)
Lemma columns_for_defined (n : nat) (y : Z) :
  forall (x : Z) (pixels : list Z),
    (forall x', is_Some (pixel_color palette m x' y)) ->
    0 <= y * WIDTH + x ->
    y * WIDTH + x + Z.of_nat n <= Z.of_nat (length pixels) ->
    is_Some (columns_for palette m n y (pixel_imag m y) x pixels).
Proof.
  induction n as [|n IH]; intros x pixels Hpal H0 Hlen.
  - cbn [columns_for]. exists pixels. reflexivity.
  - rewrite columns_for_S. destruct (Hpal x) as [c Hc]. rewrite Hc.
    rewrite store_defined by lia.
    apply IH; [exact Hpal | lia | rewrite length_insert; lia].
Qed.

(** The same for the row loop: rows [y0 <= y < y0 + n] of [WIDTH]
    columns. *)
Lemma rows_for_spec (cols n : nat) :
  Z.of_nat cols = WIDTH ->
  forall (y0 : Z) (pixels pixels' : list Z),
    rows_for palette m cols n y0 pixels = Some pixels' ->
    length pixels' = length pixels
    /\ ((0 < n)%nat ->
        0 <= y0 * WIDTH
        /\ (y0 + Z.of_nat n) * WIDTH <= Z.of_nat (length pixels))
    /\ (forall x y, y0 <= y < y0 + Z.of_nat n -> 0 <= x < WIDTH ->
          pixels' !! Z.to_nat (y * WIDTH + x) = pixel_color palette m x y)
    /\ (forall j : nat,
          ~ (y0 * WIDTH <= Z.of_nat j < (y0 + Z.of_nat n) * WIDTH) ->
          pixels' !! j = pixels !! j).
Proof.
  intros HW. assert (HW0 : 0 < WIDTH) by reflexivity.
  induction n as [|n IH]; intros y0 pixels pixels' H; cbn [rows_for] in H.
  - injection H as <-. split; [reflexivity|]. split; [lia|].
    split; [intros x y Hy; lia | intros j _; reflexivity].
  - destruct (columns_for palette m cols y0 (pixel_imag m y0) 0 pixels)
      as [p1|] eqn:Hc; [|discriminate H].
    apply columns_for_spec in Hc as (Hlen1 & Hb1 & Hin1 & Hout1).
    apply IH in H as (Hlen & Hb & Hin & Hout).
    rewrite HW in Hb1, Hin1, Hout1.
    assert (Hpos : (0 < cols)%nat) by lia.
    specialize (Hb1 Hpos).
    rewrite Hlen1 in Hlen, Hb.
    split; [exact Hlen|]. split; [|split].
    + intros _. destruct n as [|n]; [lia|].
      specialize (Hb ltac:(lia)). lia.
    + intros x y Hy Hx. destruct (Z.eq_dec y y0) as [Heq | Hne].
      * rewrite Heq. rewrite Hout by nia. apply Hin1. lia.
      * apply Hin; lia.
    + intros j Hj. rewrite Hout by nia. apply Hout1. nia.
Qed.

Lemma rows_for_defined (cols n : nat) :
  Z.of_nat cols = WIDTH ->
  forall (y0 : Z) (pixels : list Z),
    (forall x y, is_Some (pixel_color palette m x y)) ->
    0 <= y0 ->
    (y0 + Z.of_nat n) * WIDTH <= Z.of_nat (length pixels) ->
    is_Some (rows_for palette m cols n y0 pixels).
Proof.
  intros HW. assert (HW0 : 0 < WIDTH) by reflexivity.
  induction n as [|n IH]; intros y0 pixels Hpal H0 Hlen; cbn [rows_for].
  - exists pixels. reflexivity.
  - destruct (columns_for_defined cols y0 0 pixels (fun x' => Hpal x' y0))
      as [p1 Hp1]; [nia | rewrite HW; nia |].
    rewrite Hp1. apply columns_for_spec in Hp1 as (Hlen1 & _).
    apply IH; [exact Hpal | lia | rewrite Hlen1; lia].
Qed.

End RenderFacts.

(** With the generated palette every pixel has a colour. *)
Lemma pixel_color_is_Some (pal : list Z) (m : Mandelbrot) (x y : Z) :
  generateColorPalette MAX_ITER = Some pal ->
  is_Some (pixel_color pal m x y).
Proof.
  intros Hpal. destruct (pixel_color_defined pal m x y Hpal)
    as (n & c & _ & _ & _ & _ & Hc).
  exists c. exact Hc.
Qed.

(** A cell of the buffer is the cell of a pixel. *)
Lemma cell_of_index (j : Z) :
  0 <= j < WIDTH * HEIGHT ->
  exists x y, 0 <= x < WIDTH /\ 0 <= y < HEIGHT /\ j = y * WIDTH + x.
Proof.
  intros Hj. assert (HW : 0 < WIDTH) by reflexivity.
  exists (j mod WIDTH), (j / WIDTH).
  pose proof (Z.mod_pos_bound j WIDTH HW).
  pose proof (Z.div_mod j WIDTH ltac:(lia)).
  assert (0 <= j / WIDTH) by (apply Z.div_pos; lia).
  assert (j / WIDTH < HEIGHT) by (apply Z.div_lt_upper_bound; lia).
  lia.
Qed.

(** What [renderPart] does to a buffer of the size of the image, for a
    slice inside the image. *)
Lemma renderPart_spec (pal : list Z) (m : Mandelbrot) (data : ThreadData)
    (pixels : list Z) :
  generateColorPalette MAX_ITER = Some pal ->
  0 <= startY data -> endY data <= HEIGHT ->
  Z.of_nat (length pixels) = WIDTH * HEIGHT ->
  exists pixels' : list Z,
    renderPart pal m data pixels = Some pixels'
    /\ length pixels' = length pixels
    /\ (forall x y, startY data <= y < endY data -> 0 <= x < WIDTH ->
          pixels' !! Z.to_nat (y * WIDTH + x) = pixel_color pal m x y)
    /\ (forall j : nat,
          ~ (startY data * WIDTH <= Z.of_nat j < endY data * WIDTH) ->
          pixels' !! j = pixels !! j).
Proof.
  intros Hpal H0 H1 Hlen. assert (HW : 0 < WIDTH) by reflexivity.
  assert (Hcols : Z.of_nat (Z.to_nat WIDTH) = WIDTH) by reflexivity.
  unfold renderPart.
  destruct (Z_lt_le_dec (endY data) (startY data)) as [Hempty | Hle].
  { exists pixels. replace (Z.to_nat (endY data - startY data)) with O by lia.
    split; [reflexivity|]. split; [reflexivity|].
    split; [intros x y Hy; lia | intros j _; reflexivity]. }
  destruct (rows_for_defined pal m (Z.to_nat WIDTH)
              (Z.to_nat (endY data - startY data)) Hcols (startY data) pixels
              (fun x y => pixel_color_is_Some pal m x y Hpal) H0)
    as [pixels' Hp]; [nia|].
  exists pixels'. split; [exact Hp|].
  apply (rows_for_spec pal m _ _ Hcols) in Hp as (Hl & _ & Hin & Hout).
  split; [exact Hl|]. split.
  - intros x y Hy Hx. apply Hin; lia.
  - intros j Hj. apply Hout. nia.
Qed.

(** The threads in any order: the rows of the slices they render hold the
    colours of their pixels, and a cell that held the colour of its pixel
    before still does. *)
Lemma run_threads_spec (pal : list Z) (m : Mandelbrot)
    (order : list ThreadData) :
  generateColorPalette MAX_ITER = Some pal ->
  (forall d, d ∈ order -> 0 <= startY d /\ endY d <= HEIGHT) ->
  forall pixels : list Z,
    Z.of_nat (length pixels) = WIDTH * HEIGHT ->
    exists pixels' : list Z,
      run_threads pal m order pixels = Some pixels'
      /\ length pixels' = length pixels
      /\ (forall x y, 0 <= x < WIDTH -> 0 <= y ->
            (exists d, d ∈ order /\ in_slice y d)
            \/ pixels !! Z.to_nat (y * WIDTH + x) = pixel_color pal m x y ->
            pixels' !! Z.to_nat (y * WIDTH + x) = pixel_color pal m x y).
Proof.
  intros Hpal. induction order as [|d rest IH]; intros Hb pixels Hlen.
  - exists pixels. split; [reflexivity|]. split; [reflexivity|].
    intros x y Hx Hy0 [(d & Hd & _) | H]; [|exact H].
    apply elem_of_nil in Hd. contradiction.
  - destruct (Hb d ltac:(left)) as [H0 H1].
    destruct (renderPart_spec pal m d pixels Hpal H0 H1 Hlen)
      as (p1 & Hp1 & Hl1 & Hin1 & Hout1).
    destruct (IH (fun d' Hd' => Hb d' ltac:(right; exact Hd')) p1
                ltac:(rewrite Hl1; exact Hlen))
      as (p2 & Hp2 & Hl2 & Hin2).
    exists p2. cbn [run_threads]. rewrite Hp1. split; [exact Hp2|].
    split; [rewrite Hl2; exact Hl1|].
    intros x y Hx Hy0 H. apply Hin2; [exact Hx | exact Hy0 |].
    assert (HW : 0 < WIDTH) by reflexivity.
    destruct (Z_lt_le_dec y (startY d)) as [Hlo | Hlo];
      [|destruct (Z_lt_le_dec y (endY d)) as [Hhi | Hhi]].
    + destruct H as [(d' & Hd' & Hy) | H].
      * apply elem_of_cons in Hd' as [-> | Hd'];
          [unfold in_slice in Hy; lia | left; exists d'; auto].
      * right. rewrite Hout1; [exact H|].
        rewrite Z2Nat.id by nia. nia.
    + right. apply Hin1; lia.
    + destruct H as [(d' & Hd' & Hy) | H].
      * apply elem_of_cons in Hd' as [-> | Hd'];
          [unfold in_slice in Hy; lia | left; exists d'; auto].
      * right. rewrite Hout1; [exact H|].
        rewrite Z2Nat.id by nia. nia.
Qed.

(** The slices of the program lie inside the image, and every row of the
    image is in one of them. *)
Lemma threadData_inside (d : ThreadData) :
  d ∈ threadData HEIGHT NUM_THREADS ->
  0 <= startY d /\ startY d <= endY d /\ endY d <= HEIGHT.
Proof.
  intros Hd. apply list_elem_of_lookup in Hd as [i Hi].
  apply threadData_lookup in Hi as [Hi ->]; [|reflexivity..].
  destruct (slice_start_end HEIGHT NUM_THREADS ltac:(reflexivity)
              ltac:(reflexivity) (Z.of_nat i) ltac:(lia))
    as (Hst & _ & _ & Hle).
  pose proof (sliceHeight_bounds HEIGHT NUM_THREADS ltac:(reflexivity)
                ltac:(reflexivity)) as [Hs _].
  rewrite Hst in *. nia.
Qed.

Lemma threadData_covers (y : Z) :
  0 <= y < HEIGHT ->
  exists d, d ∈ threadData HEIGHT NUM_THREADS /\ in_slice y d.
Proof.
  intros Hy.
  destruct (row_has_slice HEIGHT NUM_THREADS ltac:(reflexivity)
              ltac:(reflexivity) y Hy) as (i & Hi & Hin).
  exists (slice HEIGHT NUM_THREADS i). split; [|exact Hin].
  apply list_elem_of_lookup. exists (Z.to_nat i).
  apply threadData_lookup; [reflexivity..|]. split; [lia|].
  f_equal. lia.
Qed.

(** X6: [renderPart] on a slice inside the image stays inside the pixel
    buffer and the palette, returns, and leaves in every cell of the rows
    of its slice the palette colour of the iteration count of the pixel. *)
Theorem renderPart_renders_slice :
  exists pal : list Z,
    generateColorPalette MAX_ITER = Some pal
    /\ forall (m : Mandelbrot) (data : ThreadData) (pixels : list Z),
        0 <= startY data -> endY data <= HEIGHT ->
        Z.of_nat (length pixels) = WIDTH * HEIGHT ->
        exists pixels' : list Z,
          renderPart pal m data pixels = Some pixels'
          /\ forall x y, startY data <= y < endY data -> 0 <= x < WIDTH ->
               exists n c : Z,
                 pixel_iter m x y = Some n
                 /\ pal !! Z.to_nat n = Some c
                 /\ pixels' !! Z.to_nat (y * WIDTH + x) = Some c.
Proof.
  destruct colorPalette_exists as [pal Hpal]. exists pal.
  split; [exact Hpal|]. intros m data pixels H0 H1 Hlen.
  destruct (renderPart_spec pal m data pixels Hpal H0 H1 Hlen)
    as (pixels' & Hp & _ & Hin & _).
  exists pixels'. split; [exact Hp|]. intros x y Hy Hx.
  destruct (pixel_color_defined pal m x y Hpal)
    as (n & c & Hn & _ & _ & Hc & Hcol).
  exists n, c. split; [exact Hn|]. split; [exact Hc|].
  rewrite (Hin x y Hy Hx). exact Hcol.
Qed.

Lemma renderPart_renders_slice_witness :
  exists pal : list Z,
    generateColorPalette MAX_ITER = Some pal
    /\ exists pixels' : list Z,
        renderPart pal initial_view (slice HEIGHT NUM_THREADS 3)
          (replicate (Z.to_nat (WIDTH * HEIGHT)) 0) = Some pixels'
        /\ forall x y,
            startY (slice HEIGHT NUM_THREADS 3) <= y
              < endY (slice HEIGHT NUM_THREADS 3) ->
            0 <= x < WIDTH ->
            exists n c : Z,
              pixel_iter initial_view x y = Some n
              /\ pal !! Z.to_nat n = Some c
              /\ pixels' !! Z.to_nat (y * WIDTH + x) = Some c.
Proof.
  destruct renderPart_renders_slice as (pal & Hpal & H). exists pal.
  split; [exact Hpal|]. apply H.
  - discriminate.
  - discriminate.
  - rewrite length_replicate. apply Z2Nat.id. discriminate.
Defined.



(** X8: whatever the order in which the threads of [drawMandelbrot] run, and
    whatever the buffer held before, they leave the same image: the cell
    of every pixel holds the palette colour of its iteration count. *)
Theorem run_threads_any_order (m : Mandelbrot) :
  exists pal image : list Z,
    generateColorPalette MAX_ITER = Some pal
    /\ Z.of_nat (length image) = WIDTH * HEIGHT
    /\ (forall x y, 0 <= x < WIDTH -> 0 <= y < HEIGHT ->
          image !! Z.to_nat (y * WIDTH + x) = pixel_color pal m x y)
    /\ (forall (order : list ThreadData) (pixels : list Z),
          order ≡ₚ threadData HEIGHT NUM_THREADS ->
          Z.of_nat (length pixels) = WIDTH * HEIGHT ->
          run_threads pal m order pixels = Some image).
Proof.
  destruct colorPalette_exists as [pal Hpal]. exists pal.
  assert (Hall : forall (order : list ThreadData) (pixels : list Z),
             order ≡ₚ threadData HEIGHT NUM_THREADS ->
             Z.of_nat (length pixels) = WIDTH * HEIGHT ->
             exists p : list Z,
               run_threads pal m order pixels = Some p
               /\ Z.of_nat (length p) = WIDTH * HEIGHT
               /\ forall x y, 0 <= x < WIDTH -> 0 <= y < HEIGHT ->
                    p !! Z.to_nat (y * WIDTH + x) = pixel_color pal m x y).
  { intros order pixels Hperm Hlen.
    destruct (run_threads_spec pal m order Hpal) with (pixels := pixels)
      as (p & Hp & Hl & Hin); [|exact Hlen|].
    - intros d Hd. rewrite Hperm in Hd.
      destruct (threadData_inside d Hd) as (? & ? & ?). lia.
    - exists p. split; [exact Hp|]. split; [rewrite Hl; exact Hlen|].
      intros x y Hx Hy. apply Hin; [exact Hx | lia |]. left.
      destruct (threadData_covers y Hy) as (d & Hd & Hyd).
      exists d. rewrite Hperm. auto. }
  destruct (Hall (threadData HEIGHT NUM_THREADS)
              (replicate (Z.to_nat (WIDTH * HEIGHT)) 0) ltac:(reflexivity))
    as (image & _ & Hli & Himg).
  { rewrite length_replicate. apply Z2Nat.id. discriminate. }
  exists image. split; [exact Hpal|]. split; [exact Hli|].
  split; [exact Himg|]. intros order pixels Hperm Hlen.
  destruct (Hall order pixels Hperm Hlen) as (p & Hp & Hlp & Hin).
  rewrite Hp. f_equal. apply list_eq. intros j.
  destruct (Z_lt_le_dec (Z.of_nat j) (WIDTH * HEIGHT)) as [Hj | Hj].
  - destruct (cell_of_index (Z.of_nat j) ltac:(lia))
      as (x & y & Hx & Hy & Hxy).
    replace j with (Z.to_nat (y * WIDTH + x)) by lia.
    rewrite Hin, Himg by assumption. reflexivity.
  - rewrite !lookup_ge_None_2 by lia. reflexivity.
Qed.

(** ** More on the row bands *)

(** X9: every slice has [Height / N] rows, except the last one, which also
    takes the [Height % N] rows that are left over. *)
Theorem slice_heights (Height N i : Z) :
  0 < Height -> 0 < N -> 0 <= i < N ->
  endY (slice Height N i) - startY (slice Height N i)
  = if i =? N - 1 then Z.quot Height N + Z.rem Height N
    else Z.quot Height N.
Proof.
  intros HH HN Hi.
  pose proof (Z.quot_rem' Height N) as Hqr.
  unfold slice, sliceHeight; cbn [startY endY].
  destruct (Z.eqb_spec i (N - 1)) as [-> | Hne]; nia.
Qed.

Lemma slice_heights_witness :
  endY (slice 803 16 15) - startY (slice 803 16 15)
  = if 15 =? 16 - 1 then Z.quot 803 16 + Z.rem 803 16 else Z.quot 803 16.
Proof. apply (slice_heights 803 16 15); lia. Defined.

(** X10: the update rectangles span the width of the texture and are stacked
    from row [0] to row [HEIGHT] without gap or overlap; the pixels handed
    to [SDL_UpdateTexture] for a rectangle are those of the rows of the
    slice of its thread, inside the pixel buffer. *)
Theorem updateRects_tile_texture :
  length updateRects = Z.to_nat NUM_THREADS
  /\ (forall (i : nat) (r : SDL_Rect),
        updateRects !! i = Some r ->
        exists d : ThreadData,
          threadData HEIGHT NUM_THREADS !! i = Some d
          /\ rect_x r = 0 /\ rect_w r = WIDTH /\ 0 <= rect_h r
          /\ upload_first r = startY d * WIDTH
          /\ upload_first r + upload_count r = endY d * WIDTH
          /\ 0 <= upload_first r
          /\ upload_first r + upload_count r <= WIDTH * HEIGHT)
  /\ (exists r, updateRects !! 0%nat = Some r /\ rect_y r = 0)
  /\ (forall (i : nat) (r r' : SDL_Rect),
        updateRects !! i = Some r -> updateRects !! S i = Some r' ->
        rect_y r' = rect_y r + rect_h r)
  /\ (exists r, updateRects !! Z.to_nat (NUM_THREADS - 1) = Some r
                /\ rect_y r + rect_h r = HEIGHT).
Proof.
  assert (HW : 0 < WIDTH) by reflexivity.
  assert (Hrect : forall (i : nat) (r : SDL_Rect),
             updateRects !! i = Some r ->
             let d := slice HEIGHT NUM_THREADS (Z.of_nat i) in
             Z.of_nat i < NUM_THREADS
             /\ threadData HEIGHT NUM_THREADS !! i = Some d
             /\ r = updateRect d).
  { intros i r Hr. unfold updateRects in Hr.
    rewrite list_lookup_fmap in Hr.
    destruct (threadData HEIGHT NUM_THREADS !! i) as [d|] eqn:Hd;
      [|discriminate Hr].
    injection Hr as <-.
    apply threadData_lookup in Hd as [Hi ->]; [|reflexivity..].
    split; [exact Hi|]. split; reflexivity. }
  pose proof (sliceHeight_bounds HEIGHT NUM_THREADS ltac:(reflexivity)
                ltac:(reflexivity)) as [Hs0 Hs].
  split; [|split; [|split; [|split]]].
  - unfold updateRects. rewrite length_fmap.
    apply threadData_length.
  - intros i r Hr. destruct (Hrect i r Hr) as (Hi & Hd & ->).
    eexists. split; [exact Hd|].
    destruct (slice_start_end HEIGHT NUM_THREADS ltac:(reflexivity)
                ltac:(reflexivity) (Z.of_nat i) ltac:(lia))
      as (Hst & _ & _ & Hle).
    unfold upload_first, upload_count, updateRect; cbn [rect_x rect_y rect_w rect_h].
    rewrite Hst in *. repeat split; try reflexivity; nia.
  - exists (updateRect (slice HEIGHT NUM_THREADS 0)). split; reflexivity.
  - intros i r r' Hr Hr'.
    destruct (Hrect i r Hr) as (Hi & _ & ->).
    destruct (Hrect (S i) r' Hr') as (Hi' & _ & ->).
    destruct (slice_start_end HEIGHT NUM_THREADS ltac:(reflexivity)
                ltac:(reflexivity) (Z.of_nat i) ltac:(lia))
      as (Hst & He & _ & _).
    destruct (slice_start_end HEIGHT NUM_THREADS ltac:(reflexivity)
                ltac:(reflexivity) (Z.of_nat (S i)) ltac:(lia))
      as (Hst' & _ & _ & _).
    unfold updateRect; cbn [rect_y rect_h].
    rewrite Hst', He by lia. lia.
  - exists (updateRect (slice HEIGHT NUM_THREADS (NUM_THREADS - 1))).
    split; reflexivity.
Qed.

(** ** Packing and unpacking a colour *)

(** Or-ing a number below [2^k] into a number shifted left by [k] bits adds
    it. *)
Lemma lor_shiftl_low (hi lo k : Z) :
  0 <= k -> 0 <= lo < 2 ^ k -> Z.lor (Z.shiftl hi k) lo = hi * 2 ^ k + lo.
Proof.
  intros Hk Hlo.
  assert (Hland : Z.land (Z.shiftl hi k) lo = 0).
  { apply Z.bits_inj'. intros n Hn. rewrite Z.land_spec, Z.bits_0.
    destruct (Z_lt_le_dec n k) as [Hlt | Hge].
    - rewrite Z.shiftl_spec_low by lia. reflexivity.
    - rewrite <- (Z.mod_small lo (2 ^ k)) by lia.
      rewrite Z.mod_pow2_bits_high by lia. apply andb_false_r. }
  rewrite <- Z.lxor_lor, <- Z.add_nocarry_lxor by exact Hland.
  rewrite Z.shiftl_mul_pow2 by lia. reflexivity.
Qed.

(** The value of a packed colour. *)
Lemma pack_color_value (r g b : Z) :
  0 <= r <= 255 -> 0 <= g <= 255 -> 0 <= b <= 255 ->
  pack_color r g b = 255 * 2 ^ 24 + r * 2 ^ 16 + g * 2 ^ 8 + b.
Proof.
  intros Hr Hg Hb. unfold pack_color, wrap_uint32.
  change (wrap_int (Z.shiftl 255 24)) with (Z.shiftl (Z.shiftl (-1) 8) 16).
  rewrite <- Z.shiftl_lor, (lor_shiftl_low (-1) r 8) by lia.
  replace (Z.shiftl (-1 * 2 ^ 8 + r) 16)
    with (Z.shiftl (Z.shiftl (-1 * 2 ^ 8 + r) 8) 8)
    by (rewrite Z.shiftl_shiftl by lia; reflexivity).
  rewrite <- Z.shiftl_lor, (lor_shiftl_low (-1 * 2 ^ 8 + r) g 8) by lia.
  rewrite (lor_shiftl_low _ b 8) by lia.
  replace ((((-1 * 2 ^ 8 + r) * 2 ^ 8 + g) * 2 ^ 8 + b))
    with (255 * 2 ^ 24 + r * 2 ^ 16 + g * 2 ^ 8 + b + (-1) * 2 ^ 32) by lia.
  rewrite Z.mod_add by lia. apply Z.mod_small. lia.
Qed.

(** X11: packing three bytes gives an opaque ARGB8888 pixel from which the
    three bytes can be read back. *)
Theorem pack_color_unpacks (r g b : Z) :
  0 <= r <= 255 -> 0 <= g <= 255 -> 0 <= b <= 255 ->
  0 <= pack_color r g b < 2 ^ 32
  /\ alpha_of (pack_color r g b) = 255
  /\ red_of (pack_color r g b) = r
  /\ green_of (pack_color r g b) = g
  /\ blue_of (pack_color r g b) = b.
Proof.
  intros Hr Hg Hb. rewrite (pack_color_value r g b Hr Hg Hb).
  set (c := 255 * 2 ^ 24 + r * 2 ^ 16 + g * 2 ^ 8 + b).
  unfold alpha_of, red_of, green_of, blue_of.
  rewrite !(fun x => Z.land_ones x 8 ltac:(lia) : Z.land x 255 = x mod 2 ^ 8).
  rewrite !Z.shiftr_div_pow2 by lia.
  assert (H24 : c / 2 ^ 24 = 255)
    by (symmetry; apply (Z.div_unique c _ 255 (r * 2 ^ 16 + g * 2 ^ 8 + b));
        unfold c; lia).
  assert (H16 : c / 2 ^ 16 = 255 * 2 ^ 8 + r)
    by (symmetry; apply (Z.div_unique c _ _ (g * 2 ^ 8 + b)); unfold c; lia).
  assert (H8 : c / 2 ^ 8 = 255 * 2 ^ 16 + r * 2 ^ 8 + g)
    by (symmetry; apply (Z.div_unique c _ _ b); unfold c; lia).
  rewrite H24, H16, H8. split; [unfold c; lia|].
  split; [reflexivity|]. split; [|split].
  - symmetry. apply (Z.mod_unique _ _ 255); lia.
  - symmetry. apply (Z.mod_unique _ _ (255 * 2 ^ 8 + r)); lia.
  - symmetry. apply (Z.mod_unique _ _ (255 * 2 ^ 16 + r * 2 ^ 8 + g));
      unfold c; lia.
Qed.

Lemma pack_color_unpacks_witness :
  0 <= pack_color 2 30 158 < 2 ^ 32
  /\ alpha_of (pack_color 2 30 158) = 255
  /\ red_of (pack_color 2 30 158) = 2
  /\ green_of (pack_color 2 30 158) = 30
  /\ blue_of (pack_color 2 30 158) = 158.
Proof. apply (pack_color_unpacks 2 30 158); lia. Defined.

(** ** The palette in exact arithmetic *)



(** ** Dragging and the event loop *)

(** Subtracting [+0] changes nothing. *)
Lemma sub_zero_r (c : float) : (c - 0)%float = c.
Proof.
  apply Prim2SF_inj. rewrite FloatAxioms.sub_spec, Prim2SF_zero.
  destruct (Prim2SF c) as [[|]|[|]| |[|] m e]; reflexivity.
Qed.

(** The denominators of [pan] are positive for a positive zoom. *)
Lemma pan_scale_positive (z : float) :
  positive_double z = true -> positive_double (z * 800) = true.
Proof.
  intros Hz. apply mul_positive; [exact Hz | vm_compute; reflexivity |].
  intros Hf _. pose proof (positive_double_ge _ Hz Hf) as Hge.
  replace (F2R 800) with 800%R.
  - replace (-1074) with (-1075 + 1) in Hge by lia. rewrite pow2_succ in Hge.
    pose proof (pow2_pos (-1075)). lra.
  - unfold F2R. replace (Prim2SF 800)
      with (S754_finite false 7036874417766400 (-43))
      by (vm_compute; reflexivity).
    unfold SF2R. rewrite (pow2_neg_IZR 43).
    change (2 ^ 43) with 8796093022208. lra.
Qed.

(** X13: for a positive zoom, a drag by no distance leaves the view as it
    is, NaN and infinite centres and the signs of zeros included. *)
Theorem pan_zero_is_identity (m : Mandelbrot) :
  positive_double (zoom m) = true -> pan 0 0 m = m.
Proof.
  intros Hz. destruct m as [cx cy z]. cbn [zoom] in Hz. unfold pan.
  cbn [centerX centerY zoom].
  change (double_of_int WIDTH) with 800%float.
  change (double_of_int HEIGHT) with 800%float.
  rewrite (div_zero_positive _ (pan_scale_positive z Hz)), !sub_zero_r.
  reflexivity.
Qed.

Lemma pan_zero_is_identity_witness : pan 0 0 initial_view = initial_view.
Proof. apply (pan_zero_is_identity initial_view). reflexivity. Defined.

(** One event takes a view of the program to a view of the program. *)
Lemma handle_event_reachable (event : SDL_Event) (s s' : main_state) :
  handle_event event s = Some s' ->
  reachable (mandelbrot s) -> reachable (mandelbrot s').
Proof.
  intros H Hr. destruct event as [|wy|button x y| |x y|]; cbn in H.
  - injection H as <-. exact Hr.
  - injection H as <-. apply reachable_wheel, Hr.
  - destruct (button =? SDL_BUTTON_LEFT);
      [destruct (int_of_single x), (int_of_single y); try discriminate H|];
      injection H as <-; exact Hr.
  - injection H as <-. exact Hr.
  - destruct (dragging s);
      [destruct (int_of_single x), (int_of_single y); try discriminate H|];
      injection H as <-; [apply reachable_pan|]; exact Hr.
  - injection H as <-. exact Hr.
Qed.

Lemma poll_events_reachable (events : list SDL_Event) :
  forall s s' : main_state,
    poll_events events s = Some s' ->
    reachable (mandelbrot s) -> reachable (mandelbrot s').
Proof.
  induction events as [|event rest IH]; intros s s' H Hr; cbn [poll_events] in H.
  - injection H as <-. exact Hr.
  - destruct (handle_event event s) as [s1|] eqn:H1; [|discriminate H].
    apply (IH s1 s' H). apply (handle_event_reachable event s s1 H1 Hr).
Qed.

Lemma reachable_view_ok (v : Mandelbrot) : reachable v -> view_ok v.
Proof.
  intros Hr. pose proof (reachable_zoom_floor v Hr) as Hz.
  split; [exact Hr|]. split; [exact Hz|].
  apply center_pixel_same, zoom_floor_scale, Hz.
Qed.

Lemma main_loop_views (batches : list (list SDL_Event)) :
  forall (s s' : main_state) (drawn drawn' : list Mandelbrot),
    main_loop batches s drawn = Some (s', drawn') ->
    reachable (mandelbrot s) -> Forall view_ok drawn ->
    reachable (mandelbrot s') /\ Forall view_ok drawn'.
Proof.
  induction batches as [|events rest IH]; intros s s' drawn drawn' H Hr Hd;
    cbn [main_loop] in H.
  - injection H as <- <-. auto.
  - destruct (running s).
    + destruct (poll_events events s) as [s1|] eqn:H1; [|discriminate H].
      pose proof (poll_events_reachable events s s1 H1 Hr) as Hr1.
      apply (IH s1 s' _ drawn' H Hr1). constructor; [|exact Hd].
      apply reachable_view_ok, Hr1.
    + injection H as <- <-. auto.
Qed.

(** X14: every view the loop of [main] draws, after whatever events, is a
    view with a zoom of at least [5 * 2^-1074], never zero, negative or
    NaN, whose centre pixel is mapped to its centre. *)
Theorem main_loop_draws_good_views (batches : list (list SDL_Event))
    (s' : main_state) (drawn : list Mandelbrot) :
  main_loop batches initial_state [] = Some (s', drawn) ->
  Forall view_ok drawn.
Proof.
  intros H.
  apply (main_loop_views batches initial_state s' [] drawn H);
    [apply reachable_initial | constructor].
Qed.

Lemma main_loop_draws_good_views_witness :
  match main_loop
          [[MouseWheel (S754_finite true 1 0);
            MouseButtonDown 1 (S754_finite false 10 0)
              (S754_finite false 20 0);
            MouseMotion (S754_finite false 13 0) (S754_finite false 24 0)];
           [MouseButtonUp; Quit]]
          initial_state [] with
  | Some (s', drawn) => length drawn = 2%nat /\ Forall view_ok drawn
  | None => False
  end.
Proof.
  destruct (main_loop _ initial_state []) as [[s' drawn]|] eqn:E.
  - split; [|exact (main_loop_draws_good_views _ s' drawn E)].
    vm_compute in E. injection E as _ <-. reflexivity.
  - vm_compute in E. discriminate E.
Defined.

(** X15: the zoom after a batch of events is the zoom before, multiplied in
    turn by the factor of each wheel event of the batch: no other event
    changes it. *)
Theorem poll_events_zoom (events : list SDL_Event) (s s' : main_state) :
  poll_events events s = Some s' ->
  zoom (mandelbrot s')
  = fold_left (fun z f => (z * f)%float) (wheel_factors events)
      (zoom (mandelbrot s)).
Proof.
  revert s. induction events as [|event rest IH]; intros s H;
    cbn [poll_events] in H.
  - injection H as <-. reflexivity.
  - destruct (handle_event event s) as [s1|] eqn:H1; [|discriminate H].
    rewrite (IH s1 H). clear IH H.
    destruct event as [|wy|button x y| |x y|]; cbn in H1;
      cbn [wheel_factors fold_left].
    + injection H1 as <-. reflexivity.
    + injection H1 as <-. reflexivity.
    + destruct (button =? SDL_BUTTON_LEFT);
        [destruct (int_of_single x), (int_of_single y); try discriminate H1|];
        injection H1 as <-; reflexivity.
    + injection H1 as <-. reflexivity.
    + destruct (dragging s);
        [destruct (int_of_single x), (int_of_single y); try discriminate H1|];
        injection H1 as <-; reflexivity.
    + injection H1 as <-. reflexivity.
Qed.

Lemma poll_events_zoom_witness :
  zoom (mandelbrot
          {| running := true; dragging := false; prevMouseX := 0;
             prevMouseY := 0; mandelbrot := zoom_out (zoom_in initial_view) |})
  = fold_left (fun z f => (z * f)%float)
      (wheel_factors [MouseWheel (S754_finite false 1 0); OtherEvent;
                      MouseWheel (S754_zero false)])
      (zoom (mandelbrot initial_state)).
Proof.
  apply (poll_events_zoom
           [MouseWheel (S754_finite false 1 0); OtherEvent;
            MouseWheel (S754_zero false)] initial_state).
  reflexivity.
Defined.



(** The events other than [Quit] do not read [running] and do not change
    it. *)
Lemma handle_event_same_but_running (event : SDL_Event)
    (s t s' : main_state) :
  is_quit event = false -> same_but_running s t ->
  handle_event event s = Some s' ->
  exists t' : main_state,
    handle_event event t = Some t'
    /\ same_but_running s' t' /\ running s' = running s
    /\ running t' = running t.
Proof.
  intros Hq (Hd & Hx & Hy & Hm) H. unfold same_but_running.
  destruct s as [rs ds xs ys ms], t as [rt dt xt yt mt].
  cbn [running dragging prevMouseX prevMouseY mandelbrot] in Hd, Hx, Hy, Hm.
  subst dt xt yt mt.
  destruct event as [|wy|button x y| |x y|]; try discriminate Hq;
    cbn [handle_event running dragging prevMouseX prevMouseY mandelbrot]
      in H |- *.
  - injection H as <-. eexists. split; [reflexivity|]. cbn. auto 10.
  - destruct (button =? SDL_BUTTON_LEFT).
    + destruct (int_of_single x), (int_of_single y); try discriminate H.
      injection H as <-. eexists. split; [reflexivity|]. cbn. auto 10.
    + injection H as <-. eexists. split; [reflexivity|]. cbn. auto 10.
  - injection H as <-. eexists. split; [reflexivity|]. cbn. auto 10.
  - destruct ds.
    + destruct (int_of_single x), (int_of_single y); try discriminate H.
      injection H as <-. eexists. split; [reflexivity|]. cbn. auto 10.
    + injection H as <-. eexists. split; [reflexivity|]. cbn. auto 10.
  - injection H as <-. eexists. split; [reflexivity|]. cbn. auto 10.
Qed.

Lemma poll_events_quit (events : list SDL_Event) :
  forall s t s' : main_state,
    same_but_running s t ->
    poll_events events s = Some s' ->
    running s' = running s && negb (existsb is_quit events)
    /\ exists t' : main_state,
        poll_events (filter (fun event => is_quit event = false) events) t
        = Some t'
        /\ same_but_running s' t' /\ running t' = running t.
Proof.
  induction events as [|event rest IH]; intros s t s' Hst H;
    cbn [poll_events] in H.
  - injection H as <-. split; [cbn; now rewrite andb_true_r|].
    exists t. auto.
  - destruct (handle_event event s) as [s1|] eqn:H1; [|discriminate H].
    destruct (is_quit event) eqn:Hq.
    + destruct event; try discriminate Hq. cbn in H1. injection H1 as <-.
      eapply IH in H as (Hrun & t' & Ht' & Hs' & Hr'); [|exact Hst].
      cbn [running] in Hrun. split.
      * rewrite Hrun. cbn. now rewrite andb_false_r.
      * exists t'. rewrite filter_cons_False by (cbn; discriminate). auto.
    + destruct (handle_event_same_but_running event s t s1 Hq Hst H1)
        as (t1 & Ht1 & Hst1 & Hr1 & Hrt1).
      destruct (IH s1 t1 s' Hst1 H) as (Hrun & t' & Ht' & Hs' & Hr').
      split.
      * rewrite Hrun, Hr1. cbn [existsb]. rewrite Hq. reflexivity.
      * exists t'. rewrite filter_cons_True by exact Hq.
        cbn [poll_events]. rewrite Ht1. rewrite Hr', Hrt1. auto.
Qed.

(** X17: [Quit] does nothing but clear [running], and [running] is never set
    again: the other events of the batch, also those behind [Quit], are
    handled as they are without it. *)
Theorem quit_only_clears_running (events : list SDL_Event)
    (s s' : main_state) :
  poll_events events s = Some s' ->
  running s' = running s && negb (existsb is_quit events)
  /\ exists t' : main_state,
      poll_events (filter (fun event => is_quit event = false) events) s
      = Some t'
      /\ same_but_running s' t' /\ running t' = running s.
Proof.
  intros H. apply (poll_events_quit events s s s'); [|exact H].
  unfold same_but_running. auto.
Qed.

Lemma quit_only_clears_running_witness :
  running {| running := false; dragging := false; prevMouseX := 0;
             prevMouseY := 0; mandelbrot := zoom_in initial_view |}
  = running initial_state
    && negb (existsb is_quit [Quit; MouseWheel (S754_finite false 1 0)])
  /\ exists t' : main_state,
      poll_events
        (filter (fun event => is_quit event = false)
           [Quit; MouseWheel (S754_finite false 1 0)]) initial_state
      = Some t'
      /\ same_but_running
           {| running := false; dragging := false; prevMouseX := 0;
              prevMouseY := 0; mandelbrot := zoom_in initial_view |} t'
      /\ running t' = running initial_state.
Proof.
  apply (quit_only_clears_running
           [Quit; MouseWheel (S754_finite false 1 0)] initial_state).
  reflexivity.
Defined.

(** X18: the one step of the event handling that C leaves undefined is the
    conversion to [int] of a mouse position that is infinite, NaN or
    outside the range of [int], when the left button is pressed or the
    mouse moves while dragging; every other event is handled. *)
Theorem handle_event_undefined_iff (event : SDL_Event) (s : main_state) :
  handle_event event s = None
  <-> event_in_range event = false
      /\ (is_left_down event = true
          \/ (is_motion event = true /\ dragging s = true)).
Proof.
  destruct event as [|wy|button x y| |x y|];
    cbn [handle_event event_in_range is_left_down is_motion].
  - split; [discriminate | intros [H _]; discriminate H].
  - split; [discriminate | intros [H _]; discriminate H].
  - destruct (button =? SDL_BUTTON_LEFT).
    + destruct (int_of_single x), (int_of_single y);
        (split; [intros H; try discriminate H; auto
                | intros [H _]; try discriminate H; reflexivity]).
    + split; [discriminate|].
      intros [_ [H | [H _]]]; discriminate H.
  - split; [discriminate | intros [H _]; discriminate H].
  - destruct (dragging s).
    + destruct (int_of_single x), (int_of_single y);
        (split; [intros H; try discriminate H; auto
                | intros [H _]; try discriminate H; reflexivity]).
    + split; [discriminate|].
      intros [_ [H | [_ H]]]; discriminate H.
  - split; [discriminate | intros [H _]; discriminate H].
Qed.
(** The loop on a list of batches in two parts. *)
Lemma main_loop_stopped (batches : list (list SDL_Event)) (s : main_state)
    (drawn : list Mandelbrot) :
  running s = false -> main_loop batches s drawn = Some (s, drawn).
Proof.
  intros Hr. destruct batches; cbn [main_loop]; [|rewrite Hr]; reflexivity.
Qed.

Lemma main_loop_app (before rest : list (list SDL_Event)) :
  forall (s : main_state) (drawn : list Mandelbrot),
    main_loop (before ++ rest) s drawn
    = match main_loop before s drawn with
      | Some (s1, drawn1) => main_loop rest s1 drawn1
      | None => None
      end.
Proof.
  induction before as [|events before IH]; intros s drawn;
    cbn [app main_loop]; [reflexivity|].
  destruct (running s) eqn:Hr.
  - destruct (poll_events events s); [apply IH | reflexivity].
  - symmetry. apply main_loop_stopped, Hr.
Qed.

(** As long as no batch holds [Quit] the loop goes on, drawing one view
    for each batch. *)
Lemma main_loop_no_quit (before : list (list SDL_Event)) :
  forall (s s1 : main_state) (drawn drawn1 : list Mandelbrot),
    running s = true ->
    Forall (fun events => existsb is_quit events = false) before ->
    main_loop before s drawn = Some (s1, drawn1) ->
    running s1 = true /\ length drawn1 = (length before + length drawn)%nat.
Proof.
  induction before as [|events before IH]; intros s s1 drawn drawn1 Hr Hq H;
    cbn [main_loop] in H.
  - injection H as <- <-. auto.
  - apply Forall_cons in Hq as [Hq Hbefore]. rewrite Hr in H.
    destruct (poll_events events s) as [s2|] eqn:H2; [|discriminate H].
    destruct (poll_events_quit events s s s2) as [Hr2 _];
      [unfold same_but_running; auto | exact H2 |].
    rewrite Hr, Hq in Hr2.
    destruct (IH s2 s1 _ drawn1 Hr2 Hbefore H) as [Hr1 Hlen].
    split; [exact Hr1|]. rewrite Hlen. cbn [length]. lia.
Qed.

(** X19: the loop is left after the first batch that holds [Quit]: the
    batches behind it are not looked at, [running] is false, and one view
    has been drawn for each batch up to that one, the batch with [Quit]
    included. *)
Theorem main_loop_stops_after_quit
    (before rest : list (list SDL_Event)) (events : list SDL_Event)
    (s' : main_state) (drawn : list Mandelbrot) :
  Forall (fun events => existsb is_quit events = false) before ->
  existsb is_quit events = true ->
  main_loop (before ++ events :: rest) initial_state [] = Some (s', drawn) ->
  main_loop (before ++ [events]) initial_state [] = Some (s', drawn)
  /\ running s' = false
  /\ length drawn = S (length before).
Proof.
  intros Hbefore Hq H. rewrite main_loop_app in H |- *.
  destruct (main_loop before initial_state []) as [[s1 drawn1]|] eqn:E;
    [|discriminate H].
  destruct (main_loop_no_quit before initial_state s1 [] drawn1 eq_refl
              Hbefore E) as [Hr1 Hlen].
  cbn [main_loop] in H |- *. rewrite Hr1 in H |- *.
  destruct (poll_events events s1) as [s2|] eqn:H2; [|discriminate H].
  destruct (poll_events_quit events s1 s1 s2) as [Hr2 _];
    [unfold same_but_running; auto | exact H2 |].
  rewrite Hr1, Hq in Hr2. cbn in Hr2.
  rewrite (main_loop_stopped rest s2 _ Hr2) in H. injection H as <- <-.
  split; [reflexivity|]. split; [exact Hr2|].
  cbn [length]. rewrite Hlen. cbn [length]. lia.
Qed.

Lemma main_loop_stops_after_quit_witness :
  main_loop ([[OtherEvent]] ++ [[Quit; MouseButtonUp]]) initial_state []
  = Some ({| running := false; dragging := false; prevMouseX := 0;
             prevMouseY := 0; mandelbrot := initial_view |},
          [initial_view; initial_view])
  /\ running {| running := false; dragging := false; prevMouseX := 0;
                prevMouseY := 0; mandelbrot := initial_view |} = false
  /\ length [initial_view; initial_view] = S (length [[OtherEvent]]).
Proof.
  apply (main_loop_stops_after_quit [[OtherEvent]]
           [[MouseWheel (S754_finite false 1 0)]; [OtherEvent]]
           [Quit; MouseButtonUp]).
  - repeat constructor.
  - reflexivity.
  - reflexivity.
Defined.
